(** * Ecosystem agent: ledger parsing, ledger mutation, commit construction
      and run coordination

    A shallow embedding of the TypeScript sources [agent.ts] (class
    [TeamAgent]), [github.ts] (class [GitHubClient]) and [index.ts]
    ([handleScheduled] and its helpers), and the properties of the
    synchronisation engine stated over it.

    JavaScript strings are sequences of UTF-16 code units; they are modelled
    as [list N].  Regular expressions are run by a small backtracking matcher
    with the semantics of the constructs the sources use. *)

From Stdlib Require Import NArith List String Ascii Bool Lia Floats.
From stdpp Require Import base list gmap.

Local Open Scope N_scope.

(** ** JavaScript strings *)

Module JS.

Abbreviation jsstring := (list N).

(** An ASCII literal as a sequence of code units. *)
Definition js (s : string) : jsstring :=
  map N_of_ascii (list_ascii_of_string s).

Definition nl : jsstring := [10].
Definition dquote : jsstring := [34].

(** [WhiteSpace] and [LineTerminator] code units: what [\s] matches and what
    [String.prototype.trim] strips. *)
Definition is_space (c : N) : bool :=
  (c =? 9) || (c =? 10) || (c =? 11) || (c =? 12) || (c =? 13) || (c =? 32)
  || (c =? 160) || (c =? 5760) || ((8192 <=? c) && (c <=? 8202))
  || (c =? 8232) || (c =? 8233) || (c =? 8239) || (c =? 8287)
  || (c =? 12288) || (c =? 65279).

(** [\d] *)
Definition is_digit (c : N) : bool := (48 <=? c) && (c <=? 57).

(** [\w] *)
Definition is_word (c : N) : bool :=
  ((97 <=? c) && (c <=? 122)) || ((65 <=? c) && (c <=? 90))
  || is_digit c || (c =? 95).

(** [[\s\S]] *)
Definition any_unit (c : N) : bool := true.

(** [[^\n]] *)
Definition not_newline (c : N) : bool := negb (c =? 10).

(** [String.prototype.trim] *)
Fixpoint trimStart (s : jsstring) : jsstring :=
  match s with
  | c :: s' => if is_space c then trimStart s' else s
  | [] => []
  end.

Definition trimEnd (s : jsstring) : jsstring := rev (trimStart (rev s)).

Definition trim (s : jsstring) : jsstring := trimEnd (trimStart s).

(** [l] is a prefix of [s]: the rest of [s] after it. *)
Fixpoint strip_prefix (l s : jsstring) : option jsstring :=
  match l with
  | [] => Some s
  | a :: l' =>
      match s with
      | b :: s' => if a =? b then strip_prefix l' s' else None
      | [] => None
      end
  end.

(** [String.prototype.startsWith] *)
Definition startsWith (s l : jsstring) : bool :=
  match strip_prefix l s with Some _ => true | None => false end.

(** [String.prototype.includes] *)
Fixpoint includes (s l : jsstring) : bool :=
  startsWith s l || match s with [] => false | _ :: s' => includes s' l end.

(** [s.split('\n')]: the pieces between line feeds; never empty. *)
Fixpoint split_lines (s : jsstring) : list jsstring :=
  match s with
  | [] => [[]]
  | c :: s' =>
      if c =? 10 then [] :: split_lines s'
      else match split_lines s' with
           | l :: ls => (c :: l) :: ls
           | [] => [[c]]
           end
  end.

(** [s.replace(pat, '')] with a string pattern: the first occurrence of
    [pat] is removed. *)
Fixpoint remove_first (pat s : jsstring) : jsstring :=
  match strip_prefix pat s with
  | Some rest => rest
  | None => match s with
            | [] => []
            | c :: s' => c :: remove_first pat s'
            end
  end.

(** [String.prototype.toLowerCase] on code units of [\w]: only the ASCII
    capitals change. *)
Definition lower_unit (c : N) : N :=
  if (65 <=? c) && (c <=? 90) then c + 32 else c.

Definition toLowerCase_ascii (s : jsstring) : jsstring := map lower_unit s.

(** Truthiness of a string value. *)
Definition truthy (s : jsstring) : bool :=
  match s with [] => false | _ => true end.

Definition jsstring_eqb (a b : jsstring) : bool :=
  bool_decide (a = b).

End JS.

Import JS.

(** ** Regular expressions

    The constructs that occur in the sources: literals, one code unit of a
    class, greedy and lazy repetition of a class, sequence, alternative and
    numbered capture groups.  Matching is by backtracking in the order of
    the ECMAScript pattern semantics, written in continuation-passing style:
    the continuation receives the rest of the input and the captures. *)

Module Regex.

Inductive regex : Type :=
| Lit (l : jsstring)
| Cls (p : N -> bool)
| Star (greedy : bool) (p : N -> bool)
| Seq (r1 r2 : regex)
| Alt (r1 r2 : regex)
| Group (n : nat) (r : regex).

(** [p+] *)
Definition Plus (p : N -> bool) : regex := Seq (Cls p) (Star true p).

Definition captures := list (nat * jsstring).

Fixpoint capture (n : nat) (c : captures) : option jsstring :=
  match c with
  | [] => None
  | (m, s) :: c' => if Nat.eqb m n then Some s else capture n c'
  end.

Section Matcher.
Context {R : Type}.

Definition cont := jsstring -> captures -> option R.

(** [p*]: as many as possible first, then fewer. *)
Fixpoint star_greedy (p : N -> bool) (k : cont) (s : jsstring)
         (c : captures) : option R :=
  match s with
  | x :: s' =>
      if p x then
        match star_greedy p k s' c with
        | Some r => Some r
        | None => k s c
        end
      else k s c
  | [] => k [] c
  end.

(** [p*?]: as few as possible first, then more. *)
Fixpoint star_lazy (p : N -> bool) (k : cont) (s : jsstring)
         (c : captures) : option R :=
  match k s c with
  | Some r => Some r
  | None =>
      match s with
      | x :: s' => if p x then star_lazy p k s' c else None
      | [] => None
      end
  end.

Fixpoint mexec (r : regex) (k : cont) (s : jsstring) (c : captures)
  : option R :=
  match r with
  | Lit l =>
      match strip_prefix l s with
      | Some s' => k s' c
      | None => None
      end
  | Cls p =>
      match s with
      | x :: s' => if p x then k s' c else None
      | [] => None
      end
  | Star g p => if g then star_greedy p k s c else star_lazy p k s c
  | Seq r1 r2 => mexec r1 (fun s' c' => mexec r2 k s' c') s c
  | Alt r1 r2 =>
      match mexec r1 k s c with
      | Some x => Some x
      | None => mexec r2 k s c
      end
  | Group n r1 =>
      mexec r1
        (fun s' c' => k s' ((n, take (length s - length s') s) :: c')) s c
  end.
End Matcher.

(** A match anchored at the start of [s]: the rest of the input after the
    match, and the captures. *)
Definition exec_at (r : regex) (s : jsstring) : option (jsstring * captures) :=
  mexec r (fun s' c => Some (s', c)) s [].

(** One match: the text before it, the matched text, the captures and the
    text after it. *)
Record found := Found {
  f_before : jsstring;
  f_matched : jsstring;
  f_caps : captures;
  f_after : jsstring
}.

(** The leftmost match in [s] ([RegExp.prototype.exec] from index 0). *)
Fixpoint search (r : regex) (s : jsstring) : option found :=
  match exec_at r s with
  | Some (rest, c) =>
      Some (Found [] (take (length s - length rest) s) c rest)
  | None =>
      match s with
      | [] => None
      | x :: s' =>
          match search r s' with
          | Some f => Some (Found (x :: f_before f) (f_matched f)
                              (f_caps f) (f_after f))
          | None => None
          end
      end
  end.

(** [s.match(r)?.[0]] for a pattern without the global flag. *)
Definition match0 (r : regex) (s : jsstring) : option jsstring :=
  match search r s with
  | Some f => Some (f_matched f)
  | None => None
  end.

(** [GetSubstitution]: the expansion of a replacement template for a match
    with [m] capture groups and no named groups.  [before] and [after] are
    the parts of the subject around the match. *)
Section Substitution.
Variable m : nat.
Variable matched before after : jsstring.
Variable caps : captures.

Definition digit_val (d : N) : nat := N.to_nat (d - 48).

Definition cap_text (n : nat) : jsstring :=
  match capture n caps with Some s => s | None => [] end.

Fixpoint expand (tpl : jsstring) : jsstring :=
  match tpl with
  | [] => []
  | c :: t =>
      if negb (c =? 36) then c :: expand t
      else
        match t with
        | [] => [c]
        | d :: t' =>
            if d =? 36 then 36 :: expand t'                (* $$ *)
            else if d =? 38 then matched ++ expand t'      (* $& *)
            else if d =? 96 then before ++ expand t'       (* $` *)
            else if d =? 39 then after ++ expand t'        (* $' *)
            else if is_digit d then
              let one :=
                (* a one-digit reference, then the template from [t'] *)
                if Nat.leb 1 (digit_val d) && Nat.leb (digit_val d) m
                then cap_text (digit_val d) ++ expand t'
                else c :: d :: expand t' in
              match t' with
              | d2 :: t'' =>
                  if is_digit d2 then
                    let idx := (10 * digit_val d + digit_val d2)%nat in
                    if Nat.ltb m idx then one
                    else if Nat.leb 1 idx then cap_text idx ++ expand t''
                    else c :: d :: d2 :: expand t''
                  else one
              | [] => one
              end
            else c :: expand t
        end
  end.
End Substitution.

(** [s.replace(r, tpl)] for a pattern without the global flag: the first
    match is replaced. *)
Definition replace_first (r : regex) (m : nat) (tpl s : jsstring) : jsstring :=
  match search r s with
  | None => s
  | Some f =>
      f_before f
        ++ expand m (f_matched f) (f_before f) (f_after f) (f_caps f) tpl
        ++ f_after f
  end.

(** [s.replace(r, tpl)] for a pattern with the global flag: every match,
    left to right without overlap, is replaced; after an empty match the
    scan moves one code unit on.  [done] is the part of the subject already
    scanned. *)
Fixpoint replace_loop (fuel : nat) (r : regex) (m : nat) (tpl : jsstring)
         (done s : jsstring) : jsstring :=
  match fuel with
  | O => s
  | S fuel' =>
      match search r s with
      | None => s
      | Some f =>
          f_before f
            ++ expand m (f_matched f) (done ++ f_before f) (f_after f)
                 (f_caps f) tpl
            ++ match f_matched f, f_after f with
               | [], [] => []
               | [], x :: rest =>
                   x :: replace_loop fuel' r m tpl (done ++ f_before f ++ [x]) rest
               | _, rest =>
                   replace_loop fuel' r m tpl
                     (done ++ f_before f ++ f_matched f) rest
               end
      end
  end.

Definition replace_all (r : regex) (m : nat) (tpl s : jsstring) : jsstring :=
  replace_loop (S (length s)) r m tpl [] s.

(** [s.split(r)] for a pattern without capture groups. [cur] holds the code
    units since the last separator. *)
Fixpoint split_loop (fuel : nat) (r : regex) (cur s : jsstring)
  : list jsstring :=
  match fuel with
  | O => [cur ++ s]
  | S fuel' =>
      match s with
      | [] => [cur]
      | x :: s' =>
          match exec_at r s with
          | None => split_loop fuel' r (cur ++ [x]) s'
          | Some (rest, _) =>
              if Nat.eqb (length rest) (length s) && negb (truthy cur)
              then split_loop fuel' r (cur ++ [x]) s'
              else cur :: split_loop fuel' r [] rest
          end
      end
  end.

Definition split (r : regex) (s : jsstring) : list jsstring :=
  match s with
  | [] => match exec_at r [] with Some _ => [] | None => [[]] end
  | _ => split_loop (2 * length s + 1) r [] s
  end.

End Regex.

Import Regex.

(** ** The question ledger ([TeamAgent.parseQABoard], [TeamAgent.updateQABoard]) *)

Module Ledger.

(** Code units of the glyphs and of the arrow used by the ledger. *)
Definition glyph_open : jsstring := [55357; 57313].      (* U+1F7E1 *)
Definition glyph_answered : jsstring := [55357; 57314].  (* U+1F7E2 *)
Definition glyph_closed : jsstring := [9989].            (* U+2705 *)
Definition glyph_blocked : jsstring := [55357; 56628].   (* U+1F534 *)
Definition arrow : jsstring := [8594].                   (* U+2192 *)

Definition status_open : jsstring := glyph_open ++ js " Open".
Definition status_answered : jsstring := glyph_answered ++ js " Answered".

(** The object built for one block: [Partial<QAQuestion>].  Fields that the
    parser may leave unset are options. *)
Record QAQuestion := mkQuestion {
  id : jsstring;
  questionTitle : jsstring;
  askedBy : option jsstring;
  askedTo : option jsstring;
  status : option jsstring;
  questionBody : option jsstring;
  context : option jsstring;
  answerBody : option jsstring
}.

(** [/###\s+\[Q-\d+\]/g] *)
Definition header_re : regex :=
  Seq (Lit (js "###")) (Seq (Plus is_space)
    (Seq (Lit (js "[Q-")) (Seq (Plus is_digit) (Lit (js "]"))))).

(** [/\d+/] *)
Definition digits_re : regex := Plus is_digit.

(** [/\[Q-\d+\]\s*/] *)
Definition title_tag_re : regex :=
  Seq (Lit (js "[Q-")) (Seq (Plus is_digit)
    (Seq (Lit (js "]")) (Star true is_space))).

(** [/\*\*From\*\*:\s*(\w+)\s*→\s*\*\*To\*\*:\s*(\w+)/] *)
Definition from_to_re : regex :=
  Seq (Lit (js "**From**:")) (Seq (Star true is_space)
    (Seq (Group 1 (Plus is_word)) (Seq (Star true is_space)
      (Seq (Lit arrow) (Seq (Star true is_space)
        (Seq (Lit (js "**To**:")) (Seq (Star true is_space)
          (Group 2 (Plus is_word))))))))).

(** [/(🟡|🟢|✅|🔴)/] *)
Definition glyph_re : regex :=
  Group 1 (Alt (Lit glyph_open) (Alt (Lit glyph_answered)
    (Alt (Lit glyph_closed) (Lit glyph_blocked)))).

(** [markdown.split(/###\s+\[Q-\d+\]/g).slice(1)] *)
Definition questionBlocks (markdown : jsstring) : list jsstring :=
  drop 1 (split header_re markdown).

(** [block.trim().split('\n')] *)
Definition block_lines (block : jsstring) : list jsstring :=
  split_lines (trim block).

(** [lines[0].trim()] *)
Definition titleLine (block : jsstring) : jsstring :=
  trim (hd [] (block_lines block)).

(** The object literal that starts a question. *)
Definition question_init (block : jsstring) : QAQuestion :=
  let t := titleLine block in
  {| id := js "Q-" ++ (match match0 digits_re t with
                        | Some d => if truthy d then d else js "000"
                        | None => js "000"
                        end);
     questionTitle := replace_first title_tag_re 0 [] t;
     askedBy := None; askedTo := None; status := None;
     questionBody := None; context := None; answerBody := None |}.

(** The body of [for (const line of lines)]. *)
Definition read_line (q : QAQuestion) (line : jsstring) : QAQuestion :=
  if startsWith line (js "**From**:") then
    match search from_to_re line with
    | Some f =>
        {| id := id q; questionTitle := questionTitle q;
           askedBy := Some (toLowerCase_ascii (cap_text (f_caps f) 1));
           askedTo := Some (toLowerCase_ascii (cap_text (f_caps f) 2));
           status := status q; questionBody := questionBody q;
           context := context q; answerBody := answerBody q |}
    | None => q
    end
  else if startsWith line (js "**Status**:") then
    {| id := id q; questionTitle := questionTitle q;
       askedBy := askedBy q; askedTo := askedTo q;
       status := match0 glyph_re line;
       questionBody := questionBody q;
       context := context q; answerBody := answerBody q |}
  else if startsWith line (js "**Question**:") then
    {| id := id q; questionTitle := questionTitle q;
       askedBy := askedBy q; askedTo := askedTo q; status := status q;
       questionBody := Some (trim (remove_first (js "**Question**:") line));
       context := context q; answerBody := answerBody q |}
  else if startsWith line (js "**Answer**:") then
    let answer := trim (remove_first (js "**Answer**:") line) in
    if negb (startsWith answer (js "_Waiting")) then
      {| id := id q; questionTitle := questionTitle q;
         askedBy := askedBy q; askedTo := askedTo q; status := status q;
         questionBody := questionBody q;
         context := context q; answerBody := Some answer |}
    else q
  else q.

(** The question object of a block after all its lines were read. *)
Definition read_block (block : jsstring) : QAQuestion :=
  fold_left read_line (block_lines block) (question_init block).

Definition opt_truthy (o : option jsstring) : bool :=
  match o with Some s => truthy s | None => false end.

(** [question.id && question.askedTo && question.askedBy] *)
Definition well_formed (q : QAQuestion) : bool :=
  truthy (id q) && opt_truthy (askedTo q) && opt_truthy (askedBy q).

(** The body of [for (const block of questionBlocks)]: the question is
    pushed when it has an id, an addressee and an asker. *)
Definition parse_step (questions : list QAQuestion) (block : jsstring)
  : list QAQuestion :=
  let question := read_block block in
  if well_formed question then questions ++ [question] else questions.

Definition parseQABoard (markdown : jsstring) : list QAQuestion :=
  fold_left parse_step (questionBlocks markdown) [].

(** *** The mutator *)

(** An id without pattern syntax: code units of [\w] and hyphens, which a
    pattern source reads as themselves.  The ids that [parseQABoard] makes,
    [Q-] and digits, are of this kind, and they are the only ones that
    [answerQuestions] passes to [updateQABoard]. *)
Definition plain_id (questionId : jsstring) : bool :=
  forallb (fun c => is_word c || (c =? 45)) questionId.

(** The pattern
    [(### \[<id>\][\s\S]*?\*\*<label>\*\*:)\s*<anchor>] that both
    replacements of [updateQABoard] are built on.  The code splices
    [questionId] into the pattern source as it is, without escaping.  This
    is the pattern for a [plain_id], which the source reads as a literal.
    An id with pattern syntax in it ([.], [*], [(], ...) gives another
    pattern, or makes [new RegExp] throw; such ids are outside this
    definition, and what is proved of the mutator for all ids is stated
    for plain ids. *)
Definition section_re (questionId label : jsstring) (tail : regex) : regex :=
  Seq (Group 1 (Seq (Lit (js "### [" ++ questionId ++ js "]"))
                 (Seq (Star false any_unit) (Lit label))))
      (Seq (Star true is_space) tail).

(** [(### \[<id>\][\s\S]*?\*\*Answer\*\*:)\s*_Waiting[^\n]*] *)
Definition questionPattern (questionId : jsstring) : regex :=
  section_re questionId (js "**Answer**:")
    (Seq (Lit (js "_Waiting")) (Star true not_newline)).

(** [(### \[<id>\][\s\S]*?\*\*Status\*\*:)\s*🟡 Open] *)
Definition statusPattern (questionId : jsstring) : regex :=
  section_re questionId (js "**Status**:") (Lit status_open).

(** The replacement template of the answer. *)
Definition answer_template (answer timestamp displayName : jsstring)
  : jsstring :=
  js "$1 " ++ answer ++ nl ++ nl ++ js "**Answered**: " ++ timestamp
    ++ js " by " ++ displayName ++ js " (Autonomous Agent)".

Definition status_template : jsstring := js "$1 " ++ status_answered.

(** The text transformation of [updateQABoard]: what is stored for the
    ledger path, from the loaded [content]. *)
Definition updateQABoard_text (content questionId answer timestamp
                               displayName : jsstring) : jsstring :=
  let content1 :=
    replace_all (questionPattern questionId) 1
      (answer_template answer timestamp displayName) content in
  replace_all (statusPattern questionId) 1 status_template content1.

End Ledger.

(** ** Effects: asynchronous code that mutates state and may throw

    An [async] function is a state transformer that either returns a value
    or throws; the state it leaves is kept in both cases, as mutations made
    before a [throw] stay made. *)

Module Eff.

(** A thrown value: an [Error] object with its [name] and [message], or any
    other value, given by its string conversion. *)
Inductive exn : Type :=
| ErrorObj (name message : jsstring)
| Thrown (text : jsstring).

(** [new Error(msg)] *)
Definition Error (msg : jsstring) : exn := ErrorObj (js "Error") msg.

(** [`${error}`]: [Error.prototype.toString] for error objects. *)
Definition to_string (e : exn) : jsstring :=
  match e with
  | ErrorObj n m =>
      if truthy n then (if truthy m then n ++ js ": " ++ m else n) else m
  | Thrown t => t
  end.

(** [error instanceof Error ? error.message : String(error)] *)
Definition message_of (e : exn) : jsstring :=
  match e with
  | ErrorObj _ m => m
  | Thrown t => t
  end.

Inductive outcome (A : Type) : Type :=
| Ok (a : A)
| Throw (e : exn).
Arguments Ok {A} a.
Arguments Throw {A} e.

Definition M (S A : Type) : Type := S -> outcome A * S.

Section Ops.
Context {S : Type}.

Definition ret {A} (a : A) : M S A := fun s => (Ok a, s).

Definition throw {A} (e : exn) : M S A := fun s => (Throw e, s).

Definition bind {A B} (m : M S A) (k : A -> M S B) : M S B :=
  fun s =>
    match m s with
    | (Ok a, s') => k a s'
    | (Throw e, s') => (Throw e, s')
    end.

(** [try { m } catch (error) { h error }] *)
Definition try_catch {A} (m : M S A) (h : exn -> M S A) : M S A :=
  fun s =>
    match m s with
    | (Ok a, s') => (Ok a, s')
    | (Throw e, s') => h e s'
    end.

Definition get : M S S := fun s => (Ok s, s).

Definition modify (f : S -> S) : M S unit := fun s => (Ok tt, f s).

(** [for (const x of xs) { body x }] *)
Fixpoint for_each {B} (xs : list B) (body : B -> M S unit) : M S unit :=
  match xs with
  | [] => ret tt
  | x :: xs' => bind (body x) (fun _ => for_each xs' body)
  end.

(** Partial correctness with the outcome in the postcondition. *)
Definition hoare {A} (P : S -> Prop) (m : M S A)
           (Q : outcome A -> S -> Prop) : Prop :=
  forall s, P s -> Q (fst (m s)) (snd (m s)).

(** [m] returns normally from every state. *)
Definition never_throws {A} (m : M S A) : Prop :=
  forall s, exists a, fst (m s) = Ok a.

(** [I] holds after [m] whenever it held before, whatever the outcome. *)
Definition preserves {A} (I : S -> Prop) (m : M S A) : Prop :=
  forall s, I s -> I (snd (m s)).
End Ops.

Declare Scope eff_scope.
Delimit Scope eff_scope with eff.
Notation "x <- c ;; k" := (bind c (fun x => k))
  (at level 100, c at next level, right associativity) : eff_scope.
Notation "c ;; k" := (bind c (fun _ => k))
  (at level 100, right associativity) : eff_scope.

End Eff.

Import Eff.

(** ** The team agent ([class TeamAgent]) *)

Module Agent.

Import Ledger.

Record TeamConfig := mkTeam {
  name : jsstring;
  displayName : jsstring;
  repoPath : jsstring;
  docsPath : jsstring;
  qaAnswerMarker : jsstring
}.

(** [AgentResult]; the cost is a JavaScript number, a binary64 float. *)
Record AgentResult := mkResult {
  team : jsstring;
  success : bool;
  questionsAnswered : nat;
  answersReviewed : nat;
  docsUpdated : list jsstring;
  mcpUpdatesProcessed : nat;
  actionPlanUpdated : bool;
  readmeUpdated : bool;
  commitSha : option jsstring;
  errors : list jsstring;
  costEstimate : float
}.

(** The fields that the agent assigns. *)
Definition set_success (b : bool) (r : AgentResult) : AgentResult :=
  mkResult (team r) b (questionsAnswered r) (answersReviewed r)
    (docsUpdated r) (mcpUpdatesProcessed r) (actionPlanUpdated r)
    (readmeUpdated r) (commitSha r) (errors r) (costEstimate r).

Definition incr_questionsAnswered (r : AgentResult) : AgentResult :=
  mkResult (team r) (success r) (S (questionsAnswered r)) (answersReviewed r)
    (docsUpdated r) (mcpUpdatesProcessed r) (actionPlanUpdated r)
    (readmeUpdated r) (commitSha r) (errors r) (costEstimate r).

Definition incr_answersReviewed (r : AgentResult) : AgentResult :=
  mkResult (team r) (success r) (questionsAnswered r) (S (answersReviewed r))
    (docsUpdated r) (mcpUpdatesProcessed r) (actionPlanUpdated r)
    (readmeUpdated r) (commitSha r) (errors r) (costEstimate r).

Definition push_doc (path : jsstring) (r : AgentResult) : AgentResult :=
  mkResult (team r) (success r) (questionsAnswered r) (answersReviewed r)
    (docsUpdated r ++ [path]) (mcpUpdatesProcessed r) (actionPlanUpdated r)
    (readmeUpdated r) (commitSha r) (errors r) (costEstimate r).

Definition incr_mcpUpdatesProcessed (r : AgentResult) : AgentResult :=
  mkResult (team r) (success r) (questionsAnswered r) (answersReviewed r)
    (docsUpdated r) (S (mcpUpdatesProcessed r)) (actionPlanUpdated r)
    (readmeUpdated r) (commitSha r) (errors r) (costEstimate r).

Definition set_actionPlanUpdated (b : bool) (r : AgentResult) : AgentResult :=
  mkResult (team r) (success r) (questionsAnswered r) (answersReviewed r)
    (docsUpdated r) (mcpUpdatesProcessed r) b
    (readmeUpdated r) (commitSha r) (errors r) (costEstimate r).

Definition set_readmeUpdated (b : bool) (r : AgentResult) : AgentResult :=
  mkResult (team r) (success r) (questionsAnswered r) (answersReviewed r)
    (docsUpdated r) (mcpUpdatesProcessed r) (actionPlanUpdated r)
    b (commitSha r) (errors r) (costEstimate r).

Definition push_error (msg : jsstring) (r : AgentResult) : AgentResult :=
  mkResult (team r) (success r) (questionsAnswered r) (answersReviewed r)
    (docsUpdated r) (mcpUpdatesProcessed r) (actionPlanUpdated r)
    (readmeUpdated r) (commitSha r) (errors r ++ [msg]) (costEstimate r).

Definition add_cost (c : float) (r : AgentResult) : AgentResult :=
  mkResult (team r) (success r) (questionsAnswered r) (answersReviewed r)
    (docsUpdated r) (mcpUpdatesProcessed r) (actionPlanUpdated r)
    (readmeUpdated r) (commitSha r) (errors r)
    (PrimFloat.add (costEstimate r) c).

(** The per-operation estimates [0.02] and [0.03], as the nearest binary64
    values. *)
Definition cost_002 : float := 0x1.47ae147ae147bp-6%float.
Definition cost_003 : float := 0x1.eb851eb851eb8p-6%float.

(** [Map<string, string>]: keys in insertion order, one entry per key;
    [set] on a key that is present replaces its value in place. *)
Definition FileMap := list (jsstring * jsstring).

Fixpoint map_set (k v : jsstring) (m : FileMap) : FileMap :=
  match m with
  | [] => [(k, v)]
  | (k', v') :: m' =>
      if bool_decide (k' = k) then (k, v) :: m'
      else (k', v') :: map_set k v m'
  end.

Fixpoint map_get (k : jsstring) (m : FileMap) : option jsstring :=
  match m with
  | [] => None
  | (k', v') :: m' => if bool_decide (k' = k) then Some v' else map_get k m'
  end.

(** The fields of a [TeamAgent] that change. *)
Record TeamAgent := mkAgent {
  agent_team : TeamConfig;
  result : AgentResult;
  fileChanges : FileMap
}.

(** [new TeamAgent(team, mnemo, github)] *)
Definition new_TeamAgent (t : TeamConfig) : TeamAgent :=
  {| agent_team := t;
     result := mkResult (name t) false 0 0 [] 0 false false None [] 0%float;
     fileChanges := [] |}.

(** [getFileChanges()] *)
Definition getFileChanges (a : TeamAgent) : list (jsstring * jsstring) :=
  map (fun '(path, content) => (path, content)) (fileChanges a).

(** The five prompt templates, each with the values spliced into it. *)
Inductive prompt : Type :=
| AnswerPrompt (team_display title body ctx : jsstring)
| InsightsPrompt (team_display title body answer : jsstring)
| MCPPrompt (team_display : jsstring)
| PlanPrompt (team_display : jsstring)
| ReadmePrompt (team_display : jsstring).

Inductive phase : Type :=
| AnswerQuestions | ReviewAnswers | CheckMCPUpdates | UpdateActionPlan
| UpdateReadme.

(** The console, kept to the lines that mark the start of the agent, the
    start of each phase, completion and failure. *)
Inductive log_entry : Type :=
| LogStarting (team_display : jsstring)
| LogPhase (p : phase)
| LogCompleted (team_display : jsstring)
| LogFailed (team_display msg : jsstring).

(** A value spliced into a template literal: [undefined] prints as such. *)
Definition spliced (o : option jsstring) : jsstring :=
  match o with Some s => s | None => js "undefined" end.

(** [x || 'None provided'] *)
Definition or_default (o : option jsstring) (d : jsstring) : jsstring :=
  match o with Some s => if truthy s then s else d | None => d end.

Definition qaPath : jsstring := js "docs/CROSS-TEAM-QA-BOARD.md".
Definition insightsPath : jsstring := js "docs/QA-INSIGHTS.md".
Definition mcpPath : jsstring := js "docs/MCP-UPDATES.md".
Definition actionPlanPath : jsstring := js "docs/ACTION-PLAN.md".
Definition readmePath : jsstring := js "README.md".

(** [q.askedTo === this.team.name && q.status === '🟡 Open'] *)
Definition is_open_for (t : TeamConfig) (q : QAQuestion) : bool :=
  bool_decide (askedTo q = Some (name t))
  && bool_decide (status q = Some status_open).

(** [q.askedBy === this.team.name && q.status === '🟢 Answered' && q.answerBody] *)
Definition is_answered_for (t : TeamConfig) (q : QAQuestion) : bool :=
  bool_decide (askedBy q = Some (name t))
  && bool_decide (status q = Some status_answered)
  && opt_truthy (answerBody q).

(** The first lines of the two derived logs. *)
Definition insights_header (t : TeamConfig) : jsstring :=
  js "# Q&A Insights for " ++ displayName t ++ nl ++ nl
    ++ js "This file tracks actionable insights from Q&A board answers."
    ++ nl ++ nl ++ js "---" ++ nl.

Definition mcp_header (t : TeamConfig) : jsstring :=
  js "# MCP Developer Guide Updates for " ++ displayName t ++ nl ++ nl
    ++ js "This file tracks relevant MCP updates." ++ nl ++ nl
    ++ js "---" ++ nl.

Definition insights_entry (questionId timestamp insights : jsstring)
  : jsstring :=
  nl ++ js "## [" ++ questionId ++ js "] - " ++ timestamp ++ nl ++ nl
    ++ insights ++ nl ++ nl ++ js "---" ++ nl.

Definition mcp_entry (timestamp updates : jsstring) : jsstring :=
  nl ++ js "## Updates Checked: " ++ timestamp ++ nl ++ nl
    ++ updates ++ nl ++ nl ++ js "---" ++ nl.

(** [!review.toLowerCase().includes('no updates needed')].  No code unit
    outside ASCII lowers to a letter of the phrase, so lowering the ASCII
    capitals decides the test. *)
Definition readme_needs_update (review : jsstring) : bool :=
  negb (includes (toLowerCase_ascii review) (js "no updates needed")).

Section Collaborators.

(** The world outside the agent: the answering service, the repository
    host and the clock.  Each call may change the world and may throw. *)
Variable W : Type.
Variable mnemo_query : prompt -> W -> outcome jsstring * W.
Variable github_getFile :
  jsstring -> jsstring -> jsstring -> W -> outcome jsstring * W.
(** [new Date().toISOString().split('T')[0]] *)
Variable today : W -> jsstring.

Record state := mkState {
  agent : TeamAgent;
  world : W;
  console : list log_entry
}.

Definition call {A} (f : W -> outcome A * W) : M state A :=
  fun s =>
    let '(o, w) := f (world s) in
    (o, mkState (agent s) w (console s)).

Definition log (e : log_entry) : M state unit :=
  modify (fun s => mkState (agent s) (world s) (console s ++ [e])).

Definition update_result (f : AgentResult -> AgentResult) : M state unit :=
  modify (fun s =>
    mkState (mkAgent (agent_team (agent s)) (f (result (agent s)))
               (fileChanges (agent s)))
            (world s) (console s)).

(** [this.fileChanges.set(path, content)] *)
Definition fileChanges_set (path content : jsstring) : M state unit :=
  modify (fun s =>
    mkState (mkAgent (agent_team (agent s)) (result (agent s))
               (map_set path content (fileChanges (agent s))))
            (world s) (console s)).

Definition this_team : M state TeamConfig :=
  fun s => (Ok (agent_team (agent s)), s).

Definition now : M state jsstring :=
  fun s => (Ok (today (world s)), s).

Local Open Scope eff_scope.

Definition loadQABoard : M state jsstring :=
  try_catch
    (call (github_getFile (js "CyberBrown") (js "nexus") qaPath))
    (fun error =>
       throw (Error (js "Failed to load Q&A board: " ++ to_string error))).

Definition updateQABoard (questionId answer : jsstring) : M state unit :=
  content <- loadQABoard ;;
  timestamp <- now ;;
  t <- this_team ;;
  fileChanges_set qaPath
    (updateQABoard_text content questionId answer timestamp (displayName t)) ;;
  update_result (push_doc qaPath).

Definition applyInsightsToDocumentation (questionId insights : jsstring)
  : M state unit :=
  timestamp <- now ;;
  t <- this_team ;;
  try_catch
    (existing <- try_catch
                   (call (github_getFile (js "CyberBrown") (name t)
                            insightsPath))
                   (fun _ => ret (insights_header t)) ;;
     fileChanges_set insightsPath
       (existing ++ insights_entry questionId timestamp insights) ;;
     update_result (push_doc insightsPath))
    (fun _ => ret tt).

Definition applyMCPUpdatesToDocumentation (updates : jsstring)
  : M state unit :=
  timestamp <- now ;;
  t <- this_team ;;
  try_catch
    (existing <- try_catch
                   (call (github_getFile (js "CyberBrown") (name t) mcpPath))
                   (fun _ => ret (mcp_header t)) ;;
     fileChanges_set mcpPath (existing ++ mcp_entry timestamp updates) ;;
     update_result (push_doc mcpPath))
    (fun _ => ret tt).

(** The body of the loop of [answerQuestions]. *)
Definition answer_one (question : QAQuestion) : M state unit :=
  try_catch
    (t <- this_team ;;
     answer <- call (mnemo_query
                 (AnswerPrompt (displayName t) (questionTitle question)
                    (spliced (questionBody question))
                    (or_default (context question) (js "None provided")))) ;;
     updateQABoard (id question) answer ;;
     update_result incr_questionsAnswered ;;
     update_result (add_cost cost_002))
    (fun error =>
       update_result
         (push_error (js "Failed to answer " ++ id question ++ js ": "
                        ++ to_string error))).

Definition answerQuestions : M state unit :=
  log (LogPhase AnswerQuestions) ;;
  qaBoard <- loadQABoard ;;
  t <- this_team ;;
  for_each (List.filter (is_open_for t) (parseQABoard qaBoard))
    answer_one.

(** The body of the loop of [reviewAnswers]. *)
Definition review_one (question : QAQuestion) : M state unit :=
  try_catch
    (t <- this_team ;;
     insights <- call (mnemo_query
                   (InsightsPrompt (displayName t) (questionTitle question)
                      (spliced (questionBody question))
                      (spliced (answerBody question)))) ;;
     applyInsightsToDocumentation (id question) insights ;;
     update_result incr_answersReviewed ;;
     update_result (add_cost cost_002))
    (fun error =>
       update_result
         (push_error (js "Failed to process answer " ++ id question
                        ++ js ": " ++ to_string error))).

Definition reviewAnswers : M state unit :=
  log (LogPhase ReviewAnswers) ;;
  qaBoard <- loadQABoard ;;
  t <- this_team ;;
  for_each (List.filter (is_answered_for t) (parseQABoard qaBoard))
    review_one.

Definition checkMCPUpdates : M state unit :=
  log (LogPhase CheckMCPUpdates) ;;
  t <- this_team ;;
  try_catch
    (updates <- call (mnemo_query (MCPPrompt (displayName t))) ;;
     if truthy updates && Nat.ltb 10 (length updates) then
       applyMCPUpdatesToDocumentation updates ;;
       update_result incr_mcpUpdatesProcessed ;;
       update_result (add_cost cost_003)
     else ret tt)
    (fun error =>
       update_result
         (push_error (js "Failed to check MCP updates: " ++ to_string error))).

Definition updateActionPlan : M state unit :=
  log (LogPhase UpdateActionPlan) ;;
  t <- this_team ;;
  try_catch
    (plan <- call (mnemo_query (PlanPrompt (displayName t))) ;;
     update_result (set_actionPlanUpdated true) ;;
     update_result (push_doc actionPlanPath) ;;
     update_result (add_cost cost_003))
    (fun error =>
       update_result
         (push_error (js "Failed to update action plan: "
                        ++ to_string error))).

Definition updateReadme : M state unit :=
  log (LogPhase UpdateReadme) ;;
  t <- this_team ;;
  try_catch
    (review <- call (mnemo_query (ReadmePrompt (displayName t))) ;;
     (if readme_needs_update review then
        update_result (set_readmeUpdated true) ;;
        update_result (push_doc readmePath)
      else ret tt) ;;
     update_result (add_cost cost_002))
    (fun error =>
       update_result
         (push_error (js "Failed to review README: " ++ to_string error))).

Definition execute : M state AgentResult :=
  t <- this_team ;;
  log (LogStarting (displayName t)) ;;
  try_catch
    (answerQuestions ;;
     reviewAnswers ;;
     checkMCPUpdates ;;
     updateActionPlan ;;
     updateReadme ;;
     update_result (set_success true) ;;
     log (LogCompleted (displayName t)))
    (fun error =>
       update_result (push_error (message_of error)) ;;
       log (LogFailed (displayName t) (message_of error))) ;;
  s <- get ;;
  ret (result (agent s)).

(** The state in which [execute] is called on a new agent. *)
Definition initial (t : TeamConfig) (w : W) : state :=
  mkState (new_TeamAgent t) w [].

(** The five phases in the order of [execute]. *)
Definition phases : list (phase * M state unit) :=
  [ (AnswerQuestions, answerQuestions); (ReviewAnswers, reviewAnswers);
    (CheckMCPUpdates, checkMCPUpdates); (UpdateActionPlan, updateActionPlan);
    (UpdateReadme, updateReadme) ].

(** Phase [p] is reached from [s] with its predecessors having returned,
    and throws there. *)
Definition escapes_at (p : phase) (s : state) : Prop :=
  exists before m after s1,
    phases = before ++ (p, m) :: after
    /\ snd (for_each before (fun pm => snd pm) s) = s1
    /\ fst (for_each before (fun pm => snd pm) s) = Ok tt
    /\ exists e, fst (m s1) = Throw e.

(** The phases whose start the console shows. *)
Definition phases_started (l : list log_entry) : list phase :=
  omap (fun e => match e with LogPhase p => Some p | _ => None end) l.

(** A property of the agent alone, and one of the console alone. *)
Definition on_agent (J : TeamAgent -> Prop) : state -> Prop :=
  fun s => J (agent s).

Definition on_console (K : list log_entry -> Prop) : state -> Prop :=
  fun s => K (console s).

(** The ledger cannot be fetched in world [w]; [e] is what [loadQABoard]
    throws then. *)
Definition ledger_unreachable (w : W) (e : exn) : Prop :=
  exists e0,
    fst (github_getFile (js "CyberBrown") (js "nexus") qaPath w) = Throw e0
    /\ e = Error (js "Failed to load Q&A board: " ++ to_string e0).

End Collaborators.

Arguments mkState {W} _ _ _.
Arguments agent {W} _.
Arguments world {W} _.
Arguments console {W} _.

(** What the coordinator gets from [new TeamAgent(...)] and
    [agent.execute()]: the result, and the agent with its file changes. *)
Definition agent_run {W} (mnemo_query : prompt -> W -> outcome jsstring * W)
           (github_getFile :
              jsstring -> jsstring -> jsstring -> W -> outcome jsstring * W)
           (today : W -> jsstring) (t : TeamConfig) (w : W)
  : outcome (AgentResult * TeamAgent) * W :=
  let '(o, s) := execute W mnemo_query github_getFile today (initial W t w) in
  (match o with
   | Ok r => Ok (r, agent s)
   | Throw e => Throw e
   end, world s).

(** The console shows the entry [e]. *)
Definition shows (e : log_entry) (l : list log_entry) : Prop := In e l.

Definition not_successful (a : TeamAgent) : Prop := success (result a) = false.

Definition one_per_path (a : TeamAgent) : Prop :=
  NoDup (map fst (fileChanges a)).

End Agent.

(** ** The repository host and its client ([class GitHubClient]) *)

Module GitHub.

(** Object names.  Blobs are named by their content; trees and commits are
    named by the host. *)
Inductive sha : Type :=
| Bid (content : jsstring)
| Oid (n : nat).

Inductive object : Type :=
| Tree (files : gmap jsstring jsstring)
| Commit (tree : nat) (parents : list nat) (message : jsstring).

(** One repository: the blobs it holds, its trees and commits, and its
    branch refs. *)
Record repo := mkRepo {
  blobs : gset jsstring;
  objects : gmap nat object;
  refs : gmap jsstring nat
}.

(** An element of the [tree] array of a create-tree request. *)
Record tree_entry := mkEntry {
  e_path : jsstring;
  e_mode : jsstring;
  e_type : jsstring;
  e_sha : sha
}.

(** The requests of the Git data API that the client sends, each with the
    owner and the repository of its path. *)
Inductive request : Type :=
| GetRef (owner rp branch : jsstring)
| PostRef (owner rp branch : jsstring) (target : sha)
| GetCommit (owner rp : jsstring) (c : sha)
| PostBlob (owner rp content : jsstring)
| PostTree (owner rp : jsstring) (base_tree : sha) (tree : list tree_entry)
| PostCommit (owner rp message : jsstring) (tree : sha) (parents : list sha)
| PatchRef (owner rp branch : jsstring) (target : sha).

(** The JSON bodies of the answers, by the fields the client reads. *)
Inductive response : Type :=
| RefJson (object_sha : sha)
| CommitJson (c : sha) (tree_sha : sha)
| ObjectJson (o : sha).

Definition is_patch_ref (r : request) : bool :=
  match r with PatchRef _ _ _ _ => true | _ => false end.

Definition is_post_commit (r : request) : bool :=
  match r with PostCommit _ _ _ _ _ => true | _ => false end.

Definition as_commit (rp : repo) (s : sha) : option nat :=
  match s with
  | Oid n => match objects rp !! n with
             | Some (Commit _ _ _) => Some n
             | _ => None
             end
  | Bid _ => None
  end.

Definition as_tree (rp : repo) (s : sha) : option (gmap jsstring jsstring) :=
  match s with
  | Oid n => match objects rp !! n with
             | Some (Tree files) => Some files
             | _ => None
             end
  | Bid _ => None
  end.

(** The content that an entry names, when it is a blob of the repository. *)
Definition as_blob (rp : repo) (e : tree_entry) : option jsstring :=
  match e_sha e with
  | Bid c => if bool_decide (c ∈ blobs rp) then Some c else None
  | Oid _ => None
  end.

(** The new entries laid over the files of the base tree. *)
Fixpoint layer (rp : repo) (files : gmap jsstring jsstring)
         (entries : list tree_entry) : option (gmap jsstring jsstring) :=
  match entries with
  | [] => Some files
  | e :: entries' =>
      match as_blob rp e with
      | Some c => layer rp (<[e_path e := c]> files) entries'
      | None => None
      end
  end.

Definition fresh_id (rp : repo) : nat := fresh (dom (objects rp)).

(** What one repository answers to a request, and its state afterwards;
    [None] is an answer that is not ok. *)
Definition serve (rq : request) (rp : repo) : option (response * repo) :=
  match rq with
  | GetRef _ _ branch =>
      match refs rp !! branch with
      | Some c => Some (RefJson (Oid c), rp)
      | None => None
      end
  | PostRef _ _ branch target =>
      match refs rp !! branch, as_commit rp target with
      | None, Some c =>
          Some (RefJson (Oid c),
                mkRepo (blobs rp) (objects rp) (<[branch := c]> (refs rp)))
      | _, _ => None
      end
  | GetCommit _ _ c =>
      match c with
      | Oid n => match objects rp !! n with
                 | Some (Commit t _ _) => Some (CommitJson (Oid n) (Oid t), rp)
                 | _ => None
                 end
      | Bid _ => None
      end
  | PostBlob _ _ content =>
      Some (ObjectJson (Bid content),
            mkRepo ({[content]} ∪ blobs rp) (objects rp) (refs rp))
  | PostTree _ _ base entries =>
      match as_tree rp base with
      | Some files =>
          match layer rp files entries with
          | Some files' =>
              Some (ObjectJson (Oid (fresh_id rp)),
                    mkRepo (blobs rp)
                      (<[fresh_id rp := Tree files']> (objects rp)) (refs rp))
          | None => None
          end
      | None => None
      end
  | PostCommit _ _ message t parents =>
      match t, as_tree rp t, mapM (as_commit rp) parents with
      | Oid tn, Some _, Some ps =>
          Some (CommitJson (Oid (fresh_id rp)) t,
                mkRepo (blobs rp)
                  (<[fresh_id rp := Commit tn ps message]> (objects rp))
                  (refs rp))
      | _, _, _ => None
      end
  | PatchRef _ _ branch target =>
      match refs rp !! branch, as_commit rp target with
      | Some _, Some c =>
          Some (RefJson (Oid c),
                mkRepo (blobs rp) (objects rp) (<[branch := c]> (refs rp)))
      | _, _ => None
      end
  end.

Definition request_repo (rq : request) : jsstring * jsstring :=
  match rq with
  | GetRef o r _ | PostRef o r _ _ | GetCommit o r _ | PostBlob o r _
  | PostTree o r _ _ | PostCommit o r _ _ _ | PatchRef o r _ _ => (o, r)
  end.

(** What goes wrong with a request.  Either it never reaches the host
    ([await fetch(url, ...)] rejects and nothing was received), or the host
    gets it and acts on it and the call still throws: the answer is lost on
    the way back, or its body cannot be read ([response.json()] or
    [response.text()] rejects). *)
Inductive fault : Type :=
| Unsent (e : exn)
| Unanswered (e : exn).

(** The world of the client: the repositories of the host, what goes wrong
    on the way (for each coming request, whether it fails, where and with
    what), and the requests sent so far. *)
Record net := mkNet {
  host : gmap (jsstring * jsstring) repo;
  faults : list (option fault);
  sent : list request
}.

(** [private async fetch(path, options)]: the request is sent; an answer
    that is not ok is thrown as an [Error].  A request that throws may
    have been carried out by the host all the same. *)
Definition fetch (rq : request) : M net response :=
  fun w =>
    let sent' := sent w ++ [rq] in
    let later := tail (faults w) in
    match faults w with
    | Some (Unsent e) :: _ => (Throw e, mkNet (host w) later sent')
    | Some (Unanswered e) :: _ =>
        match host w !! request_repo rq with
        | Some rp =>
            match serve rq rp with
            | Some (_, rp') =>
                (Throw e,
                 mkNet (<[request_repo rq := rp']> (host w)) later sent')
            | None => (Throw e, mkNet (host w) later sent')
            end
        | None => (Throw e, mkNet (host w) later sent')
        end
    | _ =>
        match host w !! request_repo rq with
        | Some rp =>
            match serve rq rp with
            | Some (resp, rp') =>
                (Ok resp,
                 mkNet (<[request_repo rq := rp']> (host w)) later sent')
            | None =>
                (Throw (Error (js "GitHub API error: 422 Unprocessable")),
                 mkNet (host w) later sent')
            end
        | None =>
            (Throw (Error (js "GitHub API error: 404 Not Found")),
             mkNet (host w) later sent')
        end
    end.

(** Reading a field that the answer does not have. *)
Definition type_error {A} : M net A :=
  throw (ErrorObj (js "TypeError")
           (js "Cannot read properties of undefined")).

(** [x.object.sha] *)
Definition object_sha (x : response) : M net sha :=
  match x with RefJson s => ret s | _ => type_error end.

(** [x.tree.sha] *)
Definition tree_sha (x : response) : M net sha :=
  match x with CommitJson _ t => ret t | _ => type_error end.

(** [x.sha] *)
Definition sha_of (x : response) : M net sha :=
  match x with
  | CommitJson c _ => ret c
  | ObjectJson o => ret o
  | RefJson _ => type_error
  end.

(** [GitHubFile] *)
Record GitHubFile := mkFile {
  path : jsstring;
  content : jsstring
}.

Local Open Scope eff_scope.

Definition createBranch (owner rp branchName : jsstring) : M net sha :=
  mainRef <- fetch (GetRef owner rp (js "main")) ;;
  mainSha <- object_sha mainRef ;;
  fetch (PostRef owner rp branchName mainSha) ;;
  ret mainSha.

Definition branchExists (owner rp branch : jsstring) : M net bool :=
  try_catch (fetch (GetRef owner rp branch) ;; ret true)
            (fun _ => ret false).

(** The loop of [createCommit] that makes a blob for each file and pushes
    its entry on [tree]. *)
Fixpoint create_blobs (owner rp : jsstring) (files : list GitHubFile)
         (tree : list tree_entry) : M net (list tree_entry) :=
  match files with
  | [] => ret tree
  | file :: files' =>
      blob <- fetch (PostBlob owner rp (content file)) ;;
      s <- sha_of blob ;;
      create_blobs owner rp files'
        (tree ++ [mkEntry (path file) (js "100644") (js "blob") s])
  end.

Definition createCommit (owner rp branch message : jsstring)
           (files : list GitHubFile) : M net sha :=
  branchRef <- fetch (GetRef owner rp branch) ;;
  baseSha <- object_sha branchRef ;;
  baseCommit <- fetch (GetCommit owner rp baseSha) ;;
  baseTreeSha <- tree_sha baseCommit ;;
  tree <- create_blobs owner rp files [] ;;
  newTree <- fetch (PostTree owner rp baseTreeSha tree) ;;
  newTreeSha <- sha_of newTree ;;
  commit <- fetch (PostCommit owner rp message newTreeSha [baseSha]) ;;
  commitSha <- sha_of commit ;;
  fetch (PatchRef owner rp branch commitSha) ;;
  ret commitSha.

(** [createCommit] up to its last request: the blobs, the tree and the
    commit are made, and the name of the commit is known. *)
Definition commit_objects (owner rp branch message : jsstring)
           (files : list GitHubFile) : M net sha :=
  branchRef <- fetch (GetRef owner rp branch) ;;
  baseSha <- object_sha branchRef ;;
  baseCommit <- fetch (GetCommit owner rp baseSha) ;;
  baseTreeSha <- tree_sha baseCommit ;;
  tree <- create_blobs owner rp files [] ;;
  newTree <- fetch (PostTree owner rp baseTreeSha tree) ;;
  newTreeSha <- sha_of newTree ;;
  commit <- fetch (PostCommit owner rp message newTreeSha [baseSha]) ;;
  sha_of commit.

(** The files of the tree of a commit. *)
Definition commit_files (rp : repo) (c : nat)
  : option (gmap jsstring jsstring) :=
  match objects rp !! c with
  | Some (Commit t _ _) => as_tree rp (Oid t)
  | _ => None
  end.

(** The paths at which two trees differ. *)
Definition changed_paths (t1 t2 : gmap jsstring jsstring) : gset jsstring :=
  filter (fun p => t1 !! p ≠ t2 !! p) (dom t1 ∪ dom t2).

Definition is_commit (rp : repo) (c : nat) : Prop :=
  exists t ps m, objects rp !! c = Some (Commit t ps m).

(** The branch refs of every repository of the host. *)
Definition all_refs (w : net) : gmap (jsstring * jsstring) (gmap jsstring nat) :=
  refs <$> host w.

(** Requests that move no ref. *)
Definition no_ref_update (rq : request) : bool :=
  match rq with PatchRef _ _ _ _ | PostRef _ _ _ _ => false | _ => true end.

(** [m] sends only requests that move no ref, and leaves every ref of the
    host as it was, whatever its outcome. *)
Definition quiet {A} (m : M net A) : Prop :=
  forall w, exists reqs,
    sent (snd (m w)) = sent w ++ reqs
    /\ forallb no_ref_update reqs = true
    /\ all_refs (snd (m w)) = all_refs w.

(** The entry pushed for a file once its blob is made. *)
Definition entry_of (f : GitHubFile) : tree_entry :=
  mkEntry (path f) (js "100644") (js "blob") (Bid (content f)).

Definition overlay (old : gmap jsstring jsstring) (files : list GitHubFile)
  : gmap jsstring jsstring :=
  foldl (fun m f => <[path f := content f]> m) old files.

Definition differs (old : gmap jsstring jsstring) (f : GitHubFile) : bool :=
  bool_decide (old !! path f ≠ Some (content f)).

(** The commit that a branch of a repository points to. *)
Definition branch_head (w : net) (k : jsstring * jsstring) (branch : jsstring)
  : option nat :=
  match host w !! k with
  | Some rp => refs rp !! branch
  | None => None
  end.

(** The number of paths at which the tree of commit [c0] in [w0] and the
    tree of commit [c1] in [w1] differ, in repository [k]. *)
Definition entries_changed (w0 : net) (c0 : nat) (w1 : net) (c1 : nat)
           (k : jsstring * jsstring) : option nat :=
  match host w0 !! k, host w1 !! k with
  | Some rp0, Some rp1 =>
      match commit_files rp0 c0, commit_files rp1 c1 with
      | Some old, Some new => Some (size (changed_paths new old))
      | _, _ => None
      end
  | _, _ => None
  end.

End GitHub.

(** ** The run coordinator ([handleScheduled] and its helpers) *)

Module Coordinator.

Import Agent.

(** [ExecutionSummary] *)
Record ExecutionSummary := mkSummary {
  timestamp : jsstring;
  results : list AgentResult;
  totalCost : float;
  prUrl : option jsstring;
  issuesCreated : list jsstring
}.

(** The bindings of [Env] that the run reads. *)
Record Env := mkEnv {
  GITHUB_TOKEN : option jsstring;
  SLACK_WEBHOOK_URL : option jsstring;
  ENVIRONMENT : jsstring
}.

(** The constant [TEAMS]. *)
Definition TEAMS_config : list TeamConfig :=
  [ mkTeam (js "nexus") (js "Nexus") (js "/home/chris/nexus")
      (js "/home/chris/nexus/docs") (js "_Waiting for Nexus response_");
    mkTeam (js "de") (js "DE (Distributed Electrons)")
      (js "/home/chris/distributed-electrons")
      (js "/home/chris/distributed-electrons/docs")
      (js "_Waiting for DE response_");
    mkTeam (js "mnemo") (js "Mnemo") (js "/home/chris/mnemo")
      (js "/home/chris/mnemo/docs") (js "_Waiting for Mnemo response_") ].

(** The texts that the coordinator renders from templates, each with the
    values spliced into it. *)
Inductive document : Type :=
| FailureIssueTitle (team_display date : jsstring)
| FailureIssueBody (team_display time : jsstring) (result : AgentResult)
| CommitMessage (team_display time : jsstring) (result : AgentResult)
| PullRequestTitle (date : jsstring)
| PullRequestBody (teams : list (option jsstring * AgentResult))
    (total : float) (time : jsstring).

(** [GitHubPR] *)
Record GitHubPR := mkPR {
  pr_title : document;
  pr_body : document;
  pr_head : jsstring;
  pr_base : jsstring
}.

(** The console, kept to the warning of [sendCostAlert] and the errors that
    the coordinator catches. *)
Inductive console_entry : Type :=
| WarnCostThreshold (totalCost : float)
| ErrorLoadCache (e : exn)
| ErrorFatalTeam (team_name msg : jsstring)
| ErrorCreateIssue (e : exn)
| ErrorCommit (team_name : jsstring) (e : exn)
| ErrorCreatePR (e : exn)
| ErrorSlack (e : exn).

(** The literal that the [catch] of the team loop pushes. *)
Definition failed_result (t : TeamConfig) (errorMsg : jsstring)
  : AgentResult :=
  mkResult (name t) false 0 0 [] 0 false false None [errorMsg] 0%float.

(** [results.reduce((sum, r) => sum + r.costEstimate, 0)] *)
Definition sum_costs (rs : list AgentResult) : float :=
  fold_left (fun sum r => PrimFloat.add sum (costEstimate r)) rs 0%float.

(** [totalCost > 50] *)
Definition over_threshold (totalCost : float) : bool :=
  PrimFloat.ltb 50%float totalCost.

Definition cost_warnings (l : list console_entry) : list float :=
  omap (fun e => match e with WarnCostThreshold c => Some c | _ => None end) l.

Section Run.

Variable W : Type.
(** The team list that the loops run over. *)
Variable TEAMS : list TeamConfig.
(** [new TeamAgent(team, mnemo, github)] followed by [agent.execute()]. *)
Variable agent_execute :
  TeamConfig -> W -> outcome (AgentResult * TeamAgent) * W.
Variable mnemo_loadTeamDocs : W -> outcome unit * W.
(** [mnemo.getStats()]: the total cost and the tokens used. *)
Variable mnemo_getStats : W -> outcome (float * float) * W.
Variable github_createIssue :
  jsstring -> jsstring -> document -> document -> list jsstring ->
  W -> outcome jsstring * W.
Variable github_branchExists :
  jsstring -> jsstring -> jsstring -> W -> outcome bool * W.
Variable github_createBranch :
  jsstring -> jsstring -> jsstring -> W -> outcome jsstring * W.
Variable github_createCommit :
  jsstring -> jsstring -> jsstring -> document ->
  list (jsstring * jsstring) -> W -> outcome jsstring * W.
Variable github_createPR :
  jsstring -> jsstring -> GitHubPR -> W -> outcome jsstring * W.
(** The POST to the Slack webhook. *)
Variable slack_post : jsstring -> float -> W -> outcome unit * W.
(** [new Date().toISOString()] and its date part. *)
Variable now_iso : W -> jsstring.
Variable today : W -> jsstring.

(** The world and the arrays that [handleScheduled] fills. *)
Record run_state := mkRun {
  ext : W;
  out : list console_entry;
  run_results : list AgentResult;
  run_agents : list TeamAgent;
  run_issues : list jsstring
}.

Definition start (w : W) : run_state := mkRun w [] [] [] [].

Definition call {A} (f : W -> outcome A * W) : M run_state A :=
  fun s =>
    let '(o, w) := f (ext s) in
    (o, mkRun w (out s) (run_results s) (run_agents s) (run_issues s)).

Definition read {A} (f : W -> A) : M run_state A :=
  fun s => (Ok (f (ext s)), s).

Definition console_log (e : console_entry) : M run_state unit :=
  modify (fun s => mkRun (ext s) (out s ++ [e]) (run_results s)
                     (run_agents s) (run_issues s)).

Definition push_result (r : AgentResult) : M run_state unit :=
  modify (fun s => mkRun (ext s) (out s) (run_results s ++ [r])
                     (run_agents s) (run_issues s)).

Definition push_agent (a : TeamAgent) : M run_state unit :=
  modify (fun s => mkRun (ext s) (out s) (run_results s)
                     (run_agents s ++ [a]) (run_issues s)).

Definition push_issue (url : jsstring) : M run_state unit :=
  modify (fun s => mkRun (ext s) (out s) (run_results s)
                     (run_agents s) (run_issues s ++ [url])).

Local Open Scope eff_scope.

Definition createFailureIssue (t : TeamConfig) (result : AgentResult)
  : M run_state jsstring :=
  date <- read today ;;
  time <- read now_iso ;;
  try_catch
    (call (github_createIssue (js "CyberBrown") (name t)
             (FailureIssueTitle (displayName t) date)
             (FailureIssueBody (displayName t) time result)
             [js "autonomous-agent"; js "failure"]))
    (fun error =>
       console_log (ErrorCreateIssue error) ;;
       ret (js "Failed to create issue")).

(** The body of [for (const team of TEAMS)]. *)
Definition process_team (t : TeamConfig) : M run_state unit :=
  try_catch
    (ra <- call (agent_execute t) ;;
     push_result (fst ra) ;;
     push_agent (snd ra) ;;
     if negb (success (fst ra)) && Nat.ltb 0 (length (errors (fst ra))) then
       issueUrl <- createFailureIssue t (fst ra) ;;
       push_issue issueUrl
     else ret tt)
    (fun error =>
       console_log (ErrorFatalTeam (name t) (message_of error)) ;;
       push_result (failed_result t (message_of error))).

Definition find_team (team_name : jsstring) : option TeamConfig :=
  List.find (fun t => bool_decide (name t = team_name)) TEAMS.

(** The body of the commit loop of [createPullRequest]. *)
Definition commit_team (agents : list TeamAgent) (branchName : jsstring)
           (result : AgentResult) : M run_state unit :=
  match find_team (team result) with
  | None => ret tt
  | Some t =>
      match List.find
              (fun a => bool_decide (name (agent_team a) = team result))
              agents with
      | None => ret tt
      | Some a =>
          try_catch
            (branchExists <- call (github_branchExists (js "CyberBrown")
                                     (name t) branchName) ;;
             (if negb branchExists
              then call (github_createBranch (js "CyberBrown") (name t)
                           branchName) ;; ret tt
              else ret tt) ;;
             time <- read now_iso ;;
             call (github_createCommit (js "CyberBrown") (name t) branchName
                     (CommitMessage (displayName t) time result)
                     (getFileChanges a)) ;;
             ret tt)
            (fun error => console_log (ErrorCommit (name t) error))
      end
  end.

Definition createPullRequest (rs : list AgentResult)
           (agents : list TeamAgent) : M run_state (option jsstring) :=
  date <- read today ;;
  let branchName := js "autonomous-agent/" ++ date in
  let successfulTeams :=
    List.filter (fun r => success r && Nat.ltb 0 (length (docsUpdated r)))
      rs in
  match successfulTeams with
  | [] => ret None
  | first :: _ =>
      for_each successfulTeams (commit_team agents branchName) ;;
      match find_team (team first) with
      | None => ret None
      | Some firstTeam =>
          try_catch
            (time <- read now_iso ;;
             date' <- read today ;;
             url <- call (github_createPR (js "CyberBrown") (name firstTeam)
                      (mkPR (PullRequestTitle date')
                         (PullRequestBody
                            (map (fun r =>
                                    (option_map displayName
                                       (find_team (team r)), r))
                                 successfulTeams)
                            (sum_costs rs) time)
                         branchName (js "main"))) ;;
             ret (Some url))
            (fun error => console_log (ErrorCreatePR error) ;; ret None)
      end
  end.

Definition sendCostAlert (env : Env) (cost : float) : M run_state unit :=
  console_log (WarnCostThreshold cost) ;;
  match SLACK_WEBHOOK_URL env with
  | Some url =>
      if truthy url then
        try_catch (call (slack_post url cost))
                  (fun error => console_log (ErrorSlack error))
      else ret tt
  | None => ret tt
  end.

Definition handleScheduled (env : Env) : M run_state ExecutionSummary :=
  try_catch (call mnemo_loadTeamDocs)
            (fun error => console_log (ErrorLoadCache error)) ;;
  for_each TEAMS process_team ;;
  s1 <- get ;;
  url <- try_catch (createPullRequest (run_results s1) (run_agents s1))
                   (fun error => console_log (ErrorCreatePR error) ;;
                                 ret None) ;;
  s2 <- get ;;
  let total := sum_costs (run_results s2) in
  (if over_threshold total then sendCostAlert env total else ret tt) ;;
  mnemoStats <- call mnemo_getStats ;;
  time <- read now_iso ;;
  s3 <- get ;;
  ret (mkSummary time (run_results s3) total url (run_issues s3)).

(** A property of the console and of the arrays of the run. *)
Definition on_local
           (P : list console_entry -> list AgentResult -> list TeamAgent ->
                list jsstring -> Prop) : run_state -> Prop :=
  fun s => P (out s) (run_results s) (run_agents s) (run_issues s).

End Run.

Arguments mkRun {W} _ _ _ _ _.
Arguments ext {W} _.
Arguments out {W} _.
Arguments run_results {W} _.
Arguments run_agents {W} _.
Arguments run_issues {W} _.

(** The entry of a team in [results], from what its pipeline did. *)
Definition team_entry (t : TeamConfig)
           (o : outcome (AgentResult * TeamAgent)) : AgentResult :=
  match o with
  | Ok (r, _) => r
  | Throw e => failed_result t (message_of e)
  end.

(** The pipeline returned an unsuccessful result with errors: the case in
    which the team loop opens an issue. *)
Definition needs_issue (o : outcome (AgentResult * TeamAgent)) : bool :=
  match o with
  | Ok (r, _) => negb (success r) && Nat.ltb 0 (length (errors r))
  | Throw _ => false
  end.

End Coordinator.

(** ** Sample ledgers *)

Module Samples.

Import Ledger.

(** A ledger entry as the board has them: header, From/To line, status,
    question and answer. *)
Definition entry (questionId title from to status answer : jsstring)
  : jsstring :=
  js "### [" ++ questionId ++ js "] " ++ title ++ nl ++ nl
    ++ js "**From**: " ++ from ++ js " " ++ arrow ++ js " **To**: " ++ to ++ nl
    ++ js "**Status**: " ++ status ++ nl
    ++ js "**Question**: " ++ title ++ nl
    ++ js "**Answer**: " ++ answer ++ nl ++ nl.

Definition preamble : jsstring :=
  js "# Cross-Team Q&A Board" ++ nl ++ nl.

Definition waiting_de : jsstring := js "_Waiting for DE response_".

(** One open question for [de]. *)
Definition ledger_one : jsstring :=
  preamble
    ++ entry (js "Q-001") (js "How do we deploy?") (js "nexus") (js "de")
         status_open waiting_de.

(** Two open questions for [de]. *)
Definition ledger_two : jsstring :=
  ledger_one
    ++ entry (js "Q-002") (js "Which queue?") (js "mnemo") (js "de")
         status_open waiting_de.

Definition date0 : jsstring := js "2025-12-06".
Definition de_display : jsstring := js "DE (Distributed Electrons)".

(** An answer that mentions a price. *)
Definition priced_answer : jsstring := js "It costs $1 per call.".

(** A block whose header line holds no digit. *)
Definition ledger_plain : jsstring :=
  js "### [Q-007] Deploy keys" ++ nl
    ++ js "**From**: Nexus " ++ arrow ++ js " **To**: DE" ++ nl.

(** The team [de]. *)
Definition team_de : Agent.TeamConfig :=
  Agent.mkTeam (js "de") de_display (js "/home/chris/distributed-electrons")
    (js "/home/chris/distributed-electrons/docs") waiting_de.

(** A world without state in which the ledger is [ledger_two] and every
    other file is empty, the answering service always answers
    [No updates needed], and the date is fixed. *)
Definition calm_query (p : Agent.prompt) (w : unit) : outcome jsstring * unit :=
  (Ok (js "No updates needed"), w).

Definition calm_getFile (owner rp path : jsstring) (w : unit)
  : outcome jsstring * unit :=
  (Ok (if bool_decide (path = Agent.qaPath) then ledger_two else []), w).

Definition calm_today (w : unit) : jsstring := date0.

(** The answering service is down. *)
Definition down_query (p : Agent.prompt) (w : unit) : outcome jsstring * unit :=
  (Throw (Error (js "Failed to query Mnemo: 503")), w).

(** The repository host is down. *)
Definition down_getFile (owner rp path : jsstring) (w : unit)
  : outcome jsstring * unit :=
  (Throw (Error (js "GitHub API error: 503")), w).

Import GitHub.

(** A repository with one commit, to which [main] and the branch of the
    day point. *)
Definition owner0 : jsstring := js "CyberBrown".
Definition branch0 : jsstring := js "autonomous-agent/2025-12-06".

Definition repo0 : repo :=
  mkRepo {[ js "hello" ]}
    (<[1%nat := Commit 0 [] (js "init")]>
       (<[0%nat := Tree {[ js "README.md" := js "hello" ]}]> ∅))
    (<[branch0 := 1%nat]> (<[js "main" := 1%nat]> ∅)).

Definition net0 : net :=
  mkNet {[ (owner0, js "de") := repo0 ]} [] [].

Definition same_readme : GitHubFile := mkFile (js "README.md") (js "hello").
Definition new_insights : GitHubFile :=
  mkFile (js "docs/QA-INSIGHTS.md") (js "# Q&A Insights").

(** Two runs of the commit builder on that repository. *)
Definition run_two : outcome sha * net :=
  createCommit owner0 (js "de") branch0 (js "updates")
    [same_readme; new_insights] net0.

Definition run_same : outcome sha * net :=
  createCommit owner0 (js "de") branch0 (js "updates") [same_readme] net0.

(** The run with two files when the answer to one request is lost: the
    fifth, which makes the tree, and the seventh, which moves the branch. *)
Definition lost : exn := Error (js "fetch failed").

Definition run_lost (nth : nat) : outcome sha * net :=
  createCommit owner0 (js "de") branch0 (js "updates")
    [same_readme; new_insights]
    (mkNet (host net0) (repeat None (nth - 1) ++ [Some (Unanswered lost)]) []).

End Samples.

(** ** Reading a file from the host ([GitHubClient.getFile]) *)

Module Contents.
Import JS Regex Eff.

Section Client.

(** The host, as the contents request sees it. *)
Variable W : Type.
(** [this.fetch(`/repos/${owner}/${repo}/contents/${path}?ref=${branch}`)],
    by the field [content] of the answer, if it has one; it throws as
    [fetch] does. *)
Variable fetch_contents :
  jsstring -> jsstring -> jsstring -> jsstring ->
  W -> outcome (option jsstring) * W.
(** [atob], which throws on a text that is not base64. *)
Variable atob : jsstring -> outcome jsstring.

(** The host and the error console of the client. *)
Record client := mkClient {
  remote : W;
  errlog : list (jsstring * exn)
}.

Definition send_request (owner rp path branch : jsstring)
  : M client (option jsstring) :=
  fun s =>
    let '(o, w) := fetch_contents owner rp path branch (remote s) in
    (o, mkClient w (errlog s)).

(** [console.error(`Failed to get file ${path}:`, error)] *)
Definition console_error (path : jsstring) (error : exn) : M client unit :=
  modify (fun s => mkClient (remote s) (errlog s ++ [(path, error)])).

Definition decode (text : jsstring) : M client jsstring :=
  fun s => (atob text, s).

Local Open Scope eff_scope.

Definition getFile (owner rp path branch : jsstring) : M client jsstring :=
  try_catch
    (response_content <- send_request owner rp path branch ;;
     match response_content with
     | Some c =>
         (* [atob(response.content.replace(/\n/g, ''))] *)
         if truthy c then decode (replace_all (Lit nl) 0 [] c) else ret []
     | None => ret []
     end)
    (fun error => console_error path error ;; ret []).

(** [github.getFile(owner, repo, path)], as the agent calls it: the branch
    is [main]. *)
Definition getFile_main (owner rp path : jsstring)
  : client -> outcome jsstring * client :=
  getFile owner rp path (js "main").

End Client.

Arguments mkClient {W} _ _.
Arguments remote {W} _.
Arguments errlog {W} _.

End Contents.

(** ** What the later properties are stated with *)

(** *** Languages of patterns and positions in strings *)

Module RegexSpec.
Import JS Regex Eff.

(** The texts that a pattern matches, whatever the order in which the
    matcher tries them. *)
Inductive matches : regex -> jsstring -> Prop :=
| matches_lit l : matches (Lit l) l
| matches_cls (p : N -> bool) x : p x = true -> matches (Cls p) [x]
| matches_star g (p : N -> bool) m :
    forallb p m = true -> matches (Star g p) m
| matches_seq r1 r2 m1 m2 :
    matches r1 m1 -> matches r2 m2 -> matches (Seq r1 r2) (m1 ++ m2)
| matches_alt_l r1 r2 m : matches r1 m -> matches (Alt r1 r2) m
| matches_alt_r r1 r2 m : matches r2 m -> matches (Alt r1 r2) m
| matches_group n r m : matches r m -> matches (Group n r) m.

(** Every numbered group of [r] can only hold a text in [P] of its
    number. *)
Fixpoint groups_hold (P : nat -> jsstring -> Prop) (r : regex) : Prop :=
  match r with
  | Seq r1 r2 | Alt r1 r2 => groups_hold P r1 /\ groups_hold P r2
  | Group n r1 => groups_hold P r1 /\ (forall m, matches r1 m -> P n m)
  | Lit _ | Cls _ | Star _ _ => True
  end.

Definition captures_hold (P : nat -> jsstring -> Prop) (c : captures)
  : Prop :=
  Forall (fun nt => P (fst nt) (snd nt)) c.

(** [String.prototype.indexOf]: the first index at which [l] occurs in
    [s]. *)
Fixpoint indexOf (s l : jsstring) : option nat :=
  if startsWith s l then Some 0%nat
  else match s with
       | [] => None
       | _ :: s' => option_map S (indexOf s' l)
       end.

(** The rest of [s] after its longest prefix in the class [p]. *)
Fixpoint skip_while (p : N -> bool) (s : jsstring) : jsstring :=
  match s with
  | x :: s' => if p x then skip_while p s' else s
  | [] => []
  end.

(** No [$] in a replacement text. *)
Definition plain (s : jsstring) : bool :=
  forallb (fun c => negb (c =? 36)) s.

End RegexSpec.

Module LedgerSpec.
Import JS Regex Eff.
Import Ledger RegexSpec.

(** The header that the patterns of [updateQABoard] start with. *)
Definition header_of (questionId : jsstring) : jsstring :=
  js "### [" ++ questionId ++ js "]".

Definition answer_label : jsstring := js "**Answer**:".
Definition status_label : jsstring := js "**Status**:".

(** The rest of [s] after [_Waiting[^\n]*] at its start. *)
Definition after_waiting (s : jsstring) : option jsstring :=
  match strip_prefix (js "_Waiting") s with
  | Some s' => Some (skip_while not_newline s')
  | None => None
  end.

(** The rest of [s] after the status text of an open question at its
    start. *)
Definition after_open (s : jsstring) : option jsstring :=
  strip_prefix status_open s.

(** [s] starts with [label], white space and the tail of the pattern: the
    rest after the tail. *)
Definition anchored (label : jsstring) (T : jsstring -> option jsstring)
           (s : jsstring) : option jsstring :=
  match strip_prefix label s with
  | Some y => T (trimStart y)
  | None => None
  end.

(** The first offset in [s] at which [label], white space and the tail
    follow, with the rest after the tail. *)
Fixpoint first_anchor (label : jsstring) (T : jsstring -> option jsstring)
         (s : jsstring) : option (nat * jsstring) :=
  match anchored label T s with
  | Some post => Some (0%nat, post)
  | None =>
      match s with
      | [] => None
      | _ :: s' =>
          match first_anchor label T s' with
          | Some (j, post) => Some (S j, post)
          | None => None
          end
      end
  end.

(** What the answer replacement puts after the label. *)
Definition answer_text (answer timestamp displayName : jsstring) : jsstring :=
  js " " ++ answer ++ nl ++ nl ++ js "**Answered**: " ++ timestamp
    ++ js " by " ++ displayName ++ js " (Autonomous Agent)".

(** The status of a question object is unset or one of the four glyphs. *)
Definition status_is_glyph (q : QAQuestion) : Prop :=
  status q = None
  \/ exists g, In g [glyph_open; glyph_answered; glyph_closed; glyph_blocked]
               /\ status q = Some g.

(** A word in lower case: one or more code units of [\w], none of them an
    ASCII capital. *)
Definition lower_word (a : jsstring) : Prop :=
  a <> []
  /\ forallb (fun c => is_word c && negb ((65 <=? c) && (c <=? 90))) a = true.

(** A name that was read is empty or a word in lower case. *)
Definition name_read (o : option jsstring) : Prop :=
  match o with
  | Some a => a = [] \/ lower_word a
  | None => True
  end.

(** The answer body, if there is one, is an answer: not the placeholder,
    and trimmed at both ends. *)
Definition answer_is_given (q : QAQuestion) : Prop :=
  match answerBody q with
  | Some a =>
      startsWith a (js "_Waiting") = false
      /\ match a with x :: _ => is_space x = false | [] => True end
      /\ match rev a with x :: _ => is_space x = false | [] => True end
  | None => True
  end.

(** The parts of the first entry of [Samples.ledger_two] around its status
    and its answer. *)
Definition lead_001 : jsstring :=
  js " How do we deploy?" ++ nl ++ nl
    ++ js "**From**: nexus " ++ arrow ++ js " **To**: de" ++ nl.

Definition between_001 : jsstring :=
  nl ++ js "**Question**: How do we deploy?" ++ nl.

Definition rest_001 : jsstring :=
  nl ++ nl
    ++ Samples.entry (js "Q-002") (js "Which queue?") (js "mnemo") (js "de")
         status_open Samples.waiting_de.

End LedgerSpec.

(** *** The blocks of a ledger *)

Module BlockSpec.
Import JS Regex Eff.
Import Ledger RegexSpec.

(** A block of the ledger as it is written: the header
    [### [Q-<number>]], with the white space [gap] after the hashes, and
    the [text] that follows the header, up to the next one. *)
Record block := mkBlock {
  gap : jsstring;
  number : jsstring;
  text : jsstring
}.

Definition header (b : block) : jsstring :=
  js "###" ++ gap b ++ js "[Q-" ++ number b ++ js "]".

(** The header pattern matches nowhere in [s]. *)
Definition no_header (s : jsstring) : bool :=
  match search header_re s with Some _ => false | None => true end.

(** The gap of [b] is white space, its number is digits, neither is empty,
    and no header starts in its text. *)
Definition is_block (b : block) : bool :=
  truthy (gap b) && forallb is_space (gap b)
  && truthy (number b) && forallb is_digit (number b)
  && no_header (text b).

(** The ledger that holds [pre] and then the blocks in turn. *)
Definition ledger_text (pre : jsstring) (blocks : list block) : jsstring :=
  pre ++ flat_map (fun b => header b ++ text b) blocks.

(** What follows a block in a ledger: nothing, or the hashes of the next
    header. *)
Definition at_header (rest : jsstring) : Prop :=
  rest = [] \/ exists rest', rest = js "###" ++ rest'.

(** The longest prefix of [s] in the class [p]. *)
Fixpoint run_of (p : N -> bool) (s : jsstring) : jsstring :=
  match s with
  | x :: s' => if p x then x :: run_of p s' else []
  | [] => []
  end.

(** The first run of digits in [s]; empty when [s] holds no digit. *)
Fixpoint first_digits (s : jsstring) : jsstring :=
  match s with
  | [] => []
  | c :: s' => if is_digit c then run_of is_digit s else first_digits s'
  end.

(** The id read from the rest of a header line. *)
Definition id_of_title (t : jsstring) : jsstring :=
  js "Q-" ++ match first_digits t with [] => js "000" | d => d end.

(** The groups that every match of a pattern fills: those that are not
    under an alternative. *)
Fixpoint sure_groups (r : regex) : list nat :=
  match r with
  | Lit _ | Cls _ | Star _ _ | Alt _ _ => []
  | Seq r1 r2 => sure_groups r1 ++ sure_groups r2
  | Group n r1 => n :: sure_groups r1
  end.

(** A line that names both parties: it starts with [**From**:] and the
    From/To pattern matches in it. *)
Definition names_line (line : jsstring) : bool :=
  startsWith line (js "**From**:")
  && match search from_to_re line with Some _ => true | None => false end.

(** The text of a block has such a line. *)
Definition has_names_line (t : jsstring) : bool :=
  existsb names_line (block_lines t).

(** The question object names both parties. *)
Definition has_names (q : QAQuestion) : bool :=
  opt_truthy (askedTo q) && opt_truthy (askedBy q).

(** Three blocks of a ledger: a question from [nexus] to [de], a block
    without a From line, and a question from [mnemo] to [de] whose title
    holds a number. *)
Definition block_a : block :=
  mkBlock (js " ") (js "001")
    (js " How do we deploy?" ++ nl ++ nl
       ++ js "**From**: nexus " ++ arrow ++ js " **To**: de" ++ nl
       ++ js "**Status**: " ++ status_open ++ nl ++ nl).

Definition block_b : block :=
  mkBlock (js " ") (js "002")
    (js " Notes in progress" ++ nl ++ nl
       ++ js "**Status**: " ++ status_open ++ nl ++ nl).

Definition block_c : block :=
  mkBlock (js "  ") (js "003")
    (js " Which of the 2 queues?" ++ nl ++ nl
       ++ js "**From**: mnemo " ++ arrow ++ js " **To**: de" ++ nl ++ nl).

Definition board_head : jsstring := js "# Cross-Team Q&A Board" ++ nl ++ nl.

(** Two ledgers whose one header has no number: one with an empty
    marker, one without a marker. *)
Definition unnumbered : jsstring :=
  js "### [Q-] Deploy keys" ++ nl ++ nl
    ++ js "**From**: nexus " ++ arrow ++ js " **To**: de" ++ nl.

Definition unmarked : jsstring :=
  js "### Deploy keys" ++ nl ++ nl
    ++ js "**From**: nexus " ++ arrow ++ js " **To**: de" ++ nl.

End BlockSpec.

(** *** Shapes of an agent after a run *)

Module AgentSpec.
Import JS Regex Eff.
Import Ledger Agent.

(** No question is counted as answered or reviewed, and no pending edit is
    of a file other than the MCP log. *)
Definition answers_nothing (a : TeamAgent) : Prop :=
  questionsAnswered (result a) = 0%nat
  /\ answersReviewed (result a) = 0%nat
  /\ forall p, In p (map fst (fileChanges a)) -> p = mcpPath.

(** The two flags of the result say what [docsUpdated] lists. *)
Definition flags_agree (a : TeamAgent) : Prop :=
  (actionPlanUpdated (result a) = true
   <-> In actionPlanPath (docsUpdated (result a)))
  /\ (readmeUpdated (result a) = true
      <-> In readmePath (docsUpdated (result a))).

(** The estimates that a run can end with: each of the last three phases
    adds its charge or nothing. *)
Definition charge (c : float) (l : list float) : list float :=
  flat_map (fun x => [x; PrimFloat.add x c]) l.

Definition possible_costs : list float :=
  charge cost_002 (charge cost_003 (charge cost_003 [0%float])).

(** [0.08], as the nearest binary64 value. *)
Definition cost_008 : float := 0x1.47ae147ae147bp-4%float.

(** The documents that a run can list. *)
Definition lists_known (a : TeamAgent) : Prop :=
  forall p, In p (docsUpdated (result a)) ->
            In p [mcpPath; actionPlanPath; readmePath].

(** What [docsUpdated] lists at the end of a run, by the pending edits and
    the two flags: the paths of the pending edits, then the action plan
    and the README if their flags are set. *)
Definition listed (a : TeamAgent) : list jsstring :=
  map fst (fileChanges a)
  ++ (if actionPlanUpdated (result a) then [actionPlanPath] else [])
  ++ (if readmeUpdated (result a) then [readmePath] else []).

(** The pending edits are none or one of the MCP log, and [docsUpdated]
    lists them and what the flags say. *)
Definition lists_edits_and_flags (a : TeamAgent) : Prop :=
  docsUpdated (result a) = listed a
  /\ (map fst (fileChanges a) = [] \/ map fst (fileChanges a) = [mcpPath]).

End AgentSpec.

(** *** Faults and branches *)

Module GitHubSpec.
Import JS Regex Eff.
Import GitHub.

(** What goes wrong with the next request, on its way or with its
    answer. *)
Definition fault_next (w : net) : option exn :=
  match faults w with
  | Some (Unsent e) :: _ | Some (Unanswered e) :: _ => Some e
  | _ => None
  end.

(** The next request is answered and the branch is there. *)
Definition branch_seen (w : net) (owner rp branch : jsstring) : bool :=
  match fault_next w, branch_head w (owner, rp) branch with
  | None, Some _ => true
  | _, _ => false
  end.

(** A branch of the sample repository that does not exist. *)
Definition branch1 : jsstring := js "autonomous-agent/2025-12-07".

End GitHubSpec.

(** *** The team loop *)

Module CoordinatorSpec.
Import JS Regex Eff.
Import Agent Coordinator.

Section Loop.
Variable W : Type.
Variable agent_execute :
  TeamConfig -> W -> outcome (AgentResult * TeamAgent) * W.
Variable github_createIssue :
  jsstring -> jsstring -> document -> document -> list jsstring ->
  W -> outcome jsstring * W.
Variable now_iso : W -> jsstring.
Variable today : W -> jsstring.

(** What the pipeline of each team does in the world in which the team
    loop starts it. *)
Fixpoint loop_outcomes (ts : list TeamConfig) (s : run_state W)
  : list (outcome (AgentResult * TeamAgent)) :=
  match ts with
  | [] => []
  | t :: ts' =>
      fst (agent_execute t (ext s))
        :: loop_outcomes ts'
             (snd (process_team W agent_execute github_createIssue now_iso
                     today t s))
  end.

(** What the turn of a team adds to [issuesCreated] when its pipeline
    starts in the world [w]: nothing, unless the pipeline returns a result
    without success and with errors; then the address of the issue that is
    opened, or the text that [createFailureIssue] returns when opening it
    fails. *)
Definition issue_of (t : TeamConfig) (w : W) : list jsstring :=
  match agent_execute t w with
  | (Ok (r, _), w1) =>
      if negb (success r) && Nat.ltb 0 (length (errors r)) then
        match github_createIssue (js "CyberBrown") (name t)
                (FailureIssueTitle (displayName t) (today w1))
                (FailureIssueBody (displayName t) (now_iso w1) r)
                [js "autonomous-agent"; js "failure"] w1 with
        | (Ok url, _) => [url]
        | (Throw _, _) => [js "Failed to create issue"]
        end
      else []
  | (Throw _, _) => []
  end.

Fixpoint loop_issues (ts : list TeamConfig) (s : run_state W)
  : list jsstring :=
  match ts with
  | [] => []
  | t :: ts' =>
      issue_of t (ext s)
        ++ loop_issues ts'
             (snd (process_team W agent_execute github_createIssue now_iso
                     today t s))
  end.

End Loop.

(** The agent that the team loop keeps for a pipeline that returned. *)
Definition returned_agent (o : outcome (AgentResult * TeamAgent))
  : option TeamAgent :=
  match o with
  | Ok (_, a) => Some a
  | Throw _ => None
  end.

(** The teams whose changes [createPullRequest] commits. *)
Definition has_changes (r : AgentResult) : bool :=
  success r && Nat.ltb 0 (length (docsUpdated r)).

(** What [createPullRequest] leaves as it was: the arrays of the run and
    the cost warnings. *)
Definition arrays_are (rs0 : list AgentResult) (ags : list TeamAgent)
           (is0 : list jsstring) (cw : list float)
  : list console_entry -> list AgentResult -> list TeamAgent ->
    list jsstring -> Prop :=
  fun o r a i => r = rs0 /\ a = ags /\ i = is0 /\ cost_warnings o = cw.

(** A world without state in which every call of the coordinator
    returns. *)
Definition idle_unit (w : unit) : outcome unit * unit := (Ok tt, w).

Definition idle_stats (w : unit) : outcome (float * float) * unit :=
  (Ok (0%float, 0%float), w).

Definition idle_issue (owner rp : jsstring) (title body : document)
           (labels : list jsstring) (w : unit) : outcome jsstring * unit :=
  (Ok (js "https://github.com/CyberBrown/" ++ rp ++ js "/issues/1"), w).

Definition idle_branchExists (owner rp branch : jsstring) (w : unit)
  : outcome bool * unit := (Ok true, w).

Definition idle_createBranch (owner rp branch : jsstring) (w : unit)
  : outcome jsstring * unit := (Ok (js "c0ffee"), w).

Definition idle_createCommit (owner rp branch : jsstring) (message : document)
           (files : list (jsstring * jsstring)) (w : unit)
  : outcome jsstring * unit := (Ok (js "c0ffee"), w).

Definition idle_createPR (owner rp : jsstring) (pr : GitHubPR) (w : unit)
  : outcome jsstring * unit :=
  (Ok (js "https://github.com/CyberBrown/" ++ rp ++ js "/pull/1"), w).

Definition idle_slack (url : jsstring) (c : float) (w : unit)
  : outcome unit * unit := (Ok tt, w).

Definition idle_now (w : unit) : jsstring := js "2025-12-06T03:00:00.000Z".
Definition idle_today (w : unit) : jsstring := js "2025-12-06".

Definition env0 : Env := mkEnv None None (js "production").

(** The run of [handleScheduled] over the three teams in that world, with
    the pipelines [agent_execute]. *)
Definition idle_run
           (agent_execute :
              TeamConfig -> unit -> outcome (AgentResult * TeamAgent) * unit)
  : outcome ExecutionSummary * run_state unit :=
  handleScheduled unit TEAMS_config agent_execute idle_unit idle_stats
    idle_issue idle_branchExists idle_createBranch idle_createCommit
    idle_createPR idle_slack idle_now idle_today env0 (start unit tt).

(** Pipelines that return a successful result without changes and with
    the estimate [c], but for the team [de], whose pipeline does [o]. *)
Definition calm_result (t : TeamConfig) (c : float) : AgentResult :=
  mkResult (name t) true 0 0 [] 0 false false None [] c.

Definition but_de (c : float) (o : outcome AgentResult) (t : TeamConfig)
           (w : unit) : outcome (AgentResult * TeamAgent) * unit :=
  if bool_decide (name t = js "de") then
    (match o with
     | Ok r => Ok (r, new_TeamAgent t)
     | Throw e => Throw e
     end, w)
  else (Ok (calm_result t c, new_TeamAgent t), w).

(** The result of a pipeline of [de] that returns with success and the
    estimate [c], and the one of a pipeline that a phase has aborted. *)
Definition de_returned (c : float) : AgentResult :=
  mkResult (js "de") true 0 0 [] 0 false false None [] c.

Definition de_aborted : AgentResult :=
  mkResult (js "de") false 0 0 [] 0 false false None
    [js "Failed to load Q&A board: Error: GitHub API error: 503"] 0%float.

End CoordinatorSpec.

(** ** The coordinator over the client of the repository host *)

Module Wired.
Import JS Regex Eff.
Import Agent Coordinator GitHub.

Section Wired.

(** How the name of an object and a rendered text are written. *)
Variable sha_text : sha -> jsstring.
Variable render : document -> jsstring.

Definition as_text (r : outcome sha * net) : outcome jsstring * net :=
  match r with
  | (Ok s, w) => (Ok (sha_text s), w)
  | (Throw e, w) => (Throw e, w)
  end.

(** The entries of [getFileChanges()] as [GitHubFile] objects. *)
Definition as_files (l : list (jsstring * jsstring)) : list GitHubFile :=
  map (fun pc => mkFile (fst pc) (snd pc)) l.

Definition client_branchExists (owner rp branch : jsstring)
  : net -> outcome bool * net :=
  branchExists owner rp branch.

Definition client_createBranch (owner rp branch : jsstring)
  : net -> outcome jsstring * net :=
  fun w => as_text (createBranch owner rp branch w).

Definition client_createCommit (owner rp branch : jsstring)
           (message : document) (files : list (jsstring * jsstring))
  : net -> outcome jsstring * net :=
  fun w => as_text (createCommit owner rp branch (render message)
                      (as_files files) w).

End Wired.

(** The request writes the ref of [main]. *)
Definition writes_main (rq : request) : bool :=
  match rq with
  | PostRef _ _ b _ | PatchRef _ _ b _ => bool_decide (b = js "main")
  | _ => false
  end.

(** In repository [k] the branch [main] is at [c], or is not there. *)
Definition main_at (k : jsstring * jsstring) (c : option nat) (w : net)
  : Prop :=
  branch_head w k (js "main") = c.

(** A result with a document updated, and the agent it came from. *)
Definition changed_result : AgentResult :=
  push_doc readmePath (set_success true (result (new_TeamAgent Samples.team_de))).

(** A pull request call that moves no ref. *)
Definition pr_refused (owner rp : jsstring) (pr : GitHubPR) (w : net)
  : outcome jsstring * net :=
  (Throw (Error (js "GitHub API error: 422 Unprocessable")), w).

End Wired.

(** * Properties *)

(** ** The ledger parser *)

Module LedgerFacts.

Import Ledger.

Lemma parse_step_fold (blocks : list jsstring) (acc : list QAQuestion) :
  fold_left parse_step blocks acc
  = acc ++ map read_block
             (List.filter (fun b => well_formed (read_block b)) blocks).
Proof.
  revert acc. induction blocks as [|b bs IH]; intros acc; simpl.
  - now rewrite app_nil_r.
  - rewrite IH. unfold parse_step.
    destruct (well_formed (read_block b)); simpl.
    + now rewrite <- app_assoc.
    + reflexivity.
Qed.

Lemma filter_split_length {A} (f : A -> bool) (l : list A) :
  (length (List.filter f l)
   + length (List.filter (fun x => negb (f x)) l) = length l)%nat.
Proof.
  induction l as [|x l IH]; simpl; [reflexivity|].
  destruct (f x); simpl; lia.
Qed.

Lemma read_line_id (q : QAQuestion) (line : jsstring) :
  id (read_line q line) = id q.
Proof.
  unfold read_line.
  repeat match goal with
         | |- context [if ?b then _ else _] => destruct b
         | |- context [match ?o with Some _ => _ | None => _ end] => destruct o
         end; reflexivity.
Qed.

Lemma read_lines_id (lines : list jsstring) (q : QAQuestion) :
  id (fold_left read_line lines q) = id q.
Proof.
  revert q. induction lines as [|l ls IH]; intros q; simpl; [reflexivity|].
  now rewrite IH, read_line_id.
Qed.

(** The [[Q-n]] marker of a header is consumed by the split, so the number
    in it never reaches the id. *)
Example marker_number_is_not_the_id :
  map id (parseQABoard Samples.ledger_plain) = [js "Q-000"].
Proof. vm_compute. reflexivity. Qed.

(** The status read from a ledger is the bare glyph. *)
Example status_is_the_glyph :
  map status (parseQABoard Samples.ledger_two)
  = [Some glyph_open; Some glyph_open].
Proof. vm_compute. reflexivity. Qed.

End LedgerFacts.

(** ** The ledger mutator *)

Module MutatorFacts.

Import Ledger Samples.

Lemma differ_by_decide (a b : jsstring) : bool_decide (a = b) = false -> a <> b.
Proof. intros H. now apply bool_decide_eq_false in H. Qed.

(** C1. On a ledger with one open question, an answer that contains [$1] is
    not what the Answer line holds afterwards: the reference is expanded to
    the text of the first group of the pattern. *)
Theorem answer_with_dollar_is_expanded :
  let out := updateQABoard_text ledger_one (js "Q-001") priced_answer
               date0 de_display in
  includes out (js "**Answer**: " ++ priced_answer) = false
  /\ includes out (js "**Answer**: It costs ### [Q-001] How do we deploy?")
     = true
  /\ includes out (js "**Status**: " ++ status_answered) = true.
Proof. vm_compute. repeat split; reflexivity. Qed.

(** C2. On a ledger with two open questions, the first application for
    [Q-001] answers that question and leaves the block of [Q-002] as it
    was; the second application for [Q-001] is not a no-op: it writes the
    answer and the status into the block of [Q-002]. *)
Theorem second_application_changes_next_block :
  let once := updateQABoard_text ledger_two (js "Q-001") (js "X")
                date0 de_display in
  let twice := updateQABoard_text once (js "Q-001") (js "X")
                 date0 de_display in
  once <> ledger_two
  /\ questionBlocks once !! 1%nat = questionBlocks ledger_two !! 1%nat
  /\ twice <> once
  /\ questionBlocks twice !! 1%nat <> questionBlocks once !! 1%nat
  /\ map answerBody (parseQABoard once) = [Some (js "X"); None]
  /\ map answerBody (parseQABoard twice) = [Some (js "X"); Some (js "X")].
Proof.
  cbv zeta. split; [|split; [|split; [|split; [|split]]]].
  - apply differ_by_decide. vm_compute. reflexivity.
  - vm_compute. reflexivity.
  - apply differ_by_decide. vm_compute. reflexivity.
  - intros H. vm_compute in H. discriminate H.
  - vm_compute. reflexivity.
  - vm_compute. reflexivity.
Qed.

End MutatorFacts.

(** ** Reasoning about effects *)

Module EffFacts.

Section Rules.
Context {S : Type}.
Implicit Types (I : S -> Prop).

Lemma preserves_ret {A} I (a : A) : preserves I (ret a).
Proof. intros s H. exact H. Qed.

Lemma preserves_throw {A} I (e : exn) : preserves I (@throw S A e).
Proof. intros s H. exact H. Qed.

Lemma preserves_get I : preserves I (@get S).
Proof. intros s H. exact H. Qed.

Lemma preserves_modify I (f : S -> S) :
  (forall s, I s -> I (f s)) -> preserves I (modify f).
Proof. intros Hf s H. apply Hf, H. Qed.

Lemma preserves_bind {A B} I (m : M S A) (k : A -> M S B) :
  preserves I m -> (forall a, preserves I (k a)) -> preserves I (bind m k).
Proof.
  intros Hm Hk s H. unfold bind. specialize (Hm s H).
  destruct (m s) as [[a|e] s']; simpl in *.
  - apply Hk, Hm.
  - exact Hm.
Qed.

Lemma preserves_try_catch {A} I (m : M S A) (h : exn -> M S A) :
  preserves I m -> (forall e, preserves I (h e)) ->
  preserves I (try_catch m h).
Proof.
  intros Hm Hh s H. unfold try_catch. specialize (Hm s H).
  destruct (m s) as [[a|e] s']; simpl in *.
  - exact Hm.
  - apply Hh, Hm.
Qed.

Lemma preserves_for_each {B} I (xs : list B) (body : B -> M S unit) :
  (forall x, preserves I (body x)) -> preserves I (for_each xs body).
Proof.
  intros Hb. induction xs as [|x xs IH]; simpl.
  - apply preserves_ret.
  - apply preserves_bind; [apply Hb|intros _; exact IH].
Qed.

Lemma never_throws_ret {A} (a : A) : never_throws (@ret S A a).
Proof. intros s. now exists a. Qed.

Lemma never_throws_modify (f : S -> S) : never_throws (modify f).
Proof. intros s. now exists tt. Qed.

Lemma never_throws_bind {A B} (m : M S A) (k : A -> M S B) :
  never_throws m -> (forall a, never_throws (k a)) -> never_throws (bind m k).
Proof.
  intros Hm Hk s. unfold bind. destruct (Hm s) as [a Ha].
  destruct (m s) as [[a'|e] s']; simpl in Ha; [|discriminate].
  apply Hk.
Qed.

Lemma never_throws_try_catch {A} (m : M S A) (h : exn -> M S A) :
  (forall e, never_throws (h e)) -> never_throws (try_catch m h).
Proof.
  intros Hh s. unfold try_catch.
  destruct (m s) as [[a|e] s']; simpl.
  - now exists a.
  - apply Hh.
Qed.

Lemma never_throws_for_each {B} (xs : list B) (body : B -> M S unit) :
  (forall x, never_throws (body x)) -> never_throws (for_each xs body).
Proof.
  intros Hb. induction xs as [|x xs IH]; simpl.
  - apply never_throws_ret.
  - apply never_throws_bind; [apply Hb|intros _; exact IH].
Qed.

(** The outcome and the state of a sequence whose first part returns. *)
Lemma bind_ok {A B} (m : M S A) (k : A -> M S B) s a s' :
  m s = (Ok a, s') -> bind m k s = k a s'.
Proof. intros H. unfold bind. now rewrite H. Qed.

Lemma bind_throw {A B} (m : M S A) (k : A -> M S B) s e s' :
  m s = (Throw e, s') -> bind m k s = (Throw e, s').
Proof. intros H. unfold bind. now rewrite H. Qed.

Lemma for_each_app {B} (xs ys : list B) (body : B -> M S unit) s :
  for_each (xs ++ ys) body s
  = bind (for_each xs body) (fun _ => for_each ys body) s.
Proof.
  revert s. induction xs as [|x xs IH]; intros s; simpl.
  - reflexivity.
  - unfold bind. destruct (body x s) as [[[]|e] s']; [|reflexivity].
    rewrite IH. reflexivity.
Qed.

Lemma for_each_throws {B} (xs : list B) (body : B -> M S unit) s e :
  fst (for_each xs body s) = Throw e ->
  exists before x after,
    xs = before ++ x :: after
    /\ fst (for_each before body s) = Ok tt
    /\ fst (body x (snd (for_each before body s))) = Throw e.
Proof.
  revert s. induction xs as [|x xs IH]; intros s; simpl.
  - discriminate.
  - unfold bind. destruct (body x s) as [[[]|e'] s'] eqn:Hx.
    + intros H. destruct (IH s' H) as (before & y & after & -> & Hb & Hy).
      exists (x :: before), y, after. simpl. unfold bind. rewrite Hx.
      split; [reflexivity|]. split; assumption.
    + simpl. intros [= ->]. exists [], x, xs. simpl. rewrite Hx.
      repeat split.
Qed.

Lemma for_each_throws_at {B} (before after : list B) x
      (body : B -> M S unit) s e :
  fst (for_each before body s) = Ok tt ->
  fst (body x (snd (for_each before body s))) = Throw e ->
  for_each (before ++ x :: after) body s
  = (Throw e, snd (body x (snd (for_each before body s)))).
Proof.
  intros Hb Hx. rewrite for_each_app. unfold bind.
  destruct (for_each before body s) as [[[]|e'] s']; simpl in *;
    [|discriminate].
  destruct (body x s') as [[[]|e''] s''] eqn:Hbx; simpl in *.
  - discriminate.
  - unfold bind. rewrite Hbx. now inversion Hx.
Qed.

Lemma preserves_for_each_in {B} (I : S -> Prop) (xs : list B)
      (body : B -> M S unit) :
  (forall x, In x xs -> preserves I (body x)) ->
  preserves I (for_each xs body).
Proof.
  induction xs as [|x xs IH]; intros Hb; simpl.
  - apply preserves_ret.
  - apply preserves_bind; [apply Hb; now left|intros _].
    apply IH. intros y Hy. apply Hb. now right.
Qed.

End Rules.

End EffFacts.

(** ** The team agent *)

Module AgentFacts.

Import EffFacts Ledger Agent.

Local Arguments updateQABoard_text : simpl never.
Local Arguments parseQABoard : simpl never.
Local Arguments js : simpl never.

Section Facts.
Variable W : Type.
Variable mnemo_query : prompt -> W -> outcome jsstring * W.
Variable github_getFile :
  jsstring -> jsstring -> jsstring -> W -> outcome jsstring * W.
Variable today : W -> jsstring.

Local Abbreviation st := (state W).
Local Abbreviation loadQABoard' := (loadQABoard W github_getFile).
Local Abbreviation updateQABoard' := (updateQABoard W github_getFile today).
Local Abbreviation answer_one' := (answer_one W mnemo_query github_getFile today).
Local Abbreviation review_one' := (review_one W mnemo_query github_getFile today).
Local Abbreviation answerQuestions' :=
  (answerQuestions W mnemo_query github_getFile today).
Local Abbreviation reviewAnswers' :=
  (reviewAnswers W mnemo_query github_getFile today).
Local Abbreviation checkMCPUpdates' :=
  (checkMCPUpdates W mnemo_query github_getFile today).
Local Abbreviation updateActionPlan' := (updateActionPlan W mnemo_query).
Local Abbreviation updateReadme' := (updateReadme W mnemo_query).
Local Abbreviation execute' := (execute W mnemo_query github_getFile today).
Local Abbreviation phases' := (phases W mnemo_query github_getFile today).

Lemma preserves_call {A} J (f : W -> outcome A * W) :
  preserves (on_agent W J) (call W f).
Proof.
  intros s H. unfold call. destruct (f (world s)) as [o w]. exact H.
Qed.

Lemma preserves_log J e : preserves (on_agent W J) (log W e).
Proof. intros s H. exact H. Qed.

Lemma preserves_this_team J : preserves (on_agent W J) (this_team W).
Proof. intros s H. exact H. Qed.

Lemma preserves_now J : preserves (on_agent W J) (now W today).
Proof. intros s H. exact H. Qed.

Lemma preserves_update_result J f :
  (forall a, J a -> J (mkAgent (agent_team a) (f (result a)) (fileChanges a))) ->
  preserves (on_agent W J) (update_result W f).
Proof. intros Hf s H. apply Hf, H. Qed.

Lemma preserves_fileChanges_set J p c :
  (forall a, J a ->
             J (mkAgent (agent_team a) (result a) (map_set p c (fileChanges a)))) ->
  preserves (on_agent W J) (fileChanges_set W p c).
Proof. intros Hf s H. apply Hf, H. Qed.


Ltac keeps :=
  repeat first
    [ apply preserves_ret | apply preserves_throw | apply preserves_get
    | apply preserves_call | apply preserves_log | apply preserves_this_team
    | apply preserves_now
    | apply preserves_bind; [|intros ?]
    | apply preserves_try_catch; [|intros ?]
    | apply preserves_for_each; intros ?
    | match goal with
      | |- preserves _ (if ?b then _ else _) => destruct b
      end ].

(** *** The success flag *)

Lemma keeps_flag_update f :
  (forall r, success (f r) = success r) ->
  preserves (on_agent W not_successful) (update_result W f).
Proof.
  intros Hf. apply preserves_update_result. intros a H.
  unfold not_successful in *. simpl. now rewrite Hf.
Qed.

Lemma keeps_flag_set p c :
  preserves (on_agent W not_successful) (fileChanges_set W p c).
Proof. apply preserves_fileChanges_set. intros a H. exact H. Qed.

Ltac keeps_flag :=
  keeps;
  first [ apply keeps_flag_set
        | apply keeps_flag_update; intros ?; reflexivity ].

Lemma loadQABoard_keeps_flag : preserves (on_agent W not_successful) loadQABoard'.
Proof. unfold loadQABoard. keeps_flag. Qed.

Lemma answerQuestions_keeps_flag :
  preserves (on_agent W not_successful) answerQuestions'.
Proof.
  unfold answerQuestions, answer_one, updateQABoard, loadQABoard. keeps_flag.
Qed.

Lemma reviewAnswers_keeps_flag :
  preserves (on_agent W not_successful) reviewAnswers'.
Proof.
  unfold reviewAnswers, review_one, applyInsightsToDocumentation, loadQABoard.
  keeps_flag.
Qed.

Lemma checkMCPUpdates_keeps_flag :
  preserves (on_agent W not_successful) checkMCPUpdates'.
Proof.
  unfold checkMCPUpdates, applyMCPUpdatesToDocumentation. keeps_flag.
Qed.

Lemma updateActionPlan_keeps_flag :
  preserves (on_agent W not_successful) updateActionPlan'.
Proof. unfold updateActionPlan. keeps_flag. Qed.

Lemma updateReadme_keeps_flag :
  preserves (on_agent W not_successful) updateReadme'.
Proof. unfold updateReadme. keeps_flag. Qed.


(** *** The console only grows *)

Lemma console_call {A} K (f : W -> outcome A * W) :
  preserves (on_console W K) (call W f).
Proof.
  intros s H. unfold call. destruct (f (world s)) as [o w]. exact H.
Qed.

Lemma console_log e e' : preserves (on_console W (shows e)) (log W e').
Proof. intros s H. unfold on_console, shows in *. simpl. apply in_or_app. now left. Qed.

Lemma console_this_team K : preserves (on_console W K) (this_team W).
Proof. intros s H. exact H. Qed.

Lemma console_now K : preserves (on_console W K) (now W today).
Proof. intros s H. exact H. Qed.

Lemma console_update_result K f : preserves (on_console W K) (update_result W f).
Proof. intros s H. exact H. Qed.

Lemma console_fileChanges_set K p c :
  preserves (on_console W K) (fileChanges_set W p c).
Proof. intros s H. exact H. Qed.

Ltac keeps_console :=
  repeat first
    [ apply preserves_ret | apply preserves_throw | apply preserves_get
    | apply console_call | apply console_log | apply console_this_team
    | apply console_now | apply console_update_result
    | apply console_fileChanges_set
    | apply preserves_bind; [|intros ?]
    | apply preserves_try_catch; [|intros ?]
    | apply preserves_for_each; intros ?
    | match goal with
      | |- preserves _ (if ?b then _ else _) => destruct b
      end ].

Lemma phases_keep_console e pm :
  In pm phases' -> preserves (on_console W (shows e)) (snd pm).
Proof.
  unfold phases. simpl.
  intros [<-|[<-|[<-|[<-|[<-|[]]]]]]; simpl.
  - unfold answerQuestions, answer_one, updateQABoard, loadQABoard.
    keeps_console.
  - unfold reviewAnswers, review_one, applyInsightsToDocumentation,
      loadQABoard.
    keeps_console.
  - unfold checkMCPUpdates, applyMCPUpdatesToDocumentation. keeps_console.
  - unfold updateActionPlan. keeps_console.
  - unfold updateReadme. keeps_console.
Qed.

Lemma phases_keep_flag pm :
  In pm phases' -> preserves (on_agent W not_successful) (snd pm).
Proof.
  unfold phases. simpl.
  intros [<-|[<-|[<-|[<-|[<-|[]]]]]]; simpl.
  - apply answerQuestions_keeps_flag.
  - apply reviewAnswers_keeps_flag.
  - apply checkMCPUpdates_keeps_flag.
  - apply updateActionPlan_keeps_flag.
  - apply updateReadme_keeps_flag.
Qed.

(** Each phase announces itself first. *)
Lemma phase_announced p m s :
  In (p, m) phases' -> shows (LogPhase p) (console (snd (m s))).
Proof.
  intros Hin.
  assert (Hshape : exists rest,
             (forall s0, m s0 = bind (log W (LogPhase p)) (fun _ => rest) s0)
             /\ preserves (on_console W (shows (LogPhase p))) rest).
  { unfold phases in Hin. simpl in Hin.
    destruct Hin as [H|[H|[H|[H|[H|[]]]]]]; inversion H; subst p m;
      eexists; (split; [intros s0; reflexivity|]).
    - unfold loadQABoard, answer_one, updateQABoard, loadQABoard.
      keeps_console.
    - unfold loadQABoard, review_one, applyInsightsToDocumentation,
        loadQABoard.
      keeps_console.
    - unfold applyMCPUpdatesToDocumentation. keeps_console.
    - keeps_console.
    - keeps_console. }
  destruct Hshape as (rest & Heq & Hrest).
  rewrite Heq. unfold bind, log, modify. simpl.
  match goal with
  | |- context [rest ?s1] =>
      specialize (Hrest s1); destruct (rest s1) as [[[]|e] s2]; simpl in *;
      apply Hrest; unfold on_console, shows; simpl; apply in_or_app; right;
      now left
  end.
Qed.


(** *** Which phases can throw *)

Lemma never_throws_update_result f : never_throws (update_result W f).
Proof. apply never_throws_modify. Qed.

Lemma never_throws_log e : never_throws (log W e).
Proof. apply never_throws_modify. Qed.

Lemma never_throws_this_team : never_throws (this_team W).
Proof. intros s. now eexists. Qed.

Lemma never_throws_now : never_throws (now W today).
Proof. intros s. now eexists. Qed.

Lemma answer_one_never_throws q : never_throws (answer_one' q).
Proof.
  unfold answer_one. apply never_throws_try_catch. intros e.
  apply never_throws_update_result.
Qed.

Lemma review_one_never_throws q : never_throws (review_one' q).
Proof.
  unfold review_one. apply never_throws_try_catch. intros e.
  apply never_throws_update_result.
Qed.

Lemma checkMCPUpdates_never_throws : never_throws checkMCPUpdates'.
Proof.
  unfold checkMCPUpdates.
  apply never_throws_bind; [apply never_throws_log|intros _].
  apply never_throws_bind; [apply never_throws_this_team|intros t].
  apply never_throws_try_catch. intros e. apply never_throws_update_result.
Qed.

Lemma updateActionPlan_never_throws : never_throws updateActionPlan'.
Proof.
  unfold updateActionPlan.
  apply never_throws_bind; [apply never_throws_log|intros _].
  apply never_throws_bind; [apply never_throws_this_team|intros t].
  apply never_throws_try_catch. intros e. apply never_throws_update_result.
Qed.

Lemma updateReadme_never_throws : never_throws updateReadme'.
Proof.
  unfold updateReadme.
  apply never_throws_bind; [apply never_throws_log|intros _].
  apply never_throws_bind; [apply never_throws_this_team|intros t].
  apply never_throws_try_catch. intros e. apply never_throws_update_result.
Qed.

Lemma loadQABoard_throws s e :
  fst (loadQABoard' s) = Throw e -> ledger_unreachable W github_getFile (world s) e.
Proof.
  unfold loadQABoard, try_catch, call, throw.
  destruct (github_getFile _ _ _ (world s)) as [[b|e0] w'] eqn:Hg; simpl.
  - discriminate.
  - intros [= <-]. exists e0. now rewrite Hg.
Qed.

Lemma answerQuestions_throws s e :
  fst (answerQuestions' s) = Throw e -> ledger_unreachable W github_getFile (world s) e.
Proof.
  unfold answerQuestions. unfold bind at 1. unfold log at 1, modify. simpl.
  unfold bind at 1.
  match goal with |- context [loadQABoard' ?s1] => set (s1' := s1) end.
  destruct (loadQABoard' s1') as [[b|e0] s2] eqn:Hl.
  - unfold bind, this_team.
    match goal with |- context [for_each ?l ?f ?x] =>
      destruct (never_throws_for_each l f answer_one_never_throws x) as [u Hu];
      rewrite Hu end.
    discriminate.
  - simpl. intros [= <-].
    apply (loadQABoard_throws s1'). now rewrite Hl.
Qed.

Lemma reviewAnswers_throws s e :
  fst (reviewAnswers' s) = Throw e -> ledger_unreachable W github_getFile (world s) e.
Proof.
  unfold reviewAnswers. unfold bind at 1. unfold log at 1, modify. simpl.
  unfold bind at 1.
  match goal with |- context [loadQABoard' ?s1] => set (s1' := s1) end.
  destruct (loadQABoard' s1') as [[b|e0] s2] eqn:Hl.
  - unfold bind, this_team.
    match goal with |- context [for_each ?l ?f ?x] =>
      destruct (never_throws_for_each l f review_one_never_throws x) as [u Hu];
      rewrite Hu end.
    discriminate.
  - simpl. intros [= <-].
    apply (loadQABoard_throws s1'). now rewrite Hl.
Qed.

Lemma phase_throws p m s e :
  In (p, m) phases' -> fst (m s) = Throw e ->
  (p = AnswerQuestions \/ p = ReviewAnswers)
  /\ ledger_unreachable W github_getFile (world s) e.
Proof.
  unfold phases. simpl.
  intros [H|[H|[H|[H|[H|[]]]]]] Ht; inversion H; subst p m.
  - split; [now left|]. now apply answerQuestions_throws.
  - split; [now right|]. now apply reviewAnswers_throws.
  - destruct (checkMCPUpdates_never_throws s) as [u Hu]. congruence.
  - destruct (updateActionPlan_never_throws s) as [u Hu]. congruence.
  - destruct (updateReadme_never_throws s) as [u Hu]. congruence.
Qed.


(** The [try] block of [execute] and its handler, from the state [s] in
    which the phases start: the outcome is that of the phases in turn. *)
Lemma try_block_run (t : TeamConfig) (s : st) :
  let r :=
    try_catch
      (bind answerQuestions' (fun _ => bind reviewAnswers' (fun _ =>
       bind checkMCPUpdates' (fun _ => bind updateActionPlan' (fun _ =>
       bind updateReadme' (fun _ =>
       bind (update_result W (set_success true)) (fun _ =>
       log W (LogCompleted (displayName t))))))))) 
      (fun error =>
         bind (update_result W (push_error (message_of error)))
              (fun _ => log W (LogFailed (displayName t) (message_of error))))
      s in
  fst r = Ok tt
  /\ match for_each phases' (fun pm => snd pm) s with
     | (Ok _, s5) =>
         success (result (agent (snd r))) = true
         /\ console (snd r) = console s5 ++ [LogCompleted (displayName t)]
         /\ errors (result (agent (snd r))) = errors (result (agent s5))
     | (Throw e, s') =>
         success (result (agent (snd r))) = success (result (agent s'))
         /\ console (snd r)
            = console s' ++ [LogFailed (displayName t) (message_of e)]
         /\ errors (result (agent (snd r)))
            = errors (result (agent s')) ++ [message_of e]
     end.
Proof.
  cbv zeta. unfold phases. cbn [for_each snd]. unfold try_catch, bind.
  destruct (answerQuestions' s) as [[[]|e1] s1]; [|simpl; auto].
  destruct (reviewAnswers' s1) as [[[]|e2] s2]; [|simpl; auto].
  destruct (checkMCPUpdates' s2) as [[[]|e3] s3]; [|simpl; auto].
  destruct (updateActionPlan' s3) as [[[]|e4] s4]; [|simpl; auto].
  destruct (updateReadme' s4) as [[[]|e5] s5]; [|simpl; auto].
  simpl. auto.
Qed.


Local Abbreviation escapes_at' :=
  (escapes_at W mnemo_query github_getFile today).

Lemma shown_phase_started p l :
  shows (LogPhase p) l -> In p (phases_started l).
Proof.
  unfold shows, phases_started. intros H.
  apply list_elem_of_In, list_elem_of_omap.
  exists (LogPhase p). split; [now apply list_elem_of_In|reflexivity].
Qed.

Lemma execute_eq (t : TeamConfig) (w : W) :
  execute' (initial W t w)
  = let r :=
      try_catch
        (bind answerQuestions' (fun _ => bind reviewAnswers' (fun _ =>
         bind checkMCPUpdates' (fun _ => bind updateActionPlan' (fun _ =>
         bind updateReadme' (fun _ =>
         bind (update_result W (set_success true)) (fun _ =>
         log W (LogCompleted (displayName t)))))))))
        (fun error =>
           bind (update_result W (push_error (message_of error)))
                (fun _ => log W (LogFailed (displayName t)
                                   (message_of error))))
        (mkState (new_TeamAgent t) w [LogStarting (displayName t)]) in
    match fst r with
    | Ok _ => (Ok (result (agent (snd r))), snd r)
    | Throw e => (Throw e, snd r)
    end.
Proof.
  cbv zeta. unfold execute, initial.
  unfold bind at 1. unfold this_team at 1. cbn [agent agent_team new_TeamAgent].
  unfold bind at 1. unfold log at 1, modify. cbn [agent world console app].
  unfold bind at 1.
  destruct (try_catch _ _ _) as [[[]|e] s']; reflexivity.
Qed.

Lemma execute_run (t : TeamConfig) (w : W) :
  let s1 := mkState (new_TeamAgent t) w [LogStarting (displayName t)] in
  let run := execute' (initial W t w) in
  fst run = Ok (result (agent (snd run)))
  /\ match for_each phases' (fun pm => snd pm) s1 with
     | (Ok _, s5) =>
         success (result (agent (snd run))) = true
         /\ console (snd run) = console s5 ++ [LogCompleted (displayName t)]
         /\ errors (result (agent (snd run))) = errors (result (agent s5))
     | (Throw e, s') =>
         success (result (agent (snd run))) = success (result (agent s'))
         /\ console (snd run)
            = console s' ++ [LogFailed (displayName t) (message_of e)]
         /\ errors (result (agent (snd run)))
            = errors (result (agent s')) ++ [message_of e]
     end.
Proof.
  cbv zeta. rewrite execute_eq. cbv zeta.
  pose proof (try_block_run t
                (mkState (new_TeamAgent t) w [LogStarting (displayName t)]))
    as Hrun.
  cbv zeta in Hrun. destruct Hrun as [Hok Hrest].
  rewrite Hok. cbn [fst snd]. split; [reflexivity|]. exact Hrest.
Qed.



(** *** Pending edits and the list of updated documents *)

Lemma map_set_keys (k v : jsstring) (m : FileMap) :
  map fst (map_set k v m)
  = if bool_decide (k ∈ map fst m) then map fst m else map fst m ++ [k].
Proof.
  induction m as [|[k' v'] m IH]; simpl.
  - reflexivity.
  - destruct (bool_decide (k' = k)) eqn:Hk.
    + apply bool_decide_eq_true in Hk. subst k'. simpl.
      rewrite bool_decide_eq_true_2; [reflexivity|]. apply list_elem_of_here.
    + apply bool_decide_eq_false in Hk. simpl. rewrite IH.
      destruct (bool_decide (k ∈ map fst m)) eqn:Hin.
      * apply bool_decide_eq_true in Hin.
        rewrite bool_decide_eq_true_2; [reflexivity|].
        now apply list_elem_of_further.
      * apply bool_decide_eq_false in Hin.
        rewrite bool_decide_eq_false_2; [reflexivity|].
        intros Hc. apply elem_of_cons in Hc as [->|Hc]; [now apply Hk|].
        now apply Hin.
Qed.

Lemma map_set_one_per_path (k v : jsstring) (m : FileMap) :
  NoDup (map fst m) -> NoDup (map fst (map_set k v m)).
Proof.
  intros H. rewrite map_set_keys.
  destruct (bool_decide (k ∈ map fst m)) eqn:Hin; [exact H|].
  apply bool_decide_eq_false in Hin.
  apply NoDup_app. split; [exact H|]. split.
  - intros x Hx Hx'. apply list_elem_of_singleton in Hx'. now subst x.
  - apply NoDup_singleton.
Qed.

Lemma map_get_set (k v : jsstring) (m : FileMap) :
  map_get k (map_set k v m) = Some v.
Proof.
  induction m as [|[k' v'] m IH]; simpl.
  - now rewrite bool_decide_eq_true_2.
  - destruct (bool_decide (k' = k)) eqn:Hk; simpl.
    + now rewrite bool_decide_eq_true_2.
    + now rewrite Hk.
Qed.

Lemma map_get_set_other (k k' v : jsstring) (m : FileMap) :
  k' <> k -> map_get k' (map_set k v m) = map_get k' m.
Proof.
  intros Hne. induction m as [|[k0 v0] m IH]; simpl.
  - rewrite bool_decide_eq_false_2; [reflexivity|congruence].
  - destruct (bool_decide (k0 = k)) eqn:Hk; simpl.
    + apply bool_decide_eq_true in Hk. subst k0.
      rewrite !bool_decide_eq_false_2 by congruence. reflexivity.
    + destruct (bool_decide (k0 = k')); [reflexivity|exact IH].
Qed.

Lemma keeps_paths_update f :
  preserves (on_agent W one_per_path) (update_result W f).
Proof. apply preserves_update_result. intros a H. exact H. Qed.

Lemma keeps_paths_set p c :
  preserves (on_agent W one_per_path) (fileChanges_set W p c).
Proof.
  apply preserves_fileChanges_set. intros a H.
  unfold one_per_path in *. simpl. now apply map_set_one_per_path.
Qed.

Ltac keeps_paths :=
  keeps; first [ apply keeps_paths_set | apply keeps_paths_update ].

Lemma phases_keep_paths pm :
  In pm phases' -> preserves (on_agent W one_per_path) (snd pm).
Proof.
  unfold phases. simpl.
  intros [<-|[<-|[<-|[<-|[<-|[]]]]]]; simpl.
  - unfold answerQuestions, answer_one, updateQABoard, loadQABoard.
    keeps_paths.
  - unfold reviewAnswers, review_one, applyInsightsToDocumentation,
      loadQABoard.
    keeps_paths.
  - unfold checkMCPUpdates, applyMCPUpdatesToDocumentation. keeps_paths.
  - unfold updateActionPlan. keeps_paths.
  - unfold updateReadme. keeps_paths.
Qed.


Lemma execute_keeps (J : TeamAgent -> Prop) :
  (forall pm, In pm phases' -> preserves (on_agent W J) (snd pm)) ->
  preserves (on_agent W J) (update_result W (set_success true)) ->
  (forall m, preserves (on_agent W J) (update_result W (push_error m))) ->
  preserves (on_agent W J) execute'.
Proof.
  intros Hph Hup Herr. unfold execute.
  apply preserves_bind; [apply preserves_this_team|intros t].
  apply preserves_bind; [apply preserves_log|intros _].
  apply preserves_bind.
  - apply preserves_try_catch.
    + apply preserves_bind;
        [apply (Hph (AnswerQuestions, answerQuestions')); unfold phases;
         simpl; tauto|intros _].
      apply preserves_bind;
        [apply (Hph (ReviewAnswers, reviewAnswers')); unfold phases;
         simpl; tauto|intros _].
      apply preserves_bind;
        [apply (Hph (CheckMCPUpdates, checkMCPUpdates')); unfold phases;
         simpl; tauto|intros _].
      apply preserves_bind;
        [apply (Hph (UpdateActionPlan, updateActionPlan')); unfold phases;
         simpl; tauto|intros _].
      apply preserves_bind;
        [apply (Hph (UpdateReadme, updateReadme')); unfold phases;
         simpl; tauto|intros _].
      apply preserves_bind; [apply Hup|intros _]. apply preserves_log.
    + intros e. apply preserves_bind; [apply Herr|intros _].
      apply preserves_log.
  - intros _. apply preserves_bind; [apply preserves_get|intros s'].
    apply preserves_ret.
Qed.

Lemma execute_one_per_path (t : TeamConfig) (w : W) :
  one_per_path (agent (snd (execute' (initial W t w)))).
Proof.
  apply (execute_keeps one_per_path).
  - apply phases_keep_paths.
  - apply keeps_paths_update.
  - intros m. apply keeps_paths_update.
  - apply NoDup_nil_2.
Qed.

End Facts.

Import Samples.

(** With the answering service down, every phase records its error and the
    run is still successful, all five phases having started. *)
Example item_errors_keep_success :
  let r := fst (agent_run down_query calm_getFile calm_today team_de tt) in
  exists res a,
    r = Ok (res, a)
    /\ success res = true
    /\ length (errors res) = 3%nat.
Proof. vm_compute. eexists _, _. repeat split. Qed.

(** With the repository host down, the first phase lets the error escape
    and the run is unsuccessful. *)
Example unreachable_ledger_fails :
  let r := fst (agent_run calm_query down_getFile calm_today team_de tt) in
  exists res a,
    r = Ok (res, a)
    /\ success res = false
    /\ errors res
       = [js "Failed to load Q&A board: Error: GitHub API error: 503"].
Proof. vm_compute. eexists _, _. repeat split. Qed.

Lemma getFileChanges_paths (a : TeamAgent) :
  map fst (getFileChanges a) = map fst (fileChanges a).
Proof.
  unfold getFileChanges. rewrite map_map. apply map_ext. now intros [p c].
Qed.

End AgentFacts.

(** ** The commit builder *)

Module GitHubFacts.

Import EffFacts GitHub Samples.

Local Arguments js : simpl never.

Lemma serve_keeps_refs rq rp resp rp' :
  no_ref_update rq = true -> serve rq rp = Some (resp, rp') ->
  refs rp' = refs rp.
Proof.
  destruct rq; simpl; try discriminate; intros _ H;
    repeat match type of H with
           | match ?x with _ => _ end = _ => destruct x; try discriminate
           end;
    now inversion H.
Qed.

Lemma all_refs_insert (h : gmap (jsstring * jsstring) repo) k rp rp' :
  h !! k = Some rp -> refs rp' = refs rp ->
  refs <$> <[k := rp']> h = refs <$> h.
Proof.
  intros Hk Hr. rewrite fmap_insert, Hr. apply insert_id.
  now rewrite lookup_fmap, Hk.
Qed.

Lemma fetch_cases rq w :
  (exists e,
      fetch rq w = (Throw e, mkNet (host w) (tail (faults w)) (sent w ++ [rq])))
  \/ (exists rp resp rp' e,
         host w !! request_repo rq = Some rp
         /\ serve rq rp = Some (resp, rp')
         /\ fetch rq w
            = (Throw e, mkNet (<[request_repo rq := rp']> (host w))
                          (tail (faults w)) (sent w ++ [rq])))
  \/ (exists rp resp rp',
         host w !! request_repo rq = Some rp
         /\ serve rq rp = Some (resp, rp')
         /\ fetch rq w
            = (Ok resp, mkNet (<[request_repo rq := rp']> (host w))
                          (tail (faults w)) (sent w ++ [rq]))).
Proof.
  unfold fetch.
  destruct (faults w) as [|[[e|e]|] later]; cbn [tail];
    (destruct (host w !! request_repo rq) as [rp|] eqn:Hh;
     [destruct (serve rq rp) as [[resp rp']|] eqn:Hs|]);
    first [ left; eexists; reflexivity
          | right; left; exists rp, resp, rp', e; auto
          | right; right; exists rp, resp, rp'; auto ].
Qed.

Lemma quiet_ret {A} (a : A) : quiet (ret a).
Proof. intros w. exists []. simpl. now rewrite app_nil_r. Qed.

Lemma quiet_throw {A} (e : exn) : quiet (@throw net A e).
Proof. intros w. exists []. simpl. now rewrite app_nil_r. Qed.

Lemma quiet_bind {A B} (m : M net A) (k : A -> M net B) :
  quiet m -> (forall a, quiet (k a)) -> quiet (bind m k).
Proof.
  intros Hm Hk w. destruct (Hm w) as (r1 & Hs1 & Hq1 & Hr1).
  unfold bind. destruct (m w) as [[a|e] w1]; simpl in *.
  - destruct (Hk a w1) as (r2 & Hs2 & Hq2 & Hr2).
    exists (r1 ++ r2). rewrite Hs2, Hs1, Hr2, Hr1, forallb_app, Hq1, Hq2.
    now rewrite app_assoc.
  - exists r1. auto.
Qed.

Lemma quiet_fetch rq : no_ref_update rq = true -> quiet (fetch rq).
Proof.
  intros Hq w. exists [rq]. simpl. rewrite Hq.
  destruct (fetch_cases rq w)
    as [(e & ->)|[(rp & resp & rp' & e & Hh & Hs & ->)
                 |(rp & resp & rp' & Hh & Hs & ->)]];
    simpl; [auto| |];
    (split; [reflexivity|]; split; [reflexivity|];
     unfold all_refs; simpl; eapply all_refs_insert; [exact Hh|];
     eapply serve_keeps_refs; eassumption).
Qed.

Lemma quiet_object_sha x : quiet (object_sha x).
Proof. destruct x; simpl; first [apply quiet_ret|apply quiet_throw]. Qed.

Lemma quiet_tree_sha x : quiet (tree_sha x).
Proof. destruct x; simpl; first [apply quiet_ret|apply quiet_throw]. Qed.

Lemma quiet_sha_of x : quiet (sha_of x).
Proof. destruct x; simpl; first [apply quiet_ret|apply quiet_throw]. Qed.

Lemma quiet_create_blobs owner rp files tree :
  quiet (create_blobs owner rp files tree).
Proof.
  revert tree. induction files as [|f files IH]; intros tree; simpl.
  - apply quiet_ret.
  - apply quiet_bind; [now apply quiet_fetch|intros blob].
    apply quiet_bind; [apply quiet_sha_of|intros s]. apply IH.
Qed.

Lemma bind_ok_inv {S A B} (m : M S A) (k : A -> M S B) s b s' :
  bind m k s = (Ok b, s') ->
  exists a s1, m s = (Ok a, s1) /\ k a s1 = (Ok b, s').
Proof.
  unfold bind. destruct (m s) as [[a|e] s1]; [|discriminate].
  intros H. now exists a, s1.
Qed.

Lemma fetch_ok rq w resp w' :
  fetch rq w = (Ok resp, w') ->
  exists rp rp',
    host w !! request_repo rq = Some rp
    /\ serve rq rp = Some (resp, rp')
    /\ host w' = <[request_repo rq := rp']> (host w)
    /\ sent w' = sent w ++ [rq].
Proof.
  intros H.
  destruct (fetch_cases rq w)
    as [(e & He)|[(rp & r & rp' & e & Hh & Hs & He)
                 |(rp & r & rp' & Hh & Hs & He)]];
    rewrite He in H; inversion H; subst.
  exists rp, rp'. simpl. auto.
Qed.

Lemma repo_eta rp : mkRepo (blobs rp) (objects rp) (refs rp) = rp.
Proof. now destruct rp. Qed.

Lemma create_blobs_ok owner rp files tree w tree' w' rp0 :
  create_blobs owner rp files tree w = (Ok tree', w') ->
  host w !! (owner, rp) = Some rp0 ->
  tree' = tree ++ map entry_of files
  /\ host w'
     = <[(owner, rp) := mkRepo (list_to_set (map content files) ∪ blobs rp0)
                          (objects rp0) (refs rp0)]> (host w)
  /\ sent w' = sent w ++ map (fun f => PostBlob owner rp (content f)) files.
Proof.
  revert tree w rp0. induction files as [|f files IH]; intros tree w rp0; simpl.
  - intros [= <- <-] Hh. rewrite !app_nil_r. split; [reflexivity|].
    split; [|reflexivity].
    rewrite union_empty_l_L, repo_eta. symmetry. now apply insert_id.
  - intros H Hh.
    apply bind_ok_inv in H as (blob & w1 & Hf & H).
    apply fetch_ok in Hf as (rp1 & rp1' & Hh1 & Hs & Hhost & Hsent).
    simpl in Hh1, Hs, Hhost. rewrite Hh in Hh1. inversion Hh1; subst rp1.
    inversion Hs; subst blob rp1'.
    apply bind_ok_inv in H as (s0 & w2 & Hs0 & H).
    simpl in Hs0. inversion Hs0; subst s0 w2.
    apply IH with (rp0 := mkRepo ({[content f]} ∪ blobs rp0) (objects rp0)
                            (refs rp0)) in H.
    2:{ rewrite Hhost. apply lookup_insert_eq. }
    destruct H as (-> & Hhost' & Hsent'). simpl in Hhost'.
    split; [now rewrite <- app_assoc|]. split.
    + rewrite Hhost', Hhost, insert_insert_eq. f_equal. f_equal.
      apply set_eq. intros x. simpl.
      rewrite !elem_of_union, elem_of_singleton. tauto.
    + rewrite Hsent', Hsent, <- app_assoc. reflexivity.
Qed.

Lemma layer_overlay rp old files :
  (forall f, In f files -> content f ∈ blobs rp) ->
  layer rp old (map entry_of files) = Some (overlay old files).
Proof.
  revert old. induction files as [|f files IH]; intros old Hin; simpl.
  - reflexivity.
  - unfold as_blob. simpl.
    rewrite bool_decide_eq_true_2 by (apply Hin; now left).
    apply IH. intros g Hg. apply Hin. now right.
Qed.


(** [createCommit] is [commit_objects] and then the update of the ref. *)
Lemma createCommit_split owner rp branch message files w :
  createCommit owner rp branch message files w
  = bind (commit_objects owner rp branch message files)
         (fun c => bind (fetch (PatchRef owner rp branch c)) (fun _ => ret c))
         w.
Proof.
  unfold createCommit, commit_objects, bind.
  destruct (fetch (GetRef owner rp branch) w) as [[branchRef|?] w1];
    [|reflexivity].
  destruct (object_sha branchRef w1) as [[baseSha|?] w2]; [|reflexivity].
  destruct (fetch (GetCommit owner rp baseSha) w2) as [[baseCommit|?] w3];
    [|reflexivity].
  destruct (tree_sha baseCommit w3) as [[baseTreeSha|?] w4]; [|reflexivity].
  destruct (create_blobs owner rp files [] w4) as [[tree|?] w5];
    [|reflexivity].
  destruct (fetch (PostTree owner rp baseTreeSha tree) w5)
    as [[newTree|?] w6]; [|reflexivity].
  destruct (sha_of newTree w6) as [[newTreeSha|?] w7]; [|reflexivity].
  destruct (fetch (PostCommit owner rp message newTreeSha [baseSha]) w7)
    as [[commit|?] w8]; [|reflexivity].
  destruct (sha_of commit w8) as [[commitSha|?] w9]; reflexivity.
Qed.

Lemma quiet_commit_objects owner rp branch message files :
  quiet (commit_objects owner rp branch message files).
Proof.
  unfold commit_objects.
  apply quiet_bind; [now apply quiet_fetch|intros branchRef].
  apply quiet_bind; [apply quiet_object_sha|intros baseSha].
  apply quiet_bind; [now apply quiet_fetch|intros baseCommit].
  apply quiet_bind; [apply quiet_tree_sha|intros baseTreeSha].
  apply quiet_bind; [apply quiet_create_blobs|intros tree].
  apply quiet_bind; [now apply quiet_fetch|intros newTree].
  apply quiet_bind; [apply quiet_sha_of|intros newTreeSha].
  apply quiet_bind; [now apply quiet_fetch|intros commit].
  apply quiet_sha_of.
Qed.

(** What a run of [commit_objects] that returns has done: the objects are
    in the repository and no ref has moved. *)
Lemma commit_objects_ok owner rp branch message files w c w' :
  commit_objects owner rp branch message files w = (Ok c, w') ->
  exists rp0 base t ps m0 old,
    host w !! (owner, rp) = Some rp0
    /\ refs rp0 !! branch = Some base
    /\ objects rp0 !! base = Some (Commit t ps m0)
    /\ objects rp0 !! t = Some (Tree old)
    /\ let nt := fresh_id rp0 in
       let objs1 := <[nt := Tree (overlay old files)]> (objects rp0) in
       let nc := fresh (dom objs1) in
       c = Oid nc
       /\ host w'
          = <[(owner, rp) :=
                mkRepo (list_to_set (map content files) ∪ blobs rp0)
                  (<[nc := Commit nt [base] message]> objs1)
                  (refs rp0)]> (host w)
       /\ sent w'
          = sent w
            ++ [GetRef owner rp branch; GetCommit owner rp (Oid base)]
            ++ map (fun f => PostBlob owner rp (content f)) files
            ++ [PostTree owner rp (Oid t) (map entry_of files);
                PostCommit owner rp message (Oid nt) [Oid base]].
Proof.
  unfold commit_objects. intros H.
  (* the branch ref *)
  apply bind_ok_inv in H as (branchRef & w1 & Hf & H).
  apply fetch_ok in Hf as (rp0 & rp1 & Hh0 & Hs & Hhost1 & Hsent1).
  simpl in Hh0, Hs, Hhost1.
  destruct (refs rp0 !! branch) as [base|] eqn:Hbase; [|discriminate].
  inversion Hs; subst branchRef rp1. clear Hs.
  rewrite insert_id in Hhost1 by exact Hh0.
  apply bind_ok_inv in H as (baseSha & w1' & Hs & H).
  simpl in Hs. inversion Hs; subst baseSha w1'. clear Hs.
  (* the base commit *)
  apply bind_ok_inv in H as (baseCommit & w2 & Hf & H).
  apply fetch_ok in Hf as (rp0' & rp2 & Hh & Hs & Hhost2 & Hsent2).
  simpl in Hh, Hs, Hhost2. rewrite Hhost1, Hh0 in Hh.
  inversion Hh; subst rp0'. clear Hh.
  destruct (objects rp0 !! base) as [[|t ps m0]|] eqn:Hcommit;
    try discriminate.
  inversion Hs; subst baseCommit rp2. clear Hs.
  rewrite Hhost1, insert_id in Hhost2 by exact Hh0.
  apply bind_ok_inv in H as (baseTreeSha & w2' & Hs & H).
  simpl in Hs. inversion Hs; subst baseTreeSha w2'. clear Hs.
  (* the blobs *)
  apply bind_ok_inv in H as (tree & w3 & Hb & H).
  apply create_blobs_ok with (rp0 := rp0) in Hb;
    [|now rewrite Hhost2].
  destruct Hb as (Htree & Hhost3 & Hsent3). simpl in Htree. subst tree.
  (* the tree *)
  apply bind_ok_inv in H as (newTree & w4 & Hf & H).
  apply fetch_ok in Hf as (rp3 & rp4 & Hh & Hs & Hhost4 & Hsent4).
  simpl in Hh, Hs, Hhost4. rewrite Hhost3, lookup_insert_eq in Hh.
  inversion Hh; subst rp3. clear Hh.
  unfold as_tree in Hs. simpl in Hs.
  destruct (objects rp0 !! t) as [[old|]|] eqn:Htree; try discriminate.
  rewrite layer_overlay in Hs.
  2:{ intros f Hf. simpl. apply elem_of_union. left.
      apply elem_of_list_to_set, list_elem_of_In, in_map, Hf. }
  inversion Hs; subst newTree rp4. clear Hs.
  apply bind_ok_inv in H as (newTreeSha & w4' & Hs & H).
  simpl in Hs. inversion Hs; subst newTreeSha w4'. clear Hs.
  (* the commit *)
  apply bind_ok_inv in H as (commit & w5 & Hf & H).
  apply fetch_ok in Hf as (rp5 & rp6 & Hh & Hs & Hhost5 & Hsent5).
  simpl in Hh, Hs, Hhost5. rewrite Hhost4, lookup_insert_eq in Hh.
  inversion Hh; subst rp5. clear Hh.
  unfold fresh_id in *. simpl in Hs, Hhost4, Hhost5.
  set (nt := fresh (dom (objects rp0))) in *.
  assert (Hnt : objects rp0 !! nt = None).
  { apply not_elem_of_dom. apply is_fresh. }
  assert (Hbt : base <> nt) by congruence.
  unfold as_tree, as_commit in Hs. simpl in Hs.
  rewrite lookup_insert_eq in Hs.
  rewrite lookup_insert_ne in Hs by congruence.
  rewrite Hcommit in Hs. simpl in Hs.
  inversion Hs; subst commit rp6. clear Hs.
  simpl in H. inversion H; subst c w5. clear H.
  exists rp0, base, t, ps, m0, old.
  split; [exact Hh0|]. split; [exact Hbase|]. split; [exact Hcommit|].
  split; [exact Htree|]. cbv zeta. fold nt.
  split; [reflexivity|]. split.
  - rewrite Hhost5, Hhost4, Hhost3, Hhost2.
    rewrite !insert_insert_eq. reflexivity.
  - rewrite Hsent5, Hsent4, Hsent3, Hsent2, Hsent1.
    rewrite <- !app_assoc. reflexivity.
Qed.

(** What the host answers to the update of the ref once the objects are
    made: the branch is there and the commit is, so it moves the branch. *)
Lemma serve_patch_made owner rp branch rp0 base bs objs nc t ps m :
  refs rp0 !! branch = Some base ->
  serve (PatchRef owner rp branch (Oid nc))
        (mkRepo bs (<[nc := Commit t ps m]> objs) (refs rp0))
  = Some (RefJson (Oid nc),
          mkRepo bs (<[nc := Commit t ps m]> objs)
            (<[branch := nc]> (refs rp0))).
Proof.
  intros Hbase. simpl. rewrite Hbase. unfold as_commit. simpl.
  now rewrite lookup_insert_eq.
Qed.

(** What a run of [createCommit] that returns has done. *)
Lemma createCommit_ok owner rp branch message files w c w' :
  createCommit owner rp branch message files w = (Ok c, w') ->
  exists rp0 base t ps m0 old,
    host w !! (owner, rp) = Some rp0
    /\ refs rp0 !! branch = Some base
    /\ objects rp0 !! base = Some (Commit t ps m0)
    /\ objects rp0 !! t = Some (Tree old)
    /\ let nt := fresh_id rp0 in
       let objs1 := <[nt := Tree (overlay old files)]> (objects rp0) in
       let nc := fresh (dom objs1) in
       c = Oid nc
       /\ host w'
          = <[(owner, rp) :=
                mkRepo (list_to_set (map content files) ∪ blobs rp0)
                  (<[nc := Commit nt [base] message]> objs1)
                  (<[branch := nc]> (refs rp0))]> (host w)
       /\ sent w'
          = sent w
            ++ [GetRef owner rp branch; GetCommit owner rp (Oid base)]
            ++ map (fun f => PostBlob owner rp (content f)) files
            ++ [PostTree owner rp (Oid t) (map entry_of files);
                PostCommit owner rp message (Oid nt) [Oid base];
                PatchRef owner rp branch (Oid nc)].
Proof.
  rewrite createCommit_split. intros H.
  apply bind_ok_inv in H as (c1 & w1 & Ho & H).
  apply commit_objects_ok in Ho
    as (rp0 & base & t & ps & m0 & old & Hh0 & Hbase & Hcommit & Htree
        & Hrest).
  cbv zeta in Hrest. destruct Hrest as (-> & Hhost1 & Hsent1).
  apply bind_ok_inv in H as (patched & w2 & Hf & H).
  apply fetch_ok in Hf as (rp7 & rp8 & Hh & Hs & Hhost2 & Hsent2).
  cbn [request_repo] in Hh, Hhost2. rewrite Hhost1, lookup_insert_eq in Hh.
  inversion Hh; subst rp7. clear Hh.
  rewrite (serve_patch_made _ _ _ _ _ _ _ _ _ _ _ Hbase) in Hs.
  inversion Hs; subst patched rp8. clear Hs.
  simpl in H. inversion H; subst c w2. clear H.
  exists rp0, base, t, ps, m0, old.
  split; [exact Hh0|]. split; [exact Hbase|]. split; [exact Hcommit|].
  split; [exact Htree|]. cbv zeta.
  split; [reflexivity|]. split.
  - rewrite Hhost2, Hhost1, insert_insert_eq. reflexivity.
  - rewrite Hsent2, Hsent1, <- !app_assoc. reflexivity.
Qed.


Lemma overlay_other old files p :
  ~ In p (map path files) -> overlay old files !! p = old !! p.
Proof.
  unfold overlay. revert old.
  induction files as [|f files IH]; intros old Hp; simpl.
  - reflexivity.
  - rewrite IH by (intros H; apply Hp; now right).
    apply lookup_insert_ne. intros Heq. apply Hp. now left.
Qed.

Lemma overlay_file old files f :
  List.NoDup (map path files) -> In f files ->
  overlay old files !! path f = Some (content f).
Proof.
  unfold overlay. revert old.
  induction files as [|g files IH]; intros old Hnd Hin; simpl.
  - destruct Hin.
  - inversion Hnd as [|? ? Hg Hnd']; subst.
    destruct Hin as [->|Hin].
    + fold (overlay (<[path f := content f]> old) files).
      rewrite overlay_other by exact Hg. apply lookup_insert_eq.
    + now apply IH.
Qed.

Lemma changed_paths_spec t1 t2 p :
  p ∈ changed_paths t1 t2 <-> t1 !! p ≠ t2 !! p.
Proof.
  unfold changed_paths. rewrite elem_of_filter, elem_of_union, !elem_of_dom.
  split; [tauto|]. intros H. split; [exact H|].
  destruct (t1 !! p) eqn:H1; [left; eauto|].
  destruct (t2 !! p) eqn:H2; [right; eauto|]. now elim H.
Qed.

Lemma changed_paths_overlay old files :
  List.NoDup (map path files) ->
  changed_paths (overlay old files) old
  = list_to_set (map path (List.filter (differs old) files)).
Proof.
  intros Hnd. apply set_eq. intros p.
  rewrite changed_paths_spec, elem_of_list_to_set, list_elem_of_In, in_map_iff.
  split.
  - intros Hne.
    destruct (decide (p ∈ map path files)) as [Hin|Hout];
      rewrite list_elem_of_In in *.
    + apply in_map_iff in Hin as (f & <- & Hf). exists f.
      split; [reflexivity|]. apply filter_In. split; [exact Hf|].
      unfold differs. apply bool_decide_eq_true_2.
      rewrite (overlay_file old files f Hnd Hf) in Hne. congruence.
    + now rewrite overlay_other in Hne.
  - intros (f & <- & Hf). apply filter_In in Hf as [Hf Hd].
    unfold differs in Hd. apply bool_decide_eq_true in Hd.
    rewrite (overlay_file old files f Hnd Hf). congruence.
Qed.

Lemma NoDup_map_filter {A B} (g : A -> B) (p : A -> bool) (l : list A) :
  List.NoDup (map g l) -> List.NoDup (map g (List.filter p l)).
Proof.
  induction l as [|x l IH]; simpl; intros H; [constructor|].
  inversion H as [|? ? Hx Hl]; subst.
  destruct (p x); simpl; [|now apply IH].
  constructor; [|now apply IH].
  intros Hin. apply Hx. apply in_map_iff in Hin as (y & Hy & Hin).
  apply in_map_iff. exists y. split; [exact Hy|].
  now apply filter_In in Hin as [Hin _].
Qed.

Lemma changed_paths_size old files :
  List.NoDup (map path files) ->
  size (changed_paths (overlay old files) old)
  = length (List.filter (differs old) files).
Proof.
  intros Hnd. rewrite changed_paths_overlay by exact Hnd.
  rewrite size_list_to_set.
  - apply length_map.
  - apply NoDup_ListNoDup. now apply NoDup_map_filter.
Qed.


Lemma no_commit_among_blobs owner rp files :
  List.filter is_post_commit
    (map (fun f => PostBlob owner rp (content f)) files) = [].
Proof. induction files as [|f files IH]; simpl; [reflexivity|exact IH]. Qed.

(** C3, as the code has it. A run of [createCommit] on files with distinct
    paths that returns has sent one create-commit request and made one new
    commit, whose parent is the commit the branch pointed to and whose tree
    is the parent's tree with every pending file laid over it; the branch
    points to the new commit.  The two trees differ exactly at the paths
    of the pending files whose content is not already the parent's: at
    most K entries, and K when every pending file brings new content. *)
Theorem commit_layers_pending_files owner rp branch message files w c w' :
  NoDup (map path files) ->
  createCommit owner rp branch message files w = (Ok c, w') ->
  exists rp0 rp1 base n old new,
    host w !! (owner, rp) = Some rp0
    /\ host w' !! (owner, rp) = Some rp1
    /\ refs rp0 !! branch = Some base
    /\ commit_files rp0 base = Some old
    /\ c = Oid n
    /\ objects rp0 !! n = None
    /\ (exists t, objects rp1 !! n = Some (Commit t [base] message))
    /\ (forall k, is_commit rp1 k <-> is_commit rp0 k \/ k = n)
    /\ length (List.filter is_post_commit
                 (drop (length (sent w)) (sent w'))) = 1%nat
    /\ commit_files rp1 n = Some new
    /\ refs rp1 !! branch = Some n
    /\ new = overlay old files
    /\ changed_paths new old
       = list_to_set (map path (List.filter (differs old) files))
    /\ size (changed_paths new old)
       = length (List.filter (differs old) files)
    /\ (size (changed_paths new old) <= length files)%nat
    /\ (forallb (differs old) files = true ->
        size (changed_paths new old) = length files).
Proof.
  intros Hnd Hrun. apply NoDup_ListNoDup in Hnd.
  destruct (createCommit_ok _ _ _ _ _ _ _ _ Hrun)
    as (rp0 & base & t & ps & m0 & old & Hh0 & Hbase & Hcommit & Htree & Hrest).
  cbv zeta in Hrest. unfold fresh_id in Hrest.
  destruct Hrest as (Hc & Hhost & Hsent).
  set (nt := fresh (dom (objects rp0))) in *.
  set (objs1 := <[nt := Tree (overlay old files)]> (objects rp0)) in *.
  set (nc := fresh (dom objs1)) in *.
  assert (Hnt : objects rp0 !! nt = None)
    by (apply not_elem_of_dom, is_fresh).
  assert (Hnc1 : objs1 !! nc = None)
    by (apply not_elem_of_dom, is_fresh).
  assert (Hne : nc <> nt).
  { intros Heq. rewrite Heq in Hnc1. unfold objs1 in Hnc1.
    now rewrite lookup_insert_eq in Hnc1. }
  assert (Hnc0 : objects rp0 !! nc = None).
  { unfold objs1 in Hnc1. now rewrite lookup_insert_ne in Hnc1 by congruence. }
  eexists rp0, _, base, nc, old, (overlay old files).
  split; [exact Hh0|]. split; [rewrite Hhost; apply lookup_insert_eq|].
  split; [exact Hbase|].
  split; [unfold commit_files, as_tree; now rewrite Hcommit, Htree|].
  split; [exact Hc|]. split; [exact Hnc0|]. cbn [objects refs].
  split; [exists nt; apply lookup_insert_eq|].
  split.
  { intros k. unfold is_commit. cbn [objects].
    destruct (decide (k = nc)) as [->|Hk].
    - rewrite lookup_insert_eq. split; [now right|]. intros _. eauto.
    - rewrite lookup_insert_ne by congruence. unfold objs1.
      destruct (decide (k = nt)) as [->|Hk'].
      + rewrite lookup_insert_eq, Hnt. split.
        * intros (? & ? & ? & [=]).
        * intros [(? & ? & ? & [=])|]; congruence.
      + rewrite lookup_insert_ne by congruence. split; [now left|].
        intros [H|]; [exact H|congruence]. }
  split.
  { rewrite Hsent, drop_app_length.
    rewrite !List.filter_app, no_commit_among_blobs. reflexivity. }
  split.
  { unfold commit_files, as_tree. cbn [objects].
    rewrite lookup_insert_eq, lookup_insert_ne by congruence.
    unfold objs1. now rewrite lookup_insert_eq. }
  split; [apply lookup_insert_eq|]. split; [reflexivity|].
  split; [now apply changed_paths_overlay|].
  split; [now apply changed_paths_size|].
  split.
  { rewrite changed_paths_size by exact Hnd. apply List.filter_length_le. }
  intros Hall. rewrite changed_paths_size by exact Hnd.
  f_equal. apply forallb_filter_id. exact Hall.
Qed.


Lemma run_two_returns : run_two = (Ok (Oid 3), snd run_two).
Proof. vm_compute. reflexivity. Qed.

Lemma commit_layers_pending_files_witness :
  exists rp1 old new,
    host (snd run_two) !! (owner0, js "de") = Some rp1
    /\ refs rp1 !! branch0 = Some 3%nat
    /\ commit_files rp1 3 = Some new
    /\ new = overlay old [same_readme; new_insights]
    /\ size (changed_paths new old)
       = length (List.filter (differs old) [same_readme; new_insights]).
Proof.
  destruct (commit_layers_pending_files owner0 (js "de") branch0
              (js "updates") [same_readme; new_insights] net0 (Oid 3)
              (snd run_two))
    as (rp0 & rp1 & base & n & old & new & H0 & H1 & H2 & H3 & H4 & H5 & H6
        & H7 & H8 & H9 & H10 & H11 & H12 & H13 & H14 & H15).
  - apply (bool_decide_unpack _). vm_compute. exact I.
  - exact run_two_returns.
  - inversion H4; subst n. exists rp1, old, new. auto.
Defined.

(** On the sample repository the run with two files, one of them unchanged,
    makes a tree that differs from the parent's in one entry. *)
Example one_of_two_files_differs :
  fst run_two = Ok (Oid 3)
  /\ entries_changed net0 1 (snd run_two) 3 (owner0, js "de") = Some 1%nat.
Proof. split; vm_compute; reflexivity. Qed.

(** C3, as stated, fails when a pending file holds what the parent's tree
    already has at its path: the run with that one file returns, the branch
    points to the new commit, and the tree of the new commit differs from
    the parent's in no entry. *)
Lemma unchanged_file_is_no_difference :
  length [same_readme] = 1%nat
  /\ fst run_same = Ok (Oid 3)
  /\ branch_head (snd run_same) (owner0, js "de") branch0 = Some 3%nat
  /\ branch_head net0 (owner0, js "de") branch0 = Some 1%nat
  /\ entries_changed net0 1 (snd run_same) 3 (owner0, js "de") = Some 0%nat.
Proof.
  split; [reflexivity|]. split; [vm_compute; reflexivity|].
  split; [vm_compute; reflexivity|]. split; vm_compute; reflexivity.
Qed.

(** C4.  [createCommit] moves the branch with its last request, and only
    with that one.  Every request before it moves no ref.  If a step
    before the last fails, the call throws with the update of the ref not
    sent and every ref of the host where it was.  Once the update is sent
    it is the last request, and either it is not carried out (the call
    throws and every ref is where it was), or the branch points to the new
    commit, whose tree is the base tree with every pending file laid over
    it, and no other ref has moved; the call then returns the new commit,
    or throws when the answer to the update is lost.  In no outcome does
    the branch point to a commit with only some of the files. *)
Theorem ref_update_is_last owner rp branch message files (w : net) :
  let r := createCommit owner rp branch message files w in
  exists reqs,
    forallb no_ref_update reqs = true
    /\ ((exists e,
            fst r = Throw e
            /\ sent (snd r) = sent w ++ reqs
            /\ all_refs (snd r) = all_refs w)
        \/ (exists n rp0 base old,
               sent (snd r)
               = sent w ++ reqs ++ [PatchRef owner rp branch (Oid n)]
               /\ host w !! (owner, rp) = Some rp0
               /\ refs rp0 !! branch = Some base
               /\ commit_files rp0 base = Some old
               /\ ((exists e,
                       fst r = Throw e /\ all_refs (snd r) = all_refs w)
                   \/ ((fst r = Ok (Oid n) \/ exists e, fst r = Throw e)
                       /\ exists rp1,
                            host (snd r) !! (owner, rp) = Some rp1
                            /\ refs rp1 !! branch = Some n
                            /\ commit_files rp1 n = Some (overlay old files)
                            /\ all_refs (snd r)
                               = <[(owner, rp) := <[branch := n]> (refs rp0)]>
                                   (all_refs w))))).
Proof.
  cbv zeta. rewrite createCommit_split. unfold bind.
  destruct (quiet_commit_objects owner rp branch message files w)
    as (reqs0 & Hs0 & Hq0 & Hr0).
  destruct (commit_objects owner rp branch message files w)
    as [[c|e] w1] eqn:Ho; cbn [fst snd] in *.
  2:{ exists reqs0. split; [exact Hq0|]. left. exists e. auto. }
  apply commit_objects_ok in Ho
    as (rp0 & base & t & ps & m0 & old & Hh0 & Hbase & Hcommit & Htree
        & Hrest).
  cbv zeta in Hrest. unfold fresh_id in Hrest.
  destruct Hrest as (-> & Hhost1 & Hsent1).
  set (nt := fresh (dom (objects rp0))) in *.
  set (objs1 := <[nt := Tree (overlay old files)]> (objects rp0)) in *.
  set (nc := fresh (dom objs1)) in *.
  assert (Hnc1 : objs1 !! nc = None)
    by (apply not_elem_of_dom, is_fresh).
  assert (Hne : nc <> nt).
  { intros Heq. rewrite Heq in Hnc1. unfold objs1 in Hnc1.
    now rewrite lookup_insert_eq in Hnc1. }
  exists ([GetRef owner rp branch; GetCommit owner rp (Oid base)]
            ++ map (fun f => PostBlob owner rp (content f)) files
            ++ [PostTree owner rp (Oid t) (map entry_of files);
                PostCommit owner rp message (Oid nt) [Oid base]]).
  split.
  { rewrite !forallb_app. simpl.
    rewrite andb_true_r. apply forallb_forall.
    intros rq Hin. apply in_map_iff in Hin as (f & <- & _). reflexivity. }
  right. exists nc, rp0, base, old.
  assert (Hold : commit_files rp0 base = Some old)
    by (unfold commit_files, as_tree; now rewrite Hcommit, Htree).
  assert (Hmoved :
    forall w2 rp' resp,
      serve (PatchRef owner rp branch (Oid nc))
            (mkRepo (list_to_set (map content files) ∪ blobs rp0)
               (<[nc := Commit nt [base] message]> objs1) (refs rp0))
      = Some (resp, rp') ->
      host w2 = <[(owner, rp) := rp']> (host w1) ->
      exists rp1,
        host w2 !! (owner, rp) = Some rp1
        /\ refs rp1 !! branch = Some nc
        /\ commit_files rp1 nc = Some (overlay old files)
        /\ all_refs w2
           = <[(owner, rp) := <[branch := nc]> (refs rp0)]> (all_refs w)).
  { intros w2 rp' resp Hs Hhost2.
    rewrite (serve_patch_made _ _ _ _ _ _ _ _ _ _ _ Hbase) in Hs.
    inversion Hs; subst resp rp'. clear Hs.
    eexists. split; [rewrite Hhost2; apply lookup_insert_eq|].
    cbn [refs objects].
    split; [apply lookup_insert_eq|]. split.
    - unfold commit_files, as_tree. cbn [objects].
      rewrite lookup_insert_eq, lookup_insert_ne by congruence.
      unfold objs1. now rewrite lookup_insert_eq.
    - unfold all_refs. rewrite Hhost2, Hhost1, insert_insert_eq, fmap_insert.
      reflexivity. }
  destruct (fetch_cases (PatchRef owner rp branch (Oid nc)) w1)
    as [(e & ->)|[(rp7 & resp & rp' & e & Hh & Hs & ->)
                 |(rp7 & resp & rp' & Hh & Hs & ->)]];
    cbn [fst snd sent host ret request_repo] in *.
  - split; [rewrite Hsent1, <- !app_assoc; reflexivity|].
    split; [exact Hh0|]. split; [exact Hbase|]. split; [exact Hold|].
    left. exists e. split; [reflexivity|]. unfold all_refs. cbn [host].
    exact Hr0.
  - rewrite Hhost1, lookup_insert_eq in Hh. inversion Hh; subst rp7.
    split; [rewrite Hsent1, <- !app_assoc; reflexivity|].
    split; [exact Hh0|]. split; [exact Hbase|]. split; [exact Hold|].
    right. split; [right; now exists e|].
    exact (Hmoved (mkNet (<[(owner, rp) := rp']> (host w1))
                     (tail (faults w1))
                     (sent w1 ++ [PatchRef owner rp branch (Oid nc)]))
                  rp' resp Hs eq_refl).
  - rewrite Hhost1, lookup_insert_eq in Hh. inversion Hh; subst rp7.
    split; [rewrite Hsent1, <- !app_assoc; reflexivity|].
    split; [exact Hh0|]. split; [exact Hbase|]. split; [exact Hold|].
    right. split; [now left|].
    exact (Hmoved (mkNet (<[(owner, rp) := rp']> (host w1))
                     (tail (faults w1))
                     (sent w1 ++ [PatchRef owner rp branch (Oid nc)]))
                  rp' resp Hs eq_refl).
Qed.

(** On the sample repository: when the answer to the request that makes
    the tree is lost, the run throws with the branch where it was; when the
    answer to the update of the ref is lost, the run throws and the branch
    is at the new commit, which holds both files. *)
Example lost_answers :
  fst (run_lost 5) = Throw lost
  /\ length (sent (snd (run_lost 5))) = 5%nat
  /\ branch_head (snd (run_lost 5)) (owner0, js "de") branch0 = Some 1%nat
  /\ fst (run_lost 7) = Throw lost
  /\ branch_head (snd (run_lost 7)) (owner0, js "de") branch0 = Some 3%nat
  /\ entries_changed net0 1 (snd (run_lost 7)) 3 (owner0, js "de")
     = Some 1%nat.
Proof. repeat split; vm_compute; reflexivity. Qed.

End GitHubFacts.

(** ** The matcher, the parser and the mutator, further *)

Module RegexFacts.
Import JS Regex Eff EffFacts.
Import RegexSpec.

Lemma strip_prefix_app (l s : jsstring) : strip_prefix l (l ++ s) = Some s.
Proof.
  induction l as [|a l IH]; simpl; [reflexivity|].
  now rewrite N.eqb_refl.
Qed.

Lemma strip_prefix_spec (l s r : jsstring) :
  strip_prefix l s = Some r -> s = l ++ r.
Proof.
  revert s. induction l as [|a l IH]; intros s; simpl.
  - now intros [= ->].
  - destruct s as [|b s]; [discriminate|].
    destruct (a =? b) eqn:Hab; [|discriminate].
    apply N.eqb_eq in Hab. subst b. intros H. now rewrite (IH s H).
Qed.

Lemma strip_prefix_none_app (l s r : jsstring) :
  strip_prefix l s = None -> (length l <= length s)%nat ->
  strip_prefix l (s ++ r) = None.
Proof.
  revert s. induction l as [|a l IH]; intros s; simpl; [discriminate|].
  destruct s as [|b s]; simpl; [lia|].
  destruct (a =? b); [|reflexivity].
  intros Hs Hl. apply IH; [exact Hs|lia].
Qed.

Lemma take_length_app (l r : jsstring) :
  take (length (l ++ r) - length r) (l ++ r) = l.
Proof.
  rewrite length_app.
  replace (length l + length r - length r)%nat with (length l) by lia.
  now rewrite take_app_length.
Qed.

Section Sound.
Context {R : Type}.

Lemma star_greedy_sound (p : N -> bool) (k : @cont R) s c res :
  star_greedy p k s c = Some res ->
  exists m s', s = m ++ s' /\ forallb p m = true /\ k s' c = Some res.
Proof.
  induction s as [|x s IH]; simpl.
  - intros H. now exists [], [].
  - destruct (p x) eqn:Hp.
    + destruct (star_greedy p k s c) as [r|] eqn:Hs.
      * intros [= <-]. destruct (IH eq_refl) as (m & s' & -> & Hm & Hk).
        exists (x :: m), s'. simpl. now rewrite Hp, Hm.
      * intros H. now exists [], (x :: s).
    + intros H. now exists [], (x :: s).
Qed.

Lemma star_lazy_sound (p : N -> bool) (k : @cont R) s c res :
  star_lazy p k s c = Some res ->
  exists m s', s = m ++ s' /\ forallb p m = true /\ k s' c = Some res.
Proof.
  induction s as [|x s IH]; simpl.
  - destruct (k [] c) eqn:Hk; [|discriminate].
    intros [= <-]. now exists [], [].
  - destruct (k (x :: s) c) as [r|] eqn:Hk.
    + intros [= <-]. now exists [], (x :: s).
    + destruct (p x) eqn:Hp; [|discriminate].
      intros H. destruct (IH H) as (m & s' & -> & Hm & Hk').
      exists (x :: m), s'. simpl. now rewrite Hp, Hm.
Qed.

(** Whatever the matcher hands to its continuation is the rest of the
    subject after a text that the pattern matches. *)
Lemma mexec_sound (r : regex) : forall (k : @cont R) s c res,
  mexec r k s c = Some res ->
  exists m s' c', s = m ++ s' /\ matches r m /\ k s' c' = Some res.
Proof.
  induction r as [l|p|g p|r1 IH1 r2 IH2|r1 IH1 r2 IH2|n r IH];
    intros k s c res; cbn [mexec].
  - destruct (strip_prefix l s) as [s'|] eqn:Hs; [|discriminate].
    intros H. apply strip_prefix_spec in Hs.
    exists l, s', c. split; [exact Hs|]. split; [constructor|exact H].
  - destruct s as [|x s]; [discriminate|].
    destruct (p x) eqn:Hp; [|discriminate].
    intros H. exists [x], s, c. split; [reflexivity|].
    split; [now constructor|exact H].
  - destruct g; intros H.
    + apply star_greedy_sound in H as (m & s' & -> & Hm & Hk).
      exists m, s', c. split; [reflexivity|]. split; [now constructor|exact Hk].
    + apply star_lazy_sound in H as (m & s' & -> & Hm & Hk).
      exists m, s', c. split; [reflexivity|]. split; [now constructor|exact Hk].
  - intros H. apply IH1 in H as (m1 & s1 & c1 & -> & Hm1 & H).
    apply IH2 in H as (m2 & s2 & c2 & -> & Hm2 & H).
    exists (m1 ++ m2), s2, c2. split; [now rewrite app_assoc|].
    split; [now constructor|exact H].
  - destruct (mexec r1 k s c) as [x|] eqn:H1.
    + intros [= <-]. apply IH1 in H1 as (m & s' & c' & -> & Hm & H).
      exists m, s', c'. split; [reflexivity|].
      split; [now apply matches_alt_l|exact H].
    + intros H. apply IH2 in H as (m & s' & c' & -> & Hm & H).
      exists m, s', c'. split; [reflexivity|].
      split; [now apply matches_alt_r|exact H].
  - intros H. apply IH in H as (m & s' & c' & -> & Hm & H).
    eexists m, s', _. split; [reflexivity|].
    split; [now constructor|exact H].
Qed.

(** With it come captures that hold what their groups matched. *)
Lemma mexec_captures (P : nat -> jsstring -> Prop) (r : regex) :
  groups_hold P r ->
  forall (k : @cont R) s c res,
    mexec r k s c = Some res ->
    exists m s' c',
      s = m ++ s' /\ matches r m /\ k s' c' = Some res
      /\ (captures_hold P c -> captures_hold P c').
Proof.
  induction r as [l|p|g p|r1 IH1 r2 IH2|r1 IH1 r2 IH2|n r IH];
    intros Hg k s c res; cbn [mexec].
  - destruct (strip_prefix l s) as [s'|] eqn:Hs; [|discriminate].
    intros H. apply strip_prefix_spec in Hs.
    exists l, s', c. split; [exact Hs|]. split; [constructor|]. now split.
  - destruct s as [|x s]; [discriminate|].
    destruct (p x) eqn:Hp; [|discriminate].
    intros H. exists [x], s, c. split; [reflexivity|].
    split; [now constructor|]. now split.
  - destruct g; intros H.
    + apply star_greedy_sound in H as (m & s' & -> & Hm & Hk).
      exists m, s', c. split; [reflexivity|]. split; [now constructor|].
      now split.
    + apply star_lazy_sound in H as (m & s' & -> & Hm & Hk).
      exists m, s', c. split; [reflexivity|]. split; [now constructor|].
      now split.
  - destruct Hg as [Hg1 Hg2].
    intros H. apply (IH1 Hg1) in H as (m1 & s1 & c1 & -> & Hm1 & H & Hc1).
    apply (IH2 Hg2) in H as (m2 & s2 & c2 & -> & Hm2 & H & Hc2).
    exists (m1 ++ m2), s2, c2. split; [now rewrite app_assoc|].
    split; [now constructor|]. split; [exact H|]. auto.
  - destruct Hg as [Hg1 Hg2].
    destruct (mexec r1 k s c) as [x|] eqn:H1.
    + intros [= <-]. apply (IH1 Hg1) in H1 as (m & s' & c' & -> & Hm & H & Hc).
      exists m, s', c'. split; [reflexivity|].
      split; [now apply matches_alt_l|]. now split.
    + intros H. apply (IH2 Hg2) in H as (m & s' & c' & -> & Hm & H & Hc).
      exists m, s', c'. split; [reflexivity|].
      split; [now apply matches_alt_r|]. now split.
  - destruct Hg as [Hg Hn].
    intros H. apply (IH Hg) in H as (m & s' & c' & -> & Hm & H & Hc).
    eexists m, s', _. split; [reflexivity|].
    split; [now constructor|]. split; [exact H|].
    intros Hc0. constructor; [|now apply Hc].
    cbn [fst snd]. rewrite take_length_app. now apply Hn.
Qed.
End Sound.

Lemma search_captures (P : nat -> jsstring -> Prop) (r : regex) s f :
  groups_hold P r -> search r s = Some f -> captures_hold P (f_caps f).
Proof.
  intros Hg.
  assert (Hhere : forall s0 rest c,
             exec_at r s0 = Some (rest, c) -> captures_hold P c).
  { intros s0 rest c He. unfold exec_at in He.
    apply (mexec_captures P r Hg) in He
      as (m & s' & c' & _ & _ & [= _ <-] & Hc).
    apply Hc. constructor. }
  revert f. induction s as [|x s IH]; intros f; cbn [search].
  - destruct (exec_at r []) as [[rest c]|] eqn:He; [|discriminate].
    intros [= <-]. cbn [f_caps]. now apply (Hhere [] rest).
  - destruct (exec_at r (x :: s)) as [[rest c]|] eqn:He.
    + intros [= <-]. cbn [f_caps]. now apply (Hhere (x :: s) rest).
    + destruct (search r s) as [f'|]; [|discriminate].
      intros [= <-]. cbn [f_caps]. now apply IH.
Qed.

Lemma capture_In (n : nat) (c : captures) (t : jsstring) :
  capture n c = Some t -> In (n, t) c.
Proof.
  induction c as [|[m u] c IH]; cbn [capture]; [discriminate|].
  destruct (Nat.eqb m n) eqn:Hm.
  - apply Nat.eqb_eq in Hm. subst m. intros [= ->]. now left.
  - intros H. right. now apply IH.
Qed.

Lemma exec_at_sound (r : regex) s rest c :
  exec_at r s = Some (rest, c) -> exists m, s = m ++ rest /\ matches r m.
Proof.
  unfold exec_at. intros H.
  apply mexec_sound in H as (m & s' & c' & -> & Hm & [= -> ->]).
  now exists m.
Qed.

Lemma exec_at_take (r : regex) s rest c :
  exec_at r s = Some (rest, c) ->
  s = take (length s - length rest) s ++ rest
  /\ matches r (take (length s - length rest) s).
Proof.
  intros H. apply exec_at_sound in H as (m & -> & Hm).
  rewrite take_length_app. now split.
Qed.

(** A match found by [search] splits the subject into the text before it,
    a text that the pattern matches, and the text after it. *)
Lemma search_sound (r : regex) s f :
  search r s = Some f ->
  s = f_before f ++ f_matched f ++ f_after f /\ matches r (f_matched f).
Proof.
  revert f. induction s as [|x s IH]; intros f; cbn [search].
  - destruct (exec_at r []) as [[rest c]|] eqn:He; [|discriminate].
    intros [= <-]. cbn [f_before f_matched f_after].
    apply exec_at_take in He as [Hs Hm]. now split.
  - destruct (exec_at r (x :: s)) as [[rest c]|] eqn:He.
    + intros [= <-]. cbn [f_before f_matched f_after].
      apply exec_at_take in He as [Hs Hm]. now split.
    + destruct (search r s) as [f'|] eqn:Hs; [|discriminate].
      intros [= <-]. cbn [f_before f_matched f_after].
      destruct (IH f' eq_refl) as [Hsplit Hm].
      split; [|exact Hm]. cbn. now rewrite <- Hsplit.
Qed.

End RegexFacts.

Module ParserFacts.
Import JS Regex Eff EffFacts.
Import RegexSpec RegexFacts Ledger LedgerSpec Agent.

Local Arguments js : simpl never.

Lemma trimStart_no_space (s : jsstring) :
  match trimStart s with x :: _ => is_space x = false | [] => True end.
Proof.
  induction s as [|x s IH]; cbn [trimStart]; [exact I|].
  destruct (is_space x) eqn:Hx; [exact IH|exact Hx].
Qed.

Lemma trimStart_suffix (s : jsstring) : exists sp, s = sp ++ trimStart s.
Proof.
  induction s as [|x s [sp IH]]; cbn [trimStart]; [now exists []|].
  destruct (is_space x); [|now exists []].
  exists (x :: sp). cbn [app]. now rewrite <- IH.
Qed.

Lemma trim_ends (s : jsstring) :
  match trim s with x :: _ => is_space x = false | [] => True end
  /\ match rev (trim s) with x :: _ => is_space x = false | [] => True end.
Proof.
  unfold trim, trimEnd. split.
  - pose proof (trimStart_no_space s) as Hhead.
    destruct (trimStart_suffix (rev (trimStart s))) as [sp Hsp].
    apply (f_equal (@rev N)) in Hsp.
    rewrite rev_involutive, rev_app_distr in Hsp.
    destruct (rev (trimStart (rev (trimStart s)))) as [|x a]; [exact I|].
    rewrite Hsp in Hhead. exact Hhead.
  - rewrite rev_involutive. apply trimStart_no_space.
Qed.

Lemma glyph_matches (m : jsstring) :
  matches glyph_re m ->
  In m [glyph_open; glyph_answered; glyph_closed; glyph_blocked].
Proof.
  unfold glyph_re. intros H.
  repeat match goal with
         | H : matches (Group _ _) _ |- _ => inversion H; subst; clear H
         | H : matches (Alt _ _) _ |- _ => inversion H; subst; clear H
         | H : matches (Lit _) _ |- _ => inversion H; subst; clear H
         end; simpl; tauto.
Qed.

Lemma read_line_status (q : QAQuestion) (line : jsstring) :
  status_is_glyph q -> status_is_glyph (read_line q line).
Proof.
  intros Hq. unfold read_line.
  destruct (startsWith line (js "**From**:")).
  { destruct (search from_to_re line); exact Hq. }
  destruct (startsWith line (js "**Status**:")).
  { unfold status_is_glyph. cbn [status]. unfold match0.
    destruct (search glyph_re line) as [f|] eqn:Hs; [|now left].
    right. exists (f_matched f). split; [|reflexivity].
    apply glyph_matches. now apply search_sound in Hs as [_ Hm]. }
  destruct (startsWith line (js "**Question**:")); [exact Hq|].
  destruct (startsWith line (js "**Answer**:")); [|exact Hq].
  destruct (negb _); exact Hq.
Qed.

Lemma read_block_status (block : jsstring) : status_is_glyph (read_block block).
Proof.
  unfold read_block.
  assert (H : status_is_glyph (question_init block)) by now left.
  revert H. generalize (question_init block).
  induction (block_lines block) as [|l ls IH]; intros q Hq; simpl.
  - exact Hq.
  - apply IH. now apply read_line_status.
Qed.

Lemma parsed_is_read_block (markdown : jsstring) (q : QAQuestion) :
  In q (parseQABoard markdown) ->
  exists block, In block (questionBlocks markdown) /\ q = read_block block.
Proof.
  unfold parseQABoard. rewrite LedgerFacts.parse_step_fold. simpl.
  intros H. apply in_map_iff in H as (b & <- & Hb).
  apply filter_In in Hb as [Hb _]. now exists b.
Qed.

Lemma glyph_is_not_a_status_text g :
  In g [glyph_open; glyph_answered; glyph_closed; glyph_blocked] ->
  g <> status_open /\ g <> status_answered.
Proof.
  simpl. intros [<-|[<-|[<-|[<-|[]]]]]; split; intros H;
    apply (f_equal length) in H; vm_compute in H; discriminate.
Qed.

Lemma filters_keep_nothing (markdown : jsstring) (t : TeamConfig) :
  List.filter (is_open_for t) (parseQABoard markdown) = []
  /\ List.filter (is_answered_for t) (parseQABoard markdown) = [].
Proof.
  assert (Hall : forall q, In q (parseQABoard markdown) ->
                           is_open_for t q = false
                           /\ is_answered_for t q = false).
  { intros q Hq. apply parsed_is_read_block in Hq as (b & _ & ->).
    unfold is_open_for, is_answered_for.
    destruct (read_block_status b) as [Hn|(g & Hg & Hs)].
    - rewrite Hn. rewrite !(bool_decide_eq_false_2 (None = Some _))
        by discriminate.
      now rewrite !andb_false_r.
    - rewrite Hs. apply glyph_is_not_a_status_text in Hg as [Ho Ha].
      rewrite (bool_decide_eq_false_2 (Some g = Some status_open))
        by congruence.
      rewrite (bool_decide_eq_false_2 (Some g = Some status_answered))
        by congruence.
      now rewrite !andb_false_r. }
  split.
  - induction (parseQABoard markdown) as [|q l IH]; [reflexivity|].
    simpl. destruct (Hall q (or_introl eq_refl)) as [-> _].
    apply IH. intros q' Hq'. apply Hall. now right.
  - induction (parseQABoard markdown) as [|q l IH]; [reflexivity|].
    simpl. destruct (Hall q (or_introl eq_refl)) as [_ ->].
    apply IH. intros q' Hq'. apply Hall. now right.
Qed.

(** X1.  The status read by the parser is the glyph alone, so no parsed
    question has the status text that the Answer phase and the Review phase
    compare with: for every ledger and every team the two filters keep
    nothing. *)
Theorem phase_filters_keep_nothing (markdown : jsstring) (t : TeamConfig) :
  List.filter (is_open_for t) (parseQABoard markdown) = []
  /\ List.filter (is_answered_for t) (parseQABoard markdown) = [].
Proof. apply filters_keep_nothing. Qed.

Lemma digits_matches (m : jsstring) :
  matches digits_re m -> m <> [] /\ forallb is_digit m = true.
Proof.
  unfold digits_re, Plus. intros H.
  inversion H as [| | |r1 r2 m1 m2 H1 H2| | |]; subst.
  inversion H1; subst. inversion H2; subst.
  split; [discriminate|]. simpl.
  match goal with Hx : is_digit _ = true |- _ => rewrite Hx end.
  assumption.
Qed.

(** X2.  Every id made by the parser is [Q-] followed by one digit or
    more. *)
Theorem parsed_id_is_Q_digits (markdown : jsstring) (q : QAQuestion) :
  In q (parseQABoard markdown) ->
  exists d, id q = js "Q-" ++ d /\ d <> [] /\ forallb is_digit d = true.
Proof.
  intros Hq. apply parsed_is_read_block in Hq as (b & _ & ->).
  unfold read_block. rewrite LedgerFacts.read_lines_id.
  unfold question_init. cbn [id]. unfold match0.
  destruct (search digits_re (titleLine b)) as [f|] eqn:Hs.
  - apply search_sound in Hs as [_ Hm]. apply digits_matches in Hm as [Hne Hd].
    destruct (f_matched f) as [|x m] eqn:Hf; [now elim Hne|].
    cbn [truthy]. exists (x :: m).
    split; [reflexivity|]. split; [discriminate|exact Hd].
  - exists (js "000"). split; [reflexivity|].
    split; [intros H; vm_compute in H; discriminate|reflexivity].
Qed.

Lemma parsed_id_is_Q_digits_witness :
  exists d,
    id (hd (question_init []) (parseQABoard Samples.ledger_two))
    = js "Q-" ++ d /\ d <> [] /\ forallb is_digit d = true.
Proof.
  apply (parsed_id_is_Q_digits Samples.ledger_two).
  vm_compute. left. reflexivity.
Defined.

Lemma read_line_answer (q : QAQuestion) (line : jsstring) :
  answer_is_given q -> answer_is_given (read_line q line).
Proof.
  intros Hq. unfold read_line.
  destruct (startsWith line (js "**From**:")).
  { destruct (search from_to_re line); exact Hq. }
  destruct (startsWith line (js "**Status**:")); [exact Hq|].
  destruct (startsWith line (js "**Question**:")); [exact Hq|].
  destruct (startsWith line (js "**Answer**:")); [|exact Hq].
  destruct (startsWith _ (js "_Waiting")) eqn:Hw; cbn [negb]; [exact Hq|].
  unfold answer_is_given. cbn [answerBody]. split; [exact Hw|].
  apply trim_ends.
Qed.

(** X23.  The answer body of a parsed question, when it has one, never
    starts with the placeholder [_Waiting], and neither starts nor ends
    with white space. *)
Theorem parsed_answer_is_not_a_placeholder (markdown : jsstring) :
  Forall answer_is_given (parseQABoard markdown).
Proof.
  apply Forall_forall. intros q Hq.
  apply list_elem_of_In, parsed_is_read_block in Hq as (b & _ & ->).
  unfold read_block.
  assert (H : answer_is_given (question_init b)) by exact I.
  revert H. generalize (question_init b).
  induction (block_lines b) as [|l ls IH]; intros q Hq; simpl.
  - exact Hq.
  - apply IH. now apply read_line_answer.
Qed.

Lemma plus_matches (p : N -> bool) (m : jsstring) :
  matches (Plus p) m -> m <> [] /\ forallb p m = true.
Proof.
  unfold Plus. intros H.
  inversion H as [| | |r1 r2 m1 m2 H1 H2| | |]; subst.
  inversion H1; subst. inversion H2; subst.
  split; [discriminate|]. simpl.
  match goal with Hx : p _ = true |- _ => rewrite Hx end.
  assumption.
Qed.

Lemma lower_unit_word (c : N) :
  is_word c = true ->
  is_word (lower_unit c)
  && negb ((65 <=? lower_unit c) && (lower_unit c <=? 90)) = true.
Proof.
  unfold lower_unit. destruct ((65 <=? c) && (c <=? 90)) eqn:Hu.
  - intros _. apply andb_prop in Hu as [H1 H2].
    apply N.leb_le in H1, H2. unfold is_word.
    rewrite (proj2 (N.leb_le 97 (c + 32))) by lia.
    rewrite (proj2 (N.leb_le (c + 32) 122)) by lia.
    rewrite (proj2 (N.leb_gt (c + 32) 90)) by lia.
    now rewrite andb_false_r.
  - intros Hw. now rewrite Hw, Hu.
Qed.

Lemma lowered_word (s : jsstring) :
  s <> [] /\ forallb is_word s = true ->
  lower_word (toLowerCase_ascii s).
Proof.
  intros [Hne Hw]. unfold lower_word, toLowerCase_ascii. split.
  - destruct s; [now elim Hne|discriminate].
  - rewrite forallb_forall in Hw. apply forallb_forall.
    intros c Hc. apply in_map_iff in Hc as (c0 & <- & Hc0).
    apply lower_unit_word. now apply Hw.
Qed.

Lemma from_to_groups :
  groups_hold (fun _ m => m <> [] /\ forallb is_word m = true) from_to_re.
Proof.
  assert (Hp : forall m, matches (Plus is_word) m ->
                         m <> [] /\ forallb is_word m = true)
    by (intros m Hm; now apply plus_matches).
  unfold from_to_re, Plus. cbn [groups_hold].
  repeat match goal with
         | |- _ /\ _ => split
         | |- True => exact I
         | |- forall m, matches _ m -> _ => exact Hp
         end.
Qed.

Lemma captured_name (f : found) (line : jsstring) (n : nat) :
  search from_to_re line = Some f ->
  name_read (Some (toLowerCase_ascii (cap_text (f_caps f) n))).
Proof.
  intros Hs. apply (search_captures _ _ _ _ from_to_groups) in Hs.
  unfold cap_text, name_read.
  destruct (capture n (f_caps f)) as [t|] eqn:Hc; [|now left].
  right. apply lowered_word. apply capture_In in Hc.
  unfold captures_hold in Hs. rewrite Forall_forall in Hs.
  apply (Hs (n, t)). now apply list_elem_of_In.
Qed.

Lemma read_line_names (q : QAQuestion) (line : jsstring) :
  name_read (askedBy q) /\ name_read (askedTo q) ->
  name_read (askedBy (read_line q line))
  /\ name_read (askedTo (read_line q line)).
Proof.
  intros Hq. unfold read_line.
  destruct (startsWith line (js "**From**:")).
  { destruct (search from_to_re line) as [f|] eqn:Hs; [|exact Hq].
    cbn [askedBy askedTo]. split; now apply (captured_name f line). }
  destruct (startsWith line (js "**Status**:")); [exact Hq|].
  destruct (startsWith line (js "**Question**:")); [exact Hq|].
  destruct (startsWith line (js "**Answer**:")); [|exact Hq].
  destruct (negb _); exact Hq.
Qed.

Lemma read_block_names (block : jsstring) :
  name_read (askedBy (read_block block))
  /\ name_read (askedTo (read_block block)).
Proof.
  unfold read_block.
  assert (H : name_read (askedBy (question_init block))
              /\ name_read (askedTo (question_init block)))
    by (split; exact I).
  revert H. generalize (question_init block).
  induction (block_lines block) as [|l ls IH]; intros q Hq; simpl.
  - exact Hq.
  - apply IH. now apply read_line_names.
Qed.

Lemma parsed_is_well_formed (markdown : jsstring) (q : QAQuestion) :
  In q (parseQABoard markdown) ->
  well_formed q = true /\ exists block, q = read_block block.
Proof.
  unfold parseQABoard. rewrite LedgerFacts.parse_step_fold. simpl.
  intros H. apply in_map_iff in H as (b & <- & Hb).
  apply filter_In in Hb as [_ Hb]. split; [exact Hb|]. now exists b.
Qed.

(** X25.  The asker and the addressee of every parsed question are words
    in lower case: one or more letters, digits or underscores, with no
    ASCII capital. *)
Theorem parsed_names_are_lower_words (markdown : jsstring) :
  Forall (fun q => exists a b,
              askedBy q = Some a /\ askedTo q = Some b
              /\ lower_word a /\ lower_word b)
    (parseQABoard markdown).
Proof.
  apply Forall_forall. intros q Hq.
  apply list_elem_of_In, parsed_is_well_formed in Hq as [Hw [b ->]].
  destruct (read_block_names b) as [Hby Hto].
  unfold well_formed in Hw. apply andb_prop in Hw as [Hw Hby'].
  apply andb_prop in Hw as [_ Hto'].
  destruct (askedBy (read_block b)) as [a|]; [|discriminate].
  destruct (askedTo (read_block b)) as [t|]; [|discriminate].
  exists a, t. repeat split; try reflexivity.
  - destruct Hby as [->|[H _]]; [discriminate|exact H].
  - now destruct Hby as [->|[_ H]].
  - destruct Hto as [->|[H _]]; [discriminate|exact H].
  - now destruct Hto as [->|[_ H]].
Qed.

Lemma search_none_inv (r : regex) (x : N) (s : jsstring) :
  search r (x :: s) = None -> exec_at r (x :: s) = None /\ search r s = None.
Proof.
  cbn [search]. destruct (exec_at r (x :: s)) as [[rest c]|]; [discriminate|].
  destruct (search r s); [discriminate|]. now split.
Qed.

Lemma split_loop_no_match (r : regex) (s : jsstring) :
  search r s = None ->
  forall fuel cur, split_loop fuel r cur s = [cur ++ s].
Proof.
  induction s as [|x s IH]; intros Hs fuel cur.
  - destruct fuel; cbn; now rewrite ?app_nil_r.
  - destruct fuel as [|fuel]; [reflexivity|].
    apply search_none_inv in Hs as [He Hs]. cbn [split_loop]. rewrite He.
    rewrite (IH Hs). now rewrite <- app_assoc.
Qed.

Lemma split_no_match (r : regex) (s : jsstring) :
  search r s = None -> split r s = [s].
Proof.
  intros Hs. unfold split. destruct s as [|x s].
  - cbn [search] in Hs. destruct (exec_at r []) as [[? ?]|]; [discriminate|].
    reflexivity.
  - now rewrite (split_loop_no_match r (x :: s) Hs).
Qed.

(** X3.  A ledger in which the header pattern matches nowhere, the empty
    ledger among them, has no question. *)
Theorem no_header_no_question (markdown : jsstring) :
  match0 header_re markdown = None -> parseQABoard markdown = [].
Proof.
  unfold match0. intros H.
  assert (Hs : search header_re markdown = None)
    by (destruct (search header_re markdown); [discriminate|reflexivity]).
  unfold parseQABoard, questionBlocks. now rewrite (split_no_match _ _ Hs).
Qed.

Lemma no_header_no_question_witness :
  parseQABoard (js "# Cross-Team Q&A Board" ++ nl ++ js "## Open" ++ nl) = [].
Proof.
  apply (no_header_no_question
           (js "# Cross-Team Q&A Board" ++ nl ++ js "## Open" ++ nl)).
  vm_compute. reflexivity.
Defined.

End ParserFacts.

Module MutatorMore.
Import JS Regex Eff EffFacts.
Import RegexSpec RegexFacts Ledger LedgerSpec.

Local Arguments js : simpl never.

Lemma includes_cons (x : N) (s l : jsstring) :
  includes (x :: s) l = false ->
  startsWith (x :: s) l = false /\ includes s l = false.
Proof. cbn [includes]. intros H. now apply orb_false_elim in H. Qed.

Lemma startsWith_false (s l : jsstring) :
  startsWith s l = false -> strip_prefix l s = None.
Proof. unfold startsWith. now destruct (strip_prefix l s). Qed.

(** A pattern that begins with a literal finds nothing in a text that does
    not hold the literal. *)
Lemma search_section_absent (questionId label : jsstring) (tail : regex)
      (s : jsstring) :
  includes s (js "### [" ++ questionId ++ js "]") = false ->
  search (section_re questionId label tail) s = None.
Proof.
  induction s as [|x s IH]; intros H.
  - cbn [includes] in H. apply orb_false_elim in H as [H _].
    apply startsWith_false in H.
    cbn [search]. unfold exec_at, section_re. cbn [mexec]. now rewrite H.
  - apply includes_cons in H as [H Hs]. apply startsWith_false in H.
    cbn [search]. rewrite (IH Hs).
    unfold exec_at, section_re. cbn [mexec]. now rewrite H.
Qed.

Lemma replace_all_no_match (r : regex) (m : nat) (tpl s : jsstring) :
  search r s = None -> replace_all r m tpl s = s.
Proof. intros H. unfold replace_all. cbn [replace_loop]. now rewrite H. Qed.

(** X4.  When the ledger does not hold the header of the question, whose
    id is without pattern syntax, [updateQABoard] stores the ledger as it was
    loaded. *)
Theorem absent_header_leaves_ledger (content questionId answer timestamp
                                     displayName : jsstring) :
  plain_id questionId = true ->
  includes content (js "### [" ++ questionId ++ js "]") = false ->
  updateQABoard_text content questionId answer timestamp displayName = content.
Proof.
  intros _ H. unfold updateQABoard_text, questionPattern, statusPattern.
  rewrite (replace_all_no_match _ 1 _ content)
    by now apply search_section_absent.
  apply replace_all_no_match. now apply search_section_absent.
Qed.

Lemma absent_header_leaves_ledger_witness :
  updateQABoard_text Samples.ledger_two (js "Q-000") (js "X") Samples.date0
    Samples.de_display = Samples.ledger_two.
Proof.
  apply (absent_header_leaves_ledger Samples.ledger_two (js "Q-000") (js "X")
           Samples.date0 Samples.de_display); vm_compute; reflexivity.
Defined.


(** *** Replacing inside one section *)

Section Section_replacement.
Context {R : Type}.

Lemma star_greedy_trim (kt : @cont R) :
  (forall x s c, is_space x = true -> kt (x :: s) c = None) ->
  forall s c, star_greedy is_space kt s c = kt (trimStart s) c.
Proof.
  intros Hkt. induction s as [|x s IH]; intros c; cbn.
  - reflexivity.
  - destruct (is_space x) eqn:Hx; [|reflexivity].
    rewrite IH. destruct (kt (trimStart s) c); [reflexivity|].
    now apply Hkt.
Qed.
End Section_replacement.

Lemma star_greedy_total (p : N -> bool) (s : jsstring) (c : captures) :
  star_greedy p (fun s' c' => Some (s', c')) s c = Some (skip_while p s, c).
Proof.
  induction s as [|x s IH]; cbn; [reflexivity|].
  destruct (p x); [now rewrite IH|reflexivity].
Qed.

Lemma expand_plain (m : nat) (matched before after : jsstring)
      (caps : captures) (tpl : jsstring) :
  plain tpl = true -> expand m matched before after caps tpl = tpl.
Proof.
  unfold plain. induction tpl as [|c t IH]; cbn [expand forallb];
    [reflexivity|].
  intros Hp. apply andb_prop in Hp as [Hc Ht].
  rewrite Hc. now rewrite IH.
Qed.

Lemma expand_group_1 (matched before after g repl : jsstring) :
  plain repl = true ->
  expand 1 matched before after [(1%nat, g)] (js "$1" ++ repl) = g ++ repl.
Proof.
  intros Hp. change (js "$1") with [36; 49]. cbn [app].
  pose proof (expand_plain 1 matched before after [(1%nat, g)] repl Hp) as He.
  destruct repl as [|d2 t].
  - vm_compute. reflexivity.
  - remember (d2 :: t) as r eqn:Hr.
    cbn [expand]. rewrite He.
    change (negb (36 =? 36)) with false. cbv iota.
    change (49 =? 36) with false. change (49 =? 38) with false.
    change (49 =? 96) with false. change (49 =? 39) with false.
    change (is_digit 49) with true. cbv iota zeta.
    change (digit_val 49) with 1%nat. cbn [Nat.leb andb].
    change (cap_text [(1%nat, g)] 1) with g.
    destruct r as [|d0 t'']; [reflexivity|].
    destruct (is_digit d0); [|reflexivity].
    replace (Nat.ltb 1 (10 * 1 + digit_val d0)) with true; [reflexivity|].
    symmetry. apply Nat.ltb_lt. lia.
Qed.

Lemma expand_group_head (matched before after g repl : jsstring) :
  expand 1 matched before after [(1%nat, g)] (js "$1" ++ repl)
  = g ++ expand 1 matched before after [(1%nat, g)] repl.
Proof.
  change (js "$1") with [36; 49]. cbn [app].
  destruct repl as [|d2 t].
  - vm_compute. reflexivity.
  - remember (d2 :: t) as r eqn:Hr.
    cbn [expand].
    change (negb (36 =? 36)) with false. cbv iota.
    change (49 =? 36) with false. change (49 =? 38) with false.
    change (49 =? 96) with false. change (49 =? 39) with false.
    change (is_digit 49) with true. cbv iota zeta.
    change (digit_val 49) with 1%nat. cbn [Nat.leb andb].
    change (cap_text [(1%nat, g)] 1) with g.
    destruct r as [|d0 t'']; [reflexivity|].
    destruct (is_digit d0); [|reflexivity].
    replace (Nat.ltb 1 (10 * 1 + digit_val d0)) with true; [reflexivity|].
    symmetry. apply Nat.ltb_lt. lia.
Qed.

(** *** The first occurrence of a text *)

Lemma startsWith_take (a l : jsstring) :
  startsWith a l = true <-> take (length l) a = l.
Proof.
  unfold startsWith. split.
  - destruct (strip_prefix l a) as [r|] eqn:Hs; [|discriminate].
    intros _. apply strip_prefix_spec in Hs. subst a.
    apply take_app_length.
  - intros Ht. rewrite <- (take_drop (length l) a), Ht.
    now rewrite strip_prefix_app.
Qed.

Lemma indexOf_le (l s q x : jsstring) (i : nat) :
  indexOf s l = Some i -> s = q ++ l ++ x -> (i <= length q)%nat.
Proof.
  revert s i. induction q as [|c q IH]; intros s i Hi ->; cbn [app] in Hi.
  - cbn [indexOf] in Hi. destruct (l ++ x) eqn:Hlx.
    + cbn [indexOf] in Hi. rewrite <- Hlx in Hi.
      unfold startsWith in Hi. rewrite strip_prefix_app in Hi.
      injection Hi as <-. lia.
    + cbn [indexOf] in Hi. rewrite <- Hlx in Hi.
      unfold startsWith in Hi at 1. rewrite strip_prefix_app in Hi.
      injection Hi as <-. lia.
  - cbn [indexOf] in Hi.
    destruct (startsWith (c :: q ++ l ++ x) l); [injection Hi as <-; lia|].
    destruct (indexOf (q ++ l ++ x) l) as [i'|] eqn:Hi'; [|discriminate].
    injection Hi as <-. specialize (IH _ _ Hi' eq_refl). cbn. lia.
Qed.

Lemma indexOf_prefix (l a b : jsstring) (i : nat) :
  take (i + length l) a = take (i + length l) b ->
  indexOf a l = Some i -> indexOf b l = Some i.
Proof.
  revert a b. induction i as [|i IH]; intros a b Ht Hi.
  - cbn [Nat.add] in Ht.
    assert (Ha : startsWith a l = true).
    { destruct a; cbn [indexOf] in Hi;
        destruct (startsWith _ l); try reflexivity; try discriminate.
      destruct (indexOf a l); discriminate. }
    apply startsWith_take in Ha. rewrite Ha in Ht. symmetry in Ht.
    apply startsWith_take in Ht.
    destruct b; cbn [indexOf]; now rewrite Ht.
  - assert (Ha : startsWith a l = false).
    { destruct a; cbn [indexOf] in Hi;
        destruct (startsWith _ l); try reflexivity; discriminate. }
    destruct a as [|x a']; cbn [indexOf] in Hi; rewrite Ha in Hi;
      [discriminate|].
    destruct (indexOf a' l) as [i'|] eqn:Hi'; [|discriminate].
    injection Hi as ->.
    cbn [Nat.add take] in Ht.
    destruct b as [|y b']; [discriminate|]. cbn [take] in Ht.
    injection Ht as <- Ht.
    assert (Hb : startsWith (x :: b') l = false).
    { destruct (startsWith (x :: b') l) eqn:Hb; [|reflexivity].
      apply startsWith_take in Hb.
      assert (Hta : take (length l) (x :: a') = l).
      { transitivity (take (length l) (x :: b')); [|exact Hb].
        assert (Heq : take (length l) (take (S (i + length l)) (x :: a'))
                      = take (length l) (take (S (i + length l)) (x :: b')))
          by (cbn [take]; now rewrite Ht).
        rewrite !take_take in Heq.
        now rewrite Nat.min_l in Heq by lia. }
      apply startsWith_take in Hta. congruence. }
    cbn [indexOf]. rewrite Hb. now rewrite (IH a' b' Ht Hi').
Qed.

Section Tail.
Variable tail : regex.
Variable T : jsstring -> option jsstring.
Hypothesis tail_spec : forall s c,
  mexec tail (fun s' c' => Some (s', c')) s c
  = match T s with Some s' => Some (s', c) | None => None end.
Hypothesis tail_no_space : forall x s, is_space x = true -> T (x :: s) = None.
Variable questionId label : jsstring.

Local Abbreviation H := (header_of questionId).
Local Abbreviation pat := (section_re questionId label tail).

(** The continuation of the lazy repetition, with the capture of the group
    as a function [g] of the text after the label. *)
Lemma lazy_finds_first_anchor (g : jsstring -> jsstring) (rest : jsstring)
      (c : captures) :
  star_lazy any_unit
    (fun s2 c2 =>
       match strip_prefix label s2 with
       | Some s3 =>
           star_greedy is_space
             (fun s4 c4 => mexec tail (fun s' c' => Some (s', c')) s4 c4)
             s3 ((1%nat, g s3) :: c2)
       | None => None
       end) rest c
  = match first_anchor label T rest with
    | Some (j, post) =>
        Some (post, (1%nat, g (drop (j + length label) rest)) :: c)
    | None => None
    end.
Proof.
  assert (Hk : forall s2 c2,
             match strip_prefix label s2 with
             | Some s3 =>
                 star_greedy is_space
                   (fun s4 c4 => mexec tail (fun s' c' => Some (s', c')) s4 c4)
                   s3 ((1%nat, g s3) :: c2)
             | None => None
             end
             = match anchored label T s2 with
               | Some post =>
                   Some (post, (1%nat, g (drop (length label) s2)) :: c2)
               | None => None
               end).
  { intros s2 c2. unfold anchored.
    destruct (strip_prefix label s2) as [s3|] eqn:Hs; [|reflexivity].
    apply strip_prefix_spec in Hs. subst s2. rewrite drop_app_length.
    rewrite star_greedy_trim.
    - now rewrite tail_spec.
    - intros x s c'' Hx. rewrite tail_spec. now rewrite tail_no_space. }
  induction rest as [|x rest IH]; cbn [star_lazy first_anchor].
  - rewrite Hk. destruct (anchored label T []); reflexivity.
  - rewrite Hk. destruct (anchored label T (x :: rest)); [reflexivity|].
    cbn [any_unit]. rewrite IH.
    destruct (first_anchor label T rest) as [[j post]|]; reflexivity.
Qed.

Lemma exec_at_section (rest : jsstring) :
  exec_at pat (H ++ rest)
  = match first_anchor label T rest with
    | Some (j, post) =>
        Some (post, [(1%nat, H ++ take (j + length label) rest)])
    | None => None
    end.
Proof.
  unfold exec_at, section_re. cbn [mexec].
  fold (header_of questionId). rewrite strip_prefix_app.
  rewrite (lazy_finds_first_anchor
             (fun s3 => take (length (H ++ rest) - length s3) (H ++ rest))).
  destruct (first_anchor label T rest) as [[j post]|] eqn:Hf; [|reflexivity].
  f_equal. f_equal. f_equal. f_equal.
  rewrite length_app, length_drop.
  assert (Hj : (j + length label <= length rest)%nat).
  { clear -Hf. revert j post Hf. induction rest as [|x rest IH]; intros j post.
    - cbn. unfold anchored.
      destruct (strip_prefix label []) as [y|] eqn:Hs; [|discriminate].
      apply strip_prefix_spec in Hs. destruct label; [|discriminate].
      destruct (T (trimStart y)); [|discriminate]. intros [= <- _]. cbn. lia.
    - cbn [first_anchor]. unfold anchored at 1.
      destruct (strip_prefix label (x :: rest)) as [y|] eqn:Hs.
      + apply strip_prefix_spec in Hs.
        destruct (T (trimStart y)).
        * intros [= <- _]. rewrite Hs, length_app. lia.
        * destruct (first_anchor label T rest) as [[j' p']|];
            [|discriminate].
          intros [= <- _]. specialize (IH j' p' eq_refl). cbn. lia.
      + destruct (first_anchor label T rest) as [[j' p']|]; [|discriminate].
        intros [= <- _]. specialize (IH j' p' eq_refl). cbn. lia. }
  replace (length H + length rest - (length rest - (j + length label)))%nat
    with (length H + (j + length label))%nat by lia.
  rewrite take_app_add'; reflexivity.
Qed.

Lemma exec_at_no_header (s : jsstring) :
  strip_prefix H s = None -> exec_at pat s = None.
Proof.
  intros Hs. unfold exec_at, section_re. cbn [mexec].
  fold (header_of questionId). now rewrite Hs.
Qed.

Lemma section_match_starts (m : jsstring) :
  matches pat m -> exists m', m = H ++ m'.
Proof.
  unfold section_re. fold (header_of questionId). intros Hm.
  inversion Hm as [| | |r1 r2 m1 m2 Hg _ | | |]; subst.
  inversion Hg as [| | | | | |n r m Hs]; subst.
  inversion Hs as [| | |r1 r2 m3 m4 Hl _ | | |]; subst.
  inversion Hl; subst. exists (m4 ++ m2). now rewrite <- !app_assoc.
Qed.

Lemma search_at_first_header (pre rest post : jsstring) (j : nat) :
  indexOf (pre ++ H) H = Some (length pre) ->
  first_anchor label T rest = Some (j, post) ->
  search pat (pre ++ H ++ rest)
  = Some (Found pre (take (length (H ++ rest) - length post) (H ++ rest))
            [(1%nat, H ++ take (j + length label) rest)] post).
Proof.
  intros Hi Hf. induction pre as [|x pre IH].
  - cbn [app]. destruct (H ++ rest) as [|y s0] eqn:Hs0.
    + cbn [search]. rewrite <- Hs0, exec_at_section, Hf. now rewrite Hs0.
    + cbn [search]. rewrite <- Hs0, exec_at_section, Hf. now rewrite Hs0.
  - cbn [app indexOf length] in Hi.
    destruct (startsWith (x :: pre ++ H) H) eqn:Hst; [discriminate|].
    destruct (indexOf (pre ++ H) H) as [i|] eqn:Hi'; [|discriminate].
    injection Hi as ->. specialize (IH eq_refl).
    cbn [app search]. rewrite exec_at_no_header, IH; [reflexivity|].
    apply startsWith_false in Hst.
    change (x :: pre ++ H ++ rest) with ((x :: pre) ++ H ++ rest).
    rewrite app_assoc. apply strip_prefix_none_app; [exact Hst|].
    cbn [app length]. rewrite length_app. lia.
Qed.

Lemma replace_all_section (pre rest post repl : jsstring) (j : nat) :
  indexOf (pre ++ H) H = Some (length pre) ->
  first_anchor label T rest = Some (j, post) ->
  includes post H = false ->
  plain repl = true ->
  replace_all pat 1 (js "$1" ++ repl) (pre ++ H ++ rest)
  = pre ++ H ++ take (j + length label) rest ++ repl ++ post.
Proof.
  intros Hi Hf Hpost Hp. unfold replace_all. cbn [replace_loop].
  pose proof (search_at_first_header pre rest post j Hi Hf) as Hs.
  rewrite Hs. cbn [f_before f_matched f_caps f_after].
  rewrite expand_group_1 by exact Hp.
  apply search_sound in Hs as [_ Hm]. cbn [f_matched] in Hm.
  apply section_match_starts in Hm as [m' Hm].
  assert (Hh : exists h, H = 35 :: h).
  { unfold header_of. eexists. vm_compute. reflexivity. }
  destruct Hh as [h Hh].
  remember (take (length (H ++ rest) - length post) (H ++ rest)) as M
    eqn:HM.
  rewrite Hh in Hm. cbn [app] in Hm.
  destruct M as [|y M]; [discriminate Hm|]. clear HM Hm.
  f_equal. rewrite <- !app_assoc. f_equal. f_equal. f_equal.
  destruct (length (pre ++ H ++ rest)); cbn [replace_loop]; [reflexivity|].
  unfold header_of in Hpost. now rewrite search_section_absent.
Qed.

(** A match of the pattern starts with the header, and so does what group
    1 holds. *)
Lemma search_section_shape (s : jsstring) (f : found) :
  search pat s = Some f ->
  exists g' m',
    f_caps f = [(1%nat, H ++ g')]
    /\ s = f_before f ++ H ++ m' ++ f_after f.
Proof.
  assert (Hhere : forall s0 rest c,
             exec_at pat s0 = Some (rest, c) ->
             exists g' m',
               c = [(1%nat, H ++ g')]
               /\ s0 = [] ++ H ++ m' ++ rest).
  { intros s0 rest c He.
    destruct (strip_prefix H s0) as [rest0|] eqn:Hs;
      [|now rewrite exec_at_no_header in He].
    apply strip_prefix_spec in Hs. subst s0.
    pose proof (exec_at_take _ _ _ _ He) as [Hsplit Hm].
    apply section_match_starts in Hm as [m' Hm].
    rewrite exec_at_section in He.
    destruct (first_anchor label T rest0) as [[j post]|]; [|discriminate].
    injection He as <- <-. eexists _, m'. split; [reflexivity|].
    cbn [app]. rewrite Hsplit at 1. rewrite Hm. now rewrite <- app_assoc. }
  revert f. induction s as [|x s IH]; intros f; cbn [search].
  - destruct (exec_at pat []) as [[rest c]|] eqn:He; [|discriminate].
    intros [= <-]. cbn [f_caps f_before f_after]. now apply Hhere.
  - destruct (exec_at pat (x :: s)) as [[rest c]|] eqn:He.
    + intros [= <-]. cbn [f_caps f_before f_after]. now apply Hhere.
    + destruct (search pat s) as [f'|]; [|discriminate].
      intros [= <-]. cbn [f_caps f_before f_after].
      destruct (IH f' eq_refl) as (g' & m' & Hc & Hs).
      exists g', m'. split; [exact Hc|]. cbn [app]. now rewrite <- Hs.
Qed.

(** Whatever the replacement, the text up to the end of the first header
    stays. *)
Lemma replace_all_keeps_head (content repl : jsstring) (i : nat) :
  indexOf content H = Some i ->
  take (i + length H) (replace_all pat 1 (js "$1" ++ repl) content)
  = take (i + length H) content.
Proof.
  intros Hi. unfold replace_all. cbn [replace_loop].
  destruct (search pat content) as [f|] eqn:Hs; [|reflexivity].
  destruct (search_section_shape _ _ Hs) as (g' & m' & Hc & Hcontent).
  rewrite Hc, expand_group_head.
  match goal with
  | |- context [(_ ++ expand _ _ _ _ _ _) ++ ?t] =>
      generalize t; intros rest'
  end.
  pose proof (indexOf_le _ _ _ _ _ Hi Hcontent) as Hle.
  assert (Hr : take (i + length H) content
               = take (i + length H) (f_before f ++ H)).
  { rewrite Hcontent at 1. rewrite (app_assoc (f_before f) H).
    apply take_app_le. rewrite length_app. lia. }
  rewrite Hr. rewrite <- !app_assoc. rewrite (app_assoc (f_before f) H).
  apply take_app_le. rewrite length_app. lia.
Qed.

End Tail.

(** The tails of the two patterns. *)
Lemma answer_tail_spec (s : jsstring) (c : captures) :
  mexec (Seq (Lit (js "_Waiting")) (Star true not_newline))
    (fun s' c' => Some (s', c')) s c
  = match after_waiting s with Some s' => Some (s', c) | None => None end.
Proof.
  cbn [mexec]. unfold after_waiting.
  destruct (strip_prefix (js "_Waiting") s); [|reflexivity].
  apply star_greedy_total.
Qed.

Lemma status_tail_spec (s : jsstring) (c : captures) :
  mexec (Lit status_open) (fun s' c' => Some (s', c')) s c
  = match after_open s with Some s' => Some (s', c) | None => None end.
Proof. reflexivity. Qed.

Lemma space_is_not (u x : N) :
  is_space u = false -> is_space x = true -> (u =? x) = false.
Proof.
  intros Hu Hx. destruct (u =? x) eqn:He; [|reflexivity].
  apply N.eqb_eq in He. congruence.
Qed.

Lemma after_waiting_no_space (x : N) (s : jsstring) :
  is_space x = true -> after_waiting (x :: s) = None.
Proof.
  intros Hx. unfold after_waiting. change (js "_Waiting") with (95 :: js "Waiting").
  cbn [strip_prefix]. now rewrite (space_is_not 95 x).
Qed.

Lemma after_open_no_space (x : N) (s : jsstring) :
  is_space x = true -> after_open (x :: s) = None.
Proof.
  intros Hx. unfold after_open.
  change status_open with (55357 :: tl status_open).
  cbn [strip_prefix]. now rewrite (space_is_not 55357 x).
Qed.

Lemma includes_app_r (a b l : jsstring) :
  includes (a ++ b) l = false -> includes b l = false.
Proof.
  induction a as [|x a IH]; [easy|].
  cbn [app]. intros Hi. apply includes_cons in Hi as [_ Hi]. now apply IH.
Qed.

Lemma plain_app (a b : jsstring) :
  plain a = true -> plain b = true -> plain (a ++ b) = true.
Proof. unfold plain. intros Ha Hb. rewrite forallb_app. now rewrite Ha, Hb. Qed.

Lemma plain_answer_text (answer timestamp displayName : jsstring) :
  plain answer = true -> plain timestamp = true -> plain displayName = true ->
  plain (answer_text answer timestamp displayName) = true.
Proof.
  intros Ha Ht Hd. unfold answer_text.
  repeat (apply plain_app; [try reflexivity; assumption|]).
  reflexivity.
Qed.

(** X5.  When the id of the question is without pattern syntax, its
    header first occurs at the end of [pre], its status label is the first one followed by the open status, its
    answer label is the first one followed by the placeholder, the header
    does not occur again after the status, and neither the answer nor the
    date nor the team name holds a [$], [updateQABoard] replaces the
    white space and the open status after the status label by a space and
    the answered status, the white space and the placeholder line after
    the answer label by a space, the answer and the signature, and leaves
    every other code unit of the ledger as it was. *)
Theorem answer_lands_in_its_section
        (pre m1 g1 m2 g2 post questionId answer timestamp displayName
         : jsstring) :
  plain_id questionId = true ->
  indexOf (pre ++ header_of questionId) (header_of questionId)
  = Some (length pre) ->
  first_anchor answer_label after_waiting
    (m1 ++ status_label ++ g1 ++ m2 ++ answer_label ++ g2 ++ post)
  = Some (length (m1 ++ status_label ++ g1 ++ m2), post) ->
  first_anchor status_label after_open
    (m1 ++ status_label ++ g1 ++ m2 ++ answer_label
        ++ answer_text answer timestamp displayName ++ post)
  = Some (length m1,
          m2 ++ answer_label
             ++ answer_text answer timestamp displayName ++ post) ->
  includes (m2 ++ answer_label
               ++ answer_text answer timestamp displayName ++ post)
    (header_of questionId) = false ->
  plain answer = true -> plain timestamp = true -> plain displayName = true ->
  updateQABoard_text
    (pre ++ header_of questionId ++ m1 ++ status_label ++ g1 ++ m2
         ++ answer_label ++ g2 ++ post)
    questionId answer timestamp displayName
  = pre ++ header_of questionId ++ m1 ++ status_label
        ++ js " " ++ status_answered ++ m2 ++ answer_label
        ++ answer_text answer timestamp displayName ++ post.
Proof.
  intros _ Hi Ha Hs Hinc Hpa Hpt Hpd.
  unfold updateQABoard_text, questionPattern, statusPattern.
  change (answer_template answer timestamp displayName)
    with (js "$1" ++ answer_text answer timestamp displayName).
  change status_template with (js "$1" ++ (js " " ++ status_answered)).
  fold answer_label. fold status_label.
  rewrite (replace_all_section _ after_waiting answer_tail_spec
             after_waiting_no_space questionId answer_label pre _ post
             (answer_text answer timestamp displayName) _ Hi Ha).
  - replace (take (length (m1 ++ status_label ++ g1 ++ m2)
                   + length answer_label)
               (m1 ++ status_label ++ g1 ++ m2 ++ answer_label ++ g2 ++ post))
      with (m1 ++ status_label ++ g1 ++ m2 ++ answer_label).
    2:{ rewrite <- length_app.
        replace (m1 ++ status_label ++ g1 ++ m2 ++ answer_label ++ g2 ++ post)
          with (((m1 ++ status_label ++ g1 ++ m2) ++ answer_label)
                  ++ g2 ++ post)
          by now rewrite <- !app_assoc.
        now rewrite take_app_length, <- !app_assoc. }
    rewrite <- !app_assoc.
    rewrite (replace_all_section _ after_open status_tail_spec
               after_open_no_space questionId status_label pre _ _
               (js " " ++ status_answered) _ Hi Hs Hinc eq_refl).
    replace (take (length m1 + length status_label)
               (m1 ++ status_label ++ g1 ++ m2 ++ answer_label
                   ++ answer_text answer timestamp displayName ++ post))
      with (m1 ++ status_label).
    2:{ rewrite <- length_app, app_assoc. now rewrite take_app_length. }
    now rewrite <- !app_assoc.
  - do 3 apply includes_app_r in Hinc. exact Hinc.
  - now apply plain_answer_text.
Qed.

Lemma answer_lands_in_its_section_witness :
  updateQABoard_text
    (Samples.preamble ++ header_of (js "Q-001") ++ lead_001 ++ status_label
       ++ (js " " ++ status_open) ++ between_001 ++ answer_label
       ++ (js " " ++ Samples.waiting_de) ++ rest_001)
    (js "Q-001") (js "Use wrangler.") Samples.date0 Samples.de_display
  = Samples.preamble ++ header_of (js "Q-001") ++ lead_001 ++ status_label
      ++ js " " ++ status_answered ++ between_001 ++ answer_label
      ++ answer_text (js "Use wrangler.") Samples.date0 Samples.de_display
      ++ rest_001.
Proof.
  apply (answer_lands_in_its_section Samples.preamble lead_001
           (js " " ++ status_open) between_001 (js " " ++ Samples.waiting_de)
           rest_001 (js "Q-001") (js "Use wrangler.") Samples.date0
           Samples.de_display); vm_compute; reflexivity.
Defined.

(** X22.  Whatever the answer, with or without [$] in it, [updateQABoard]
    with an id without pattern syntax leaves the ledger as it was up to the
    end of the first header of the question. *)
Theorem text_up_to_first_header_is_kept
        (content questionId answer timestamp displayName : jsstring)
        (i : nat) :
  plain_id questionId = true ->
  indexOf content (header_of questionId) = Some i ->
  take (i + length (header_of questionId))
    (updateQABoard_text content questionId answer timestamp displayName)
  = take (i + length (header_of questionId)) content.
Proof.
  intros _ Hi. unfold updateQABoard_text, questionPattern, statusPattern.
  change (answer_template answer timestamp displayName)
    with (js "$1" ++ answer_text answer timestamp displayName).
  change status_template with (js "$1" ++ (js " " ++ status_answered)).
  pose proof (replace_all_keeps_head _ after_waiting answer_tail_spec
                after_waiting_no_space questionId (js "**Answer**:") content
                (answer_text answer timestamp displayName) i Hi) as H1.
  set (content1 := replace_all _ 1 _ content) in *.
  assert (Hi1 : indexOf content1 (header_of questionId) = Some i).
  { apply (indexOf_prefix _ content); [now symmetry|exact Hi]. }
  rewrite (replace_all_keeps_head _ after_open status_tail_spec
             after_open_no_space questionId (js "**Status**:") content1
             (js " " ++ status_answered) i Hi1).
  exact H1.
Qed.

Lemma text_up_to_first_header_is_kept_witness :
  take (length Samples.preamble + length (header_of (js "Q-001")))
    (updateQABoard_text Samples.ledger_two (js "Q-001") Samples.priced_answer
       Samples.date0 Samples.de_display)
  = take (length Samples.preamble + length (header_of (js "Q-001")))
      Samples.ledger_two.
Proof.
  apply (text_up_to_first_header_is_kept Samples.ledger_two (js "Q-001")
           Samples.priced_answer Samples.date0 Samples.de_display
           (length Samples.preamble)); vm_compute; reflexivity.
Defined.

End MutatorMore.

(** ** The ledger as text and blocks *)

Module BlockFacts.
Import JS Regex Eff EffFacts.
Import Ledger RegexSpec LedgerSpec BlockSpec RegexFacts ParserFacts.

Local Arguments js : simpl never.

Lemma star_greedy_run {R} (p : N -> bool) (k : @cont R) m s c r :
  forallb p m = true -> k s c = Some r ->
  match s with x :: _ => p x = false | [] => True end ->
  star_greedy p k (m ++ s) c = Some r.
Proof.
  intros Hm Hk Hs. induction m as [|a m IH]; cbn.
  - destruct s as [|x s]; cbn; [exact Hk|]. now rewrite Hs.
  - cbn in Hm. apply andb_prop in Hm as [Ha Hm]. rewrite Ha.
    now rewrite (IH Hm).
Qed.

Lemma header_exec (b : block) (rest : jsstring) :
  is_block b = true ->
  exec_at header_re (header b ++ rest) = Some (rest, []).
Proof.
  unfold is_block. intros H.
  apply andb_prop in H as [H _]. apply andb_prop in H as [H Hn].
  apply andb_prop in H as [H Hnn]. apply andb_prop in H as [Hgn Hg].
  destruct b as [g n t]. unfold header. cbn [gap number text] in *.
  destruct g as [|x g]; [discriminate|]. destruct n as [|d n]; [discriminate|].
  cbn [forallb] in Hg, Hn.
  apply andb_prop in Hg as [Hx Hg]. apply andb_prop in Hn as [Hd Hn].
  unfold exec_at, header_re, Plus. cbn [mexec].
  rewrite <- !app_assoc, strip_prefix_app. cbn [app]. rewrite Hx.
  apply star_greedy_run; [exact Hg| |reflexivity].
  cbn [mexec]. rewrite strip_prefix_app. cbn [app]. rewrite Hd.
  apply star_greedy_run; [exact Hn| |reflexivity].
  cbn [mexec]. now rewrite strip_prefix_app.
Qed.


Lemma header_matches (m : jsstring) :
  matches header_re m ->
  exists g n,
    m = js "###" ++ g ++ js "[Q-" ++ n ++ js "]"
    /\ g <> [] /\ forallb is_space g = true
    /\ n <> [] /\ forallb is_digit n = true.
Proof.
  unfold header_re. intros H.
  inversion H as [| | |? ? ? m1 H1 H2| | |]; subst. clear H.
  inversion H1; subst. clear H1.
  inversion H2 as [| | |? ? g m2 Hg H3| | |]; subst. clear H2.
  inversion H3 as [| | |? ? ? m3 H4 H5| | |]; subst. clear H3.
  inversion H4; subst. clear H4.
  inversion H5 as [| | |? ? n m4 Hn H6| | |]; subst. clear H5.
  inversion H6; subst. clear H6.
  apply plus_matches in Hg as [Hg1 Hg2].
  apply plus_matches in Hn as [Hn1 Hn2].
  now exists g, n.
Qed.

(** No code unit after the hashes of a header is a hash. *)
Lemma header_rest_no_hash (g n : jsstring) :
  forallb is_space g = true -> forallb is_digit n = true ->
  ~ In 35 (g ++ js "[Q-" ++ n ++ js "]").
Proof.
  intros Hg Hn Hin.
  rewrite forallb_forall in Hg. rewrite forallb_forall in Hn.
  apply in_app_or in Hin as [Hin|Hin].
  { apply Hg in Hin. vm_compute in Hin. discriminate. }
  apply in_app_or in Hin as [Hin|Hin].
  { vm_compute in Hin. intuition discriminate. }
  apply in_app_or in Hin as [Hin|Hin].
  { apply Hn in Hin. vm_compute in Hin. discriminate. }
  vm_compute in Hin. intuition discriminate.
Qed.

Lemma unit_at_overlap (x w r t : jsstring) (u : N) :
  x ++ u :: t = w ++ r -> (length x < length w)%nat -> In u w.
Proof.
  revert w. induction x as [|a x IH]; intros [|b w] He Hl;
    cbn in *; try lia.
  - injection He as -> _. now left.
  - injection He as -> He. right. apply (IH w He). lia.
Qed.

(** A header that starts in a text and is complete in the ledger is
    complete in the text: it does not run into the next header. *)
Lemma header_not_across (x rest r : jsstring) (c : captures) :
  x <> [] -> at_header rest ->
  exec_at header_re (x ++ rest) = Some (r, c) ->
  exists r', exec_at header_re x = Some (r', []).
Proof.
  intros Hx Hrest He.
  apply exec_at_sound in He as (m & Hm & Hmat).
  apply header_matches in Hmat as (g & n & -> & Hg1 & Hg2 & Hn1 & Hn2).
  destruct (le_lt_dec (length (js "###" ++ g ++ js "[Q-" ++ n ++ js "]"))
              (length x)) as [Hle|Hlt].
  - (* the header lies in [x] *)
    assert (Hpre : exists r', x = (js "###" ++ g ++ js "[Q-" ++ n ++ js "]")
                                  ++ r').
    { exists (drop (length (js "###" ++ g ++ js "[Q-" ++ n ++ js "]")) x).
      rewrite <- (take_drop (length (js "###" ++ g ++ js "[Q-" ++ n ++ js "]"))
                            x) at 1.
      f_equal.
      apply (f_equal (take (length (js "###" ++ g ++ js "[Q-" ++ n
                                      ++ js "]")))) in Hm.
      rewrite take_app_le in Hm by exact Hle.
      now rewrite take_app_length in Hm. }
    destruct Hpre as [r' ->]. exists r'.
    apply (header_exec (mkBlock g n [])).
    unfold is_block. cbn [gap number text]. rewrite Hg2, Hn2.
    destruct g; [now elim Hg1|]. destruct n; [now elim Hn1|]. reflexivity.
  - (* the header runs past [x]: the next unit is a hash *)
    exfalso. destruct Hrest as [->|[rest' ->]].
    { rewrite app_nil_r in Hm. subst x. rewrite length_app in Hlt. lia. }
    apply (header_rest_no_hash g n Hg2 Hn2).
    assert (Hw : (0 < length (g ++ js "[Q-" ++ n ++ js "]"))%nat).
    { destruct g; [now elim Hg1|]. cbn [app length]. lia. }
    rewrite length_app in Hlt. change (length (js "###")) with 3%nat in Hlt.
    remember (g ++ js "[Q-" ++ n ++ js "]") as w eqn:Ew.
    change (js "###") with [35; 35; 35] in Hm.
    destruct x as [|a [|b [|c0 x]]]; [now elim Hx| | |];
      cbn [app length] in Hm, Hlt.
    + injection Hm as _ Hm.
      apply (unit_at_overlap [] w r _ 35 Hm). exact Hw.
    + injection Hm as _ _ Hm.
      apply (unit_at_overlap [] w r _ 35 Hm). exact Hw.
    + injection Hm as _ _ _ Hm.
      apply (unit_at_overlap x w r _ 35 Hm). lia.
Qed.

Lemma no_header_spec (s : jsstring) :
  no_header s = true <-> search header_re s = None.
Proof.
  unfold no_header. destruct (search header_re s); split; congruence.
Qed.

(** The split walks over a text without a header. *)
Lemma split_loop_text (t rest : jsstring) :
  search header_re t = None -> at_header rest ->
  forall fuel cur,
    (length t <= fuel)%nat ->
    split_loop fuel header_re cur (t ++ rest)
    = split_loop (fuel - length t) header_re (cur ++ t) rest.
Proof.
  intros Hs Hrest. induction t as [|x t IH]; intros fuel cur Hf.
  - cbn [app length]. now rewrite Nat.sub_0_r, app_nil_r.
  - apply search_none_inv in Hs as [He Hs].
    destruct fuel as [|fuel]; [cbn in Hf; lia|].
    cbn [app split_loop length Nat.sub].
    destruct (exec_at header_re (x :: t ++ rest)) as [[r c]|] eqn:Hx.
    { apply (header_not_across (x :: t) rest r c) in Hx as [r' Hx];
        [congruence|discriminate|exact Hrest]. }
    rewrite (IH Hs) by (cbn in Hf; lia).
    now rewrite <- app_assoc.
Qed.

Lemma split_loop_header (b : block) (rest cur : jsstring) (fuel : nat) :
  is_block b = true ->
  split_loop (S fuel) header_re cur (header b ++ rest)
  = cur :: split_loop fuel header_re [] rest.
Proof.
  intros Hb. pose proof (header_exec b rest Hb) as He.
  assert (Hl : (length rest < length (header b ++ rest))%nat).
  { rewrite length_app. unfold header. rewrite length_app.
    change (length (js "###")) with 3%nat. lia. }
  destruct (header b ++ rest) as [|x s] eqn:Hh; [cbn in Hl; lia|].
  cbn [split_loop]. rewrite He.
  replace (Nat.eqb (length rest) (length (x :: s))) with false
    by (symmetry; apply Nat.eqb_neq; lia).
  reflexivity.
Qed.

Lemma blocks_at_header (blocks : list block) :
  at_header (flat_map (fun b => header b ++ text b) blocks).
Proof.
  destruct blocks as [|b bs]; [now left|]. right.
  cbn [flat_map]. unfold header. rewrite <- !app_assoc. now eexists.
Qed.

Lemma split_loop_blocks (blocks : list block) :
  forallb is_block blocks = true ->
  forall fuel cur,
    (length (flat_map (fun b => header b ++ text b) blocks) <= fuel)%nat ->
    split_loop fuel header_re cur
      (flat_map (fun b => header b ++ text b) blocks)
    = cur :: map text blocks.
Proof.
  induction blocks as [|b bs IH]; intros Hb fuel cur Hf.
  - cbn. destruct fuel; cbn; now rewrite ?app_nil_r.
  - cbn [forallb] in Hb. apply andb_prop in Hb as [Hb Hbs].
    cbn [flat_map map] in *. rewrite <- app_assoc in *.
    rewrite !length_app in Hf.
    assert (Hh : (0 < length (header b))%nat).
    { unfold header. rewrite length_app.
      change (length (js "###")) with 3%nat. lia. }
    destruct fuel as [|fuel]; [lia|].
    rewrite (split_loop_header b _ cur fuel Hb).
    rewrite split_loop_text;
      [ |apply no_header_spec; unfold is_block in Hb;
         now apply andb_prop in Hb as [_ Hb]
        |apply blocks_at_header|lia].
    cbn [app]. rewrite (IH Hbs) by lia. reflexivity.
Qed.

(** The texts that the parser reads are the texts of the blocks. *)
Lemma questionBlocks_ledger (pre : jsstring) (blocks : list block) :
  no_header pre = true -> forallb is_block blocks = true ->
  questionBlocks (ledger_text pre blocks) = map text blocks.
Proof.
  intros Hp Hb. apply no_header_spec in Hp.
  unfold questionBlocks, ledger_text, split.
  destruct (pre ++ flat_map (fun b => header b ++ text b) blocks)
    as [|x s] eqn:Hs.
  - apply app_eq_nil in Hs as [-> Hs].
    destruct blocks as [|b bs]; [|cbn in Hs; unfold header in Hs;
      rewrite <- !app_assoc in Hs; discriminate].
    cbn [search] in Hp.
    destruct (exec_at header_re []) as [[? ?]|]; [discriminate|reflexivity].
  - rewrite <- Hs.
    rewrite split_loop_text;
      [ |exact Hp|apply blocks_at_header|rewrite length_app; lia].
    rewrite split_loop_blocks; [reflexivity|exact Hb|].
    rewrite !length_app. lia.
Qed.


(** *** Every ledger is a text and blocks *)

Lemma exec_at_longer (y z r : jsstring) (c : captures) :
  exec_at header_re y = Some (r, c) ->
  exec_at header_re (y ++ z) = Some (r ++ z, []).
Proof.
  intros He. apply exec_at_sound in He as (m & -> & Hm).
  apply header_matches in Hm as (g & n & -> & Hg1 & Hg2 & Hn1 & Hn2).
  rewrite <- app_assoc. apply (header_exec (mkBlock g n [])).
  unfold is_block. cbn [gap number text]. rewrite Hg2, Hn2.
  destruct g; [now elim Hg1|]. destruct n; [now elim Hn1|]. reflexivity.
Qed.

Lemma search_before (s : jsstring) (f : found) :
  search header_re s = Some f -> search header_re (f_before f) = None.
Proof.
  revert f. induction s as [|x s IH]; intros f; cbn [search].
  - destruct (exec_at header_re []) as [[r c]|]; [|discriminate].
    intros [= <-]. reflexivity.
  - destruct (exec_at header_re (x :: s)) as [[r c]|] eqn:He.
    + intros [= <-]. reflexivity.
    + destruct (search header_re s) as [f'|] eqn:Hs; [|discriminate].
      intros [= <-]. cbn [f_before search]. rewrite (IH f' eq_refl).
      destruct (exec_at header_re (x :: f_before f')) as [[r c]|] eqn:Hb;
        [|reflexivity].
      apply search_sound in Hs as [Hs _].
      apply (exec_at_longer _ (f_matched f' ++ f_after f')) in Hb.
      cbn [app] in Hb. rewrite <- Hs in Hb. congruence.
Qed.

Lemma ledger_has_blocks (markdown : jsstring) :
  exists pre blocks,
    markdown = ledger_text pre blocks
    /\ no_header pre = true /\ forallb is_block blocks = true.
Proof.
  remember (length markdown) as k eqn:Hk.
  assert (Hle : (length markdown <= k)%nat) by lia. clear Hk.
  revert markdown Hle. induction k as [|k IH]; intros s Hle.
  - destruct s; [|cbn in Hle; lia]. now exists [], [].
  - destruct (search header_re s) as [f|] eqn:Hs.
    + pose proof (search_before s f Hs) as Hb.
      apply search_sound in Hs as [Hs Hm].
      apply header_matches in Hm as (g & n & Hm & Hg1 & Hg2 & Hn1 & Hn2).
      destruct (IH (f_after f)) as (t & bs & Ha & Ht & Hbs).
      { rewrite Hs, Hm, !length_app in Hle.
        change (length (js "###")) with 3%nat in Hle. lia. }
      exists (f_before f), (mkBlock g n t :: bs).
      split; [|split].
      * unfold ledger_text. cbn [flat_map text].
        change (header (mkBlock g n t))
          with (js "###" ++ g ++ js "[Q-" ++ n ++ js "]").
        unfold ledger_text in Ha. rewrite <- Hm, <- app_assoc, <- Ha.
        exact Hs.
      * now apply no_header_spec.
      * cbn [forallb]. rewrite Hbs, andb_true_r.
        unfold is_block. cbn [gap number text]. rewrite Hg2, Hn2, Ht.
        destruct g; [now elim Hg1|]. destruct n; [now elim Hn1|].
        reflexivity.
    + exists s, []. unfold ledger_text. cbn [flat_map].
      rewrite app_nil_r. split; [reflexivity|].
      split; [now apply no_header_spec|reflexivity].
Qed.

(** *** The records of the blocks *)

Lemma filter_map_text (f : jsstring -> bool) (blocks : list block) :
  List.filter f (map text blocks)
  = map text (List.filter (fun b => f (text b)) blocks).
Proof.
  induction blocks as [|b bs IH]; cbn; [reflexivity|].
  destruct (f (text b)); cbn; now rewrite IH.
Qed.

Lemma parse_ledger (pre : jsstring) (blocks : list block) :
  no_header pre = true -> forallb is_block blocks = true ->
  parseQABoard (ledger_text pre blocks)
  = map (fun b => read_block (text b))
      (List.filter (fun b => well_formed (read_block (text b))) blocks).
Proof.
  intros Hp Hb. unfold parseQABoard.
  rewrite (questionBlocks_ledger pre blocks Hp Hb).
  rewrite LedgerFacts.parse_step_fold. cbn [app].
  rewrite (filter_map_text (fun t => well_formed (read_block t))).
  now rewrite map_map.
Qed.

(** *** The id of a record *)

Lemma skip_while_length (p : N -> bool) (s : jsstring) :
  (length (skip_while p s) <= length s)%nat.
Proof.
  induction s as [|x s IH]; cbn; [lia|]. destruct (p x); cbn; lia.
Qed.

Lemma take_run_of (p : N -> bool) (s : jsstring) :
  take (length s - length (skip_while p s)) s = run_of p s.
Proof.
  induction s as [|x s IH]; cbn [skip_while run_of]; [reflexivity|].
  destruct (p x).
  - pose proof (skip_while_length p s).
    replace (length (x :: s) - length (skip_while p s))%nat
      with (S (length s - length (skip_while p s))) by (cbn; lia).
    cbn [take]. now rewrite IH.
  - now rewrite Nat.sub_diag.
Qed.

Lemma match0_digits (t : jsstring) :
  match0 digits_re t
  = match first_digits t with [] => None | d => Some d end.
Proof.
  unfold match0. induction t as [|c t IH]; [reflexivity|].
  cbn [search first_digits].
  unfold exec_at at 1, digits_re at 1, Plus. cbn [mexec].
  destruct (is_digit c) eqn:Hc.
  - rewrite MutatorMore.star_greedy_total. cbn [f_matched].
    assert (Ht : take (length (c :: t) - length (skip_while is_digit t))
                   (c :: t) = run_of is_digit (c :: t)).
    { rewrite <- (take_run_of is_digit (c :: t)). cbn [skip_while].
      now rewrite Hc. }
    rewrite Ht. cbn [run_of]. now rewrite Hc.
  - fold digits_re.
    destruct (search digits_re t) as [f|]; cbn [f_matched] in *; exact IH.
Qed.

Lemma id_of_block (t : jsstring) :
  id (read_block t) = id_of_title (titleLine t).
Proof.
  unfold read_block. rewrite LedgerFacts.read_lines_id.
  unfold question_init, id_of_title. cbn [id]. rewrite match0_digits.
  now destruct (first_digits (titleLine t)).
Qed.

Lemma no_digit_first_digits (t : jsstring) :
  forallb (fun c => negb (is_digit c)) t = true -> first_digits t = [].
Proof.
  induction t as [|c t IH]; cbn; [reflexivity|].
  intros H. apply andb_prop in H as [Hc Ht].
  destruct (is_digit c); [discriminate|]. now apply IH.
Qed.

Lemma run_of_class (p : N -> bool) (s : jsstring) :
  forallb p (run_of p s) = true.
Proof.
  induction s as [|x s IH]; cbn; [reflexivity|].
  destruct (p x) eqn:Hx; cbn; [now rewrite Hx|reflexivity].
Qed.

Lemma first_digits_class (t : jsstring) :
  forallb is_digit (first_digits t) = true.
Proof.
  induction t as [|c t IH]; cbn [first_digits]; [reflexivity|].
  destruct (is_digit c); [apply run_of_class|exact IH].
Qed.

(** The ids that the agent passes to [updateQABoard], those of the
    questions that the parser returns, are without pattern syntax. *)
Lemma parsed_ids_are_plain (markdown : jsstring) (q : QAQuestion) :
  In q (parseQABoard markdown) -> plain_id (id q) = true.
Proof.
  intros Hq. apply parsed_is_read_block in Hq as (b & _ & ->).
  rewrite id_of_block. unfold id_of_title, plain_id.
  rewrite forallb_app. apply andb_true_intro. split; [reflexivity|].
  pose proof (first_digits_class (titleLine b)) as Hd.
  destruct (first_digits (titleLine b)) as [|d ds]; [reflexivity|].
  rewrite forallb_forall in Hd. apply forallb_forall. intros c Hc.
  apply Hd in Hc. unfold is_word. rewrite Hc.
  now rewrite !orb_true_r.
Qed.

Lemma well_formed_names (t : jsstring) :
  well_formed (read_block t) = has_names (read_block t).
Proof.
  unfold well_formed, has_names. rewrite id_of_block. reflexivity.
Qed.

(** *** The blocks that name both parties *)

Lemma capture_cons (n m : nat) (t : jsstring) (c : captures) :
  capture n c <> None -> capture n ((m, t) :: c) <> None.
Proof. cbn [capture]. now destruct (Nat.eqb m n). Qed.

(** A match fills every group that is not under an alternative. *)
Lemma mexec_fills {R} (r : regex) : forall (k : @cont R) s c res,
  mexec r k s c = Some res ->
  exists s' c',
    k s' c' = Some res
    /\ (forall n, In n (sure_groups r) \/ capture n c <> None ->
                  capture n c' <> None).
Proof.
  induction r as [l|p|g p|r1 IH1 r2 IH2|r1 IH1 r2 IH2|n r IH];
    intros k s c res; cbn [mexec sure_groups].
  - destruct (strip_prefix l s) as [s'|]; [|discriminate].
    intros H. exists s', c. split; [exact H|]. now intros n [[]|Hn].
  - destruct s as [|x s]; [discriminate|].
    destruct (p x); [|discriminate].
    intros H. exists s, c. split; [exact H|]. now intros n [[]|Hn].
  - destruct g; intros H.
    + apply star_greedy_sound in H as (m & s' & _ & _ & Hk).
      exists s', c. split; [exact Hk|]. now intros n [[]|Hn].
    + apply star_lazy_sound in H as (m & s' & _ & _ & Hk).
      exists s', c. split; [exact Hk|]. now intros n [[]|Hn].
  - intros H. apply IH1 in H as (s1 & c1 & H & Hc1).
    apply IH2 in H as (s2 & c2 & H & Hc2).
    exists s2, c2. split; [exact H|].
    intros n [Hn|Hn].
    + apply in_app_or in Hn as [Hn|Hn]; [|apply Hc2; now left].
      apply Hc2. right. apply Hc1. now left.
    + apply Hc2. right. apply Hc1. now right.
  - destruct (mexec r1 k s c) as [x|] eqn:H1.
    + intros [= <-]. apply IH1 in H1 as (s' & c' & H & Hc).
      exists s', c'. split; [exact H|]. intros n [[]|Hn]. apply Hc. now right.
    + intros H. apply IH2 in H as (s' & c' & H & Hc).
      exists s', c'. split; [exact H|]. intros n [[]|Hn]. apply Hc. now right.
  - intros H. apply IH in H as (s' & c' & H & Hc).
    eexists s', _. split; [exact H|].
    intros m [[<-|Hm]|Hm].
    + cbn [capture]. now rewrite Nat.eqb_refl.
    + apply capture_cons. apply Hc. now left.
    + apply capture_cons. apply Hc. now right.
Qed.

Lemma search_fills (r : regex) (s : jsstring) (f : found) (n : nat) :
  search r s = Some f -> In n (sure_groups r) -> capture n (f_caps f) <> None.
Proof.
  intros Hs Hn.
  assert (Hhere : forall s0 rest c,
             exec_at r s0 = Some (rest, c) -> capture n c <> None).
  { intros s0 rest c He. unfold exec_at in He.
    apply mexec_fills in He as (s' & c' & [= _ <-] & Hc).
    apply Hc. now left. }
  revert f Hs. induction s as [|x s IH]; intros f; cbn [search].
  - destruct (exec_at r []) as [[rest c]|] eqn:He; [|discriminate].
    intros [= <-]. cbn [f_caps]. now apply (Hhere [] rest).
  - destruct (exec_at r (x :: s)) as [[rest c]|] eqn:He.
    + intros [= <-]. cbn [f_caps]. now apply (Hhere (x :: s) rest).
    + destruct (search r s) as [f'|]; [|discriminate].
      intros [= <-]. cbn [f_caps]. now apply IH.
Qed.

(** Both names of a line that the From/To pattern matches are words. *)
Lemma from_to_names (line : jsstring) (f : found) (n : nat) :
  search from_to_re line = Some f -> In n [1%nat; 2%nat] ->
  truthy (toLowerCase_ascii (cap_text (f_caps f) n)) = true.
Proof.
  intros Hs Hn.
  pose proof (search_fills _ _ _ n Hs Hn) as Hc.
  pose proof (search_captures _ _ _ _ from_to_groups Hs) as Hall.
  unfold captures_hold in Hall. rewrite Forall_forall in Hall.
  unfold cap_text.
  destruct (capture n (f_caps f)) as [t|] eqn:Ht; [|now elim Hc].
  apply capture_In, list_elem_of_In, Hall in Ht. cbn [fst snd] in Ht.
  destruct Ht as [Hne _]. destruct t; [now elim Hne|reflexivity].
Qed.

(** What a line does to the names of the question object. *)
Lemma read_line_has_names (q : QAQuestion) (line : jsstring) :
  has_names (read_line q line) = names_line line || has_names q.
Proof.
  unfold read_line, names_line.
  destruct (startsWith line (js "**From**:")).
  { destruct (search from_to_re line) as [f|] eqn:Hs; [|reflexivity].
    unfold has_names. cbn [askedBy askedTo opt_truthy].
    rewrite !(from_to_names line f) by (exact Hs || (cbn; tauto)).
    reflexivity. }
  cbn [andb orb].
  destruct (startsWith line (js "**Status**:")); [reflexivity|].
  destruct (startsWith line (js "**Question**:")); [reflexivity|].
  destruct (startsWith line (js "**Answer**:")); [|reflexivity].
  now destruct (negb _).
Qed.

Lemma read_lines_has_names (lines : list jsstring) (q : QAQuestion) :
  has_names (fold_left read_line lines q)
  = existsb names_line lines || has_names q.
Proof.
  revert q. induction lines as [|l ls IH]; intros q; cbn [fold_left existsb].
  - reflexivity.
  - rewrite IH, read_line_has_names.
    now rewrite orb_assoc, (orb_comm (existsb names_line ls)).
Qed.

(** A block yields a record exactly when it has a line that names both
    parties. *)
Lemma yields_by_names_line (t : jsstring) :
  well_formed (read_block t) = has_names_line t.
Proof.
  rewrite well_formed_names. unfold read_block, has_names_line.
  rewrite read_lines_has_names. apply orb_false_r.
Qed.

(** C5.  A ledger is some text and then blocks, each from a header
    [### [Q-n]] to the next; every ledger is (lemma [ledger_has_blocks]).
    The blocks that yield an id, an asker and an addressee are those with
    a line that starts with [**From**:] and in which the From/To pattern
    matches.  [parseQABoard] returns, in the order of the ledger, the
    question objects of these blocks, and leaves out the others: with N
    such blocks and M others there are N records.  The parser is a
    function of the text: nothing is raised or reported for a block that
    is left out. *)
Theorem parse_returns_well_formed_blocks
        (pre : jsstring) (blocks : list block) :
  no_header pre = true -> forallb is_block blocks = true ->
  let good := List.filter (fun b => has_names_line (text b)) blocks in
  let bad := List.filter (fun b => negb (has_names_line (text b))) blocks in
  parseQABoard (ledger_text pre blocks)
  = map (fun b => read_block (text b)) good
  /\ length (parseQABoard (ledger_text pre blocks)) = length good
  /\ (length good + length bad = length blocks)%nat
  /\ (forall b, In b good -> well_formed (read_block (text b)) = true)
  /\ (forall b, In b bad -> well_formed (read_block (text b)) = false).
Proof.
  intros Hp Hb. cbv zeta. rewrite (parse_ledger pre blocks Hp Hb).
  rewrite (List.filter_ext _ (fun b => has_names_line (text b)))
    by (intros b; apply yields_by_names_line).
  split; [reflexivity|]. split; [now rewrite length_map|].
  split; [apply LedgerFacts.filter_split_length|].
  split; intros b Hin; apply filter_In in Hin as [_ Hin];
    rewrite yields_by_names_line.
  - exact Hin.
  - now apply negb_true_iff.
Qed.

Lemma parse_returns_well_formed_blocks_witness :
  parseQABoard (ledger_text board_head [block_a; block_b; block_c])
  = [read_block (text block_a); read_block (text block_c)]
  /\ length (parseQABoard (ledger_text board_head [block_a; block_b; block_c]))
     = 2%nat.
Proof.
  destruct (parse_returns_well_formed_blocks board_head
              [block_a; block_b; block_c]) as (H1 & H2 & _).
  - vm_compute. reflexivity.
  - vm_compute. reflexivity.
  - split; [rewrite H1|rewrite H2]; vm_compute; reflexivity.
Defined.




End BlockFacts.

(** ** The agent, further *)

Module AgentMore.
Import JS Regex Eff EffFacts.
Import Ledger Agent AgentSpec AgentFacts ParserFacts.

Local Arguments updateQABoard_text : simpl never.
Local Arguments parseQABoard : simpl never.
Local Arguments js : simpl never.

Section Facts.
Variable W : Type.
Variable mnemo_query : prompt -> W -> outcome jsstring * W.
Variable github_getFile :
  jsstring -> jsstring -> jsstring -> W -> outcome jsstring * W.
Variable today : W -> jsstring.

Local Abbreviation st := (state W).
Local Abbreviation answerQuestions' :=
  (answerQuestions W mnemo_query github_getFile today).
Local Abbreviation reviewAnswers' :=
  (reviewAnswers W mnemo_query github_getFile today).
Local Abbreviation checkMCPUpdates' :=
  (checkMCPUpdates W mnemo_query github_getFile today).
Local Abbreviation updateActionPlan' := (updateActionPlan W mnemo_query).
Local Abbreviation updateReadme' := (updateReadme W mnemo_query).
Local Abbreviation execute' := (execute W mnemo_query github_getFile today).
Local Abbreviation phases' := (phases W mnemo_query github_getFile today).

(** The two phases that read the ledger leave the agent as it was: their
    loops run over no question. *)
Lemma answerQuestions_agent (s : st) :
  agent (snd (answerQuestions' s)) = agent s.
Proof.
  unfold answerQuestions, loadQABoard.
  unfold bind, log, modify, try_catch, call, throw, this_team.
  cbn [agent world console fst snd].
  destruct (github_getFile _ _ _ (world s)) as [[board|e] w']; [|reflexivity].
  cbn [agent agent_team].
  rewrite (proj1 (filters_keep_nothing board _)). reflexivity.
Qed.

Lemma reviewAnswers_agent (s : st) :
  agent (snd (reviewAnswers' s)) = agent s.
Proof.
  unfold reviewAnswers, loadQABoard.
  unfold bind, log, modify, try_catch, call, throw, this_team.
  cbn [agent world console fst snd].
  destruct (github_getFile _ _ _ (world s)) as [[board|e] w']; [|reflexivity].
  cbn [agent agent_team].
  rewrite (proj2 (filters_keep_nothing board _)). reflexivity.
Qed.

Lemma ledger_phases_keep (J : TeamAgent -> Prop) :
  preserves (on_agent W J) answerQuestions'
  /\ preserves (on_agent W J) reviewAnswers'.
Proof.
  split; intros s H; unfold on_agent in *.
  - now rewrite answerQuestions_agent.
  - now rewrite reviewAnswers_agent.
Qed.

(** *** Nothing is answered *)

Lemma nothing_update f :
  (forall r, questionsAnswered (f r) = questionsAnswered r
             /\ answersReviewed (f r) = answersReviewed r) ->
  preserves (on_agent W answers_nothing) (update_result W f).
Proof.
  intros Hf. apply preserves_update_result. intros a (Hq & Hr & Hp).
  unfold answers_nothing. cbn [result fileChanges].
  destruct (Hf (result a)) as [-> ->]. auto.
Qed.

Lemma nothing_set_mcp c :
  preserves (on_agent W answers_nothing) (fileChanges_set W mcpPath c).
Proof.
  apply preserves_fileChanges_set. intros a (Hq & Hr & Hp).
  unfold answers_nothing. cbn [result fileChanges].
  split; [exact Hq|]. split; [exact Hr|].
  intros p. rewrite map_set_keys.
  destruct (bool_decide _); [apply Hp|].
  intros Hin. apply in_app_or in Hin as [Hin|[<-|[]]]; [now apply Hp|].
  reflexivity.
Qed.

Ltac walk :=
  repeat first
    [ apply preserves_ret | apply preserves_throw | apply preserves_get
    | apply preserves_call | apply preserves_log | apply preserves_this_team
    | apply preserves_now
    | apply preserves_bind; [|intros ?]
    | apply preserves_try_catch; [|intros ?]
    | match goal with
      | |- preserves _ (if ?b then _ else _) => destruct b
      end ].

Ltac keeps_nothing :=
  walk; first [ apply nothing_set_mcp
               | apply nothing_update; intros ?; split; reflexivity ].

Lemma phases_keep_nothing pm :
  In pm phases' -> preserves (on_agent W answers_nothing) (snd pm).
Proof.
  unfold phases. simpl.
  intros [<-|[<-|[<-|[<-|[<-|[]]]]]]; simpl.
  - apply ledger_phases_keep.
  - apply ledger_phases_keep.
  - unfold checkMCPUpdates, applyMCPUpdatesToDocumentation. keeps_nothing.
  - unfold updateActionPlan. keeps_nothing.
  - unfold updateReadme. keeps_nothing.
Qed.

Lemma execute_answers_nothing (t : TeamConfig) (w : W) :
  answers_nothing (agent (snd (execute' (initial W t w)))).
Proof.
  apply (execute_keeps W mnemo_query github_getFile today answers_nothing).
  - apply phases_keep_nothing.
  - apply nothing_update. intros r. split; reflexivity.
  - intros m. apply nothing_update. intros r. split; reflexivity.
  - unfold on_agent, answers_nothing. cbn. split; [reflexivity|].
    split; [reflexivity|]. intros p [].
Qed.

(** *** Flags and listed documents *)

Lemma flags_update f :
  (forall r, actionPlanUpdated (f r) = actionPlanUpdated r
             /\ readmeUpdated (f r) = readmeUpdated r
             /\ (In actionPlanPath (docsUpdated (f r))
                 <-> In actionPlanPath (docsUpdated r))
             /\ (In readmePath (docsUpdated (f r))
                 <-> In readmePath (docsUpdated r))) ->
  preserves (on_agent W flags_agree) (update_result W f).
Proof.
  intros Hf. apply preserves_update_result. intros a [Hp Hr].
  unfold flags_agree. cbn [result].
  destruct (Hf (result a)) as (-> & -> & -> & ->). now split.
Qed.

Lemma flags_set p c :
  preserves (on_agent W flags_agree) (fileChanges_set W p c).
Proof. apply preserves_fileChanges_set. intros a H. exact H. Qed.

Lemma in_push_other (x p : jsstring) (l : list jsstring) :
  x <> p -> In x (l ++ [p]) <-> In x l.
Proof.
  intros Hne. rewrite in_app_iff. simpl. split; [|tauto].
  intros [H|[H|[]]]; [exact H|]. now elim Hne.
Qed.

Lemma checkMCPUpdates_keeps_flags :
  preserves (on_agent W flags_agree) checkMCPUpdates'.
Proof.
  unfold checkMCPUpdates, applyMCPUpdatesToDocumentation.
  walk;
    first [ apply flags_set
          | apply flags_update; intros r; cbn;
            repeat split; try tauto;
            rewrite in_push_other; try tauto;
            intros H; vm_compute in H; discriminate ].
Qed.

Lemma updateActionPlan_keeps_flags :
  preserves (on_agent W flags_agree) updateActionPlan'.
Proof.
  intros s [Hp Hr]. unfold on_agent, flags_agree in *.
  unfold updateActionPlan.
  unfold bind, log, modify, try_catch, call, this_team, update_result.
  cbn [agent world console fst snd].
  destruct (mnemo_query _ (world s)) as [[plan|e] w']; cbn.
  - split.
    + split; [intros _; apply in_app_iff; right; now left|reflexivity].
    + rewrite Hr. symmetry. apply in_push_other.
      intros H; vm_compute in H; discriminate.
  - now split.
Qed.

Lemma updateReadme_keeps_flags :
  preserves (on_agent W flags_agree) updateReadme'.
Proof.
  intros s [Hp Hr]. unfold on_agent, flags_agree in *.
  unfold updateReadme.
  unfold bind, log, modify, try_catch, call, this_team, update_result.
  cbn [agent world console fst snd].
  destruct (mnemo_query _ (world s)) as [[review|e] w']; cbn.
  - destruct (readme_needs_update review); cbn.
    + split.
      * rewrite Hp. symmetry. apply in_push_other.
        intros H; vm_compute in H; discriminate.
      * split; [intros _; apply in_app_iff; right; now left|reflexivity].
    + now split.
  - now split.
Qed.

Lemma phases_keep_flags pm :
  In pm phases' -> preserves (on_agent W flags_agree) (snd pm).
Proof.
  unfold phases. simpl.
  intros [<-|[<-|[<-|[<-|[<-|[]]]]]]; simpl.
  - apply ledger_phases_keep.
  - apply ledger_phases_keep.
  - apply checkMCPUpdates_keeps_flags.
  - apply updateActionPlan_keeps_flags.
  - apply updateReadme_keeps_flags.
Qed.

Lemma execute_flags_agree (t : TeamConfig) (w : W) :
  flags_agree (agent (snd (execute' (initial W t w)))).
Proof.
  apply (execute_keeps W mnemo_query github_getFile today flags_agree).
  - apply phases_keep_flags.
  - apply flags_update. intros r. cbn. tauto.
  - intros m. apply flags_update. intros r. cbn. tauto.
  - unfold on_agent, flags_agree. cbn. split; split; (discriminate || tauto).
Qed.

(** *** The estimate *)

Local Abbreviation cost_of := (fun s : st => costEstimate (result (agent s))).

Lemma checkMCPUpdates_cost (s : st) :
  cost_of (snd (checkMCPUpdates' s)) = cost_of s
  \/ cost_of (snd (checkMCPUpdates' s)) = PrimFloat.add (cost_of s) cost_003.
Proof.
  unfold checkMCPUpdates, applyMCPUpdatesToDocumentation.
  unfold bind, log, modify, try_catch, call, this_team, now, update_result,
    fileChanges_set, ret.
  cbn [agent world console fst snd agent_team].
  destruct (mnemo_query _ (world s)) as [[updates|e] w'];
    cbn [fst snd agent world console agent_team]; [|now left].
  destruct (truthy updates && Nat.ltb 10 (length updates)); cbn;
    [|now left].
  destruct (github_getFile _ _ _ w') as [[existing|e] w'']; cbn; now right.
Qed.

Lemma updateActionPlan_cost (s : st) :
  cost_of (snd (updateActionPlan' s)) = cost_of s
  \/ cost_of (snd (updateActionPlan' s)) = PrimFloat.add (cost_of s) cost_003.
Proof.
  unfold updateActionPlan.
  unfold bind, log, modify, try_catch, call, this_team, update_result.
  cbn [agent world console fst snd].
  destruct (mnemo_query _ (world s)) as [[plan|e] w']; cbn;
    [now right|now left].
Qed.

Lemma updateReadme_cost (s : st) :
  cost_of (snd (updateReadme' s)) = cost_of s
  \/ cost_of (snd (updateReadme' s)) = PrimFloat.add (cost_of s) cost_002.
Proof.
  unfold updateReadme.
  unfold bind, log, modify, try_catch, call, this_team, update_result.
  cbn [agent world console fst snd].
  destruct (mnemo_query _ (world s)) as [[review|e] w']; cbn;
    [|now left].
  destruct (readme_needs_update review); cbn; now right.
Qed.

Lemma charge_In (c x y : float) (l : list float) :
  In x l -> y = x \/ y = PrimFloat.add x c -> In y (charge c l).
Proof.
  intros Hx Hy. unfold charge. apply in_flat_map. exists x.
  split; [exact Hx|]. simpl. destruct Hy as [->| ->]; tauto.
Qed.

Lemma zero_possible : In 0%float possible_costs.
Proof. vm_compute. tauto. Qed.

Lemma execute_cost (t : TeamConfig) (w : W) :
  In (cost_of (snd (execute' (initial W t w)))) possible_costs.
Proof.
  rewrite execute_eq.
  set (s1 := mkState (new_TeamAgent t) w [LogStarting (displayName t)]).
  cbv zeta.
  match goal with |- context [fst ?r] => set (run := r) end.
  assert (Hrun : In (cost_of (snd run)) possible_costs);
    [|destruct (fst run); exact Hrun].
  subst run. unfold try_catch at 1. unfold bind at 1.
  pose proof (answerQuestions_agent s1) as H1.
  destruct (answerQuestions' s1) as [[[]|e1] s2]; cbn [snd] in H1.
  2:{ cbn. rewrite H1. apply zero_possible. }
  unfold bind at 1.
  pose proof (reviewAnswers_agent s2) as H2.
  destruct (reviewAnswers' s2) as [[[]|e2] s3]; cbn [snd] in H2.
  2:{ cbn. rewrite H2, H1. apply zero_possible. }
  unfold bind at 1.
  pose proof (checkMCPUpdates_cost s3) as H3.
  destruct (checkMCPUpdates_never_throws W mnemo_query github_getFile today s3)
    as [[] Hn3].
  destruct (checkMCPUpdates' s3) as [o3 s4]; cbn [fst snd] in *. subst o3.
  unfold bind at 1.
  pose proof (updateActionPlan_cost s4) as H4.
  destruct (updateActionPlan_never_throws W mnemo_query s4) as [[] Hn4].
  destruct (updateActionPlan' s4) as [o4 s5]; cbn [fst snd] in *. subst o4.
  unfold bind at 1.
  pose proof (updateReadme_cost s5) as H5.
  destruct (updateReadme_never_throws W mnemo_query s5) as [[] Hn5].
  destruct (updateReadme' s5) as [o5 s6]; cbn [fst snd] in *. subst o5.
  remember possible_costs as pc eqn:Hpc. cbn. subst pc.
  unfold possible_costs.
  apply (charge_In _ (costEstimate (result (agent s5)))); [|exact H5].
  apply (charge_In _ (costEstimate (result (agent s4)))); [|exact H4].
  apply (charge_In _ (costEstimate (result (agent s3)))); [|exact H3].
  rewrite H2, H1. now left.
Qed.

(** *** The documents listed *)

Lemma known_update f :
  (forall r p, In p (docsUpdated (f r)) ->
               In p (docsUpdated r)
               \/ In p [mcpPath; actionPlanPath; readmePath]) ->
  preserves (on_agent W lists_known) (update_result W f).
Proof.
  intros Hf. apply preserves_update_result. intros a Ha p Hp.
  cbn [result] in Hp. apply Hf in Hp as [Hp|Hp]; [now apply Ha|exact Hp].
Qed.

Lemma known_set p c :
  preserves (on_agent W lists_known) (fileChanges_set W p c).
Proof. apply preserves_fileChanges_set. intros a H. exact H. Qed.

Ltac keeps_known :=
  walk;
  first [ apply known_set
        | apply known_update; intros r p; cbn;
          rewrite ?in_app_iff; simpl; tauto ].

Lemma phases_keep_known pm :
  In pm phases' -> preserves (on_agent W lists_known) (snd pm).
Proof.
  unfold phases. simpl.
  intros [<-|[<-|[<-|[<-|[<-|[]]]]]]; simpl.
  - apply ledger_phases_keep.
  - apply ledger_phases_keep.
  - unfold checkMCPUpdates, applyMCPUpdatesToDocumentation. keeps_known.
  - unfold updateActionPlan. keeps_known.
  - unfold updateReadme. keeps_known.
Qed.

Lemma execute_lists_known (t : TeamConfig) (w : W) :
  lists_known (agent (snd (execute' (initial W t w)))).
Proof.
  apply (execute_keeps W mnemo_query github_getFile today lists_known).
  - apply phases_keep_known.
  - apply known_update. intros r p. cbn. tauto.
  - intros m. apply known_update. intros r p. cbn. tauto.
  - intros p [].
Qed.

(** *** The documents listed and the pending edits *)

Lemma checkMCPUpdates_docs (s : st) :
  docsUpdated (result (agent s)) = [] -> fileChanges (agent s) = [] ->
  let a' := agent (snd (checkMCPUpdates' s)) in
  docsUpdated (result a') = map fst (fileChanges a')
  /\ (map fst (fileChanges a') = [] \/ map fst (fileChanges a') = [mcpPath])
  /\ actionPlanUpdated (result a') = actionPlanUpdated (result (agent s))
  /\ readmeUpdated (result a') = readmeUpdated (result (agent s)).
Proof.
  intros Hd Hf. cbv zeta.
  unfold checkMCPUpdates, applyMCPUpdatesToDocumentation.
  unfold bind, log, modify, try_catch, call, this_team, now, update_result,
    fileChanges_set, ret.
  cbn [agent world console fst snd agent_team].
  destruct (mnemo_query _ (world s)) as [[updates|e] w'];
    cbn [fst snd agent world console agent_team result fileChanges];
    [|cbn; rewrite Hd, Hf; cbn; tauto].
  destruct (truthy updates && Nat.ltb 10 (length updates));
    cbn [fst snd agent world console agent_team result fileChanges];
    [|cbn; rewrite Hd, Hf; cbn; tauto].
  destruct (github_getFile _ _ _ w') as [[existing|e] w''];
    cbn; rewrite Hf, Hd; cbn; tauto.
Qed.

Lemma updateActionPlan_docs (s : st) :
  let a' := agent (snd (updateActionPlan' s)) in
  fileChanges a' = fileChanges (agent s)
  /\ readmeUpdated (result a') = readmeUpdated (result (agent s))
  /\ ((docsUpdated (result a') = docsUpdated (result (agent s))
       /\ actionPlanUpdated (result a')
          = actionPlanUpdated (result (agent s)))
      \/ (docsUpdated (result a')
          = docsUpdated (result (agent s)) ++ [actionPlanPath]
          /\ actionPlanUpdated (result a') = true)).
Proof.
  cbv zeta. unfold updateActionPlan.
  unfold bind, log, modify, try_catch, call, this_team, update_result.
  cbn [agent world console fst snd].
  destruct (mnemo_query _ (world s)) as [[plan|e] w']; cbn; tauto.
Qed.

Lemma updateReadme_docs (s : st) :
  let a' := agent (snd (updateReadme' s)) in
  fileChanges a' = fileChanges (agent s)
  /\ actionPlanUpdated (result a') = actionPlanUpdated (result (agent s))
  /\ ((docsUpdated (result a') = docsUpdated (result (agent s))
       /\ readmeUpdated (result a') = readmeUpdated (result (agent s)))
      \/ (docsUpdated (result a')
          = docsUpdated (result (agent s)) ++ [readmePath]
          /\ readmeUpdated (result a') = true)).
Proof.
  cbv zeta. unfold updateReadme.
  unfold bind, log, modify, try_catch, call, this_team, update_result.
  cbn [agent world console fst snd].
  destruct (mnemo_query _ (world s)) as [[review|e] w']; cbn; [|tauto].
  destruct (readme_needs_update review); cbn; tauto.
Qed.

Lemma lists_new_agent (t : TeamConfig) :
  lists_edits_and_flags (new_TeamAgent t).
Proof. split; [reflexivity|now left]. Qed.

Lemma execute_docs (t : TeamConfig) (w : W) :
  lists_edits_and_flags (agent (snd (execute' (initial W t w)))).
Proof.
  rewrite execute_eq.
  set (s1 := mkState (new_TeamAgent t) w [LogStarting (displayName t)]).
  cbv zeta.
  match goal with |- context [fst ?r] => set (run := r) end.
  assert (Hrun : lists_edits_and_flags (agent (snd run)));
    [|destruct (fst run); exact Hrun].
  subst run. unfold try_catch at 1. unfold bind at 1.
  pose proof (answerQuestions_agent s1) as H1.
  destruct (answerQuestions' s1) as [[[]|e1] s2]; cbn [snd] in H1.
  2:{ cbn. rewrite H1. apply lists_new_agent. }
  unfold bind at 1.
  pose proof (reviewAnswers_agent s2) as H2.
  destruct (reviewAnswers' s2) as [[[]|e2] s3]; cbn [snd] in H2.
  2:{ cbn. rewrite H2, H1. apply lists_new_agent. }
  unfold bind at 1.
  assert (H3 := checkMCPUpdates_docs s3).
  rewrite H2, H1 in H3. specialize (H3 eq_refl eq_refl). cbv zeta in H3.
  destruct (checkMCPUpdates_never_throws W mnemo_query github_getFile today s3)
    as [[] Hn3].
  destruct (checkMCPUpdates' s3) as [o3 s4]; cbn [fst snd] in *. subst o3.
  unfold bind at 1.
  pose proof (updateActionPlan_docs s4) as H4. cbv zeta in H4.
  destruct (updateActionPlan_never_throws W mnemo_query s4) as [[] Hn4].
  destruct (updateActionPlan' s4) as [o4 s5]; cbn [fst snd] in *. subst o4.
  unfold bind at 1.
  pose proof (updateReadme_docs s5) as H5. cbv zeta in H5.
  destruct (updateReadme_never_throws W mnemo_query s5) as [[] Hn5].
  destruct (updateReadme' s5) as [o5 s6]; cbn [fst snd] in *. subst o5.
  cbn. unfold lists_edits_and_flags, listed. cbn.
  destruct H3 as (Hd4 & Hp4 & Ha4 & Hr4).
  destruct H4 as (Hf5 & Hr5 & H4).
  destruct H5 as (Hf6 & Ha6 & H5).
  rewrite Hf6, Hf5. split; [|exact Hp4].
  rewrite Ha6.
  destruct H5 as [[-> ->]|[-> ->]], H4 as [[-> ->]|[-> ->]];
    rewrite ?Hr5, ?Hr4, ?Ha4, Hd4; cbn; rewrite <- ?app_assoc, ?app_nil_r;
    reflexivity.
Qed.

End Facts.
Lemma possible_costs_bounded (c : float) :
  In c possible_costs -> PrimFloat.leb c cost_008 = true.
Proof.
  assert (H : forallb (fun c => PrimFloat.leb c cost_008) possible_costs
              = true) by (vm_compute; reflexivity).
  rewrite forallb_forall in H. apply H.
Qed.

(** X6.  No run of [execute] counts a question as answered or an answer as
    reviewed, and the pending edits that [getFileChanges] returns after it
    are at most one, of [docs/MCP-UPDATES.md]: the ledger and the insights
    log are never edited. *)
Theorem run_answers_nothing :
  forall W mnemo_query github_getFile today (t : TeamConfig) (w : W),
    let a := agent (snd (execute W mnemo_query github_getFile today
                           (initial W t w))) in
    questionsAnswered (result a) = 0%nat
    /\ answersReviewed (result a) = 0%nat
    /\ (forall p c, In (p, c) (getFileChanges a) -> p = mcpPath)
    /\ (length (getFileChanges a) <= 1)%nat.
Proof.
  intros W mq gf today t w a.
  destruct (execute_answers_nothing W mq gf today t w) as (Hq & Hr & Hp).
  fold a in Hq, Hr, Hp.
  pose proof (execute_one_per_path W mq gf today t w) as Hnd.
  fold a in Hnd. unfold one_per_path in Hnd.
  rewrite <- getFileChanges_paths in Hnd, Hp.
  split; [exact Hq|]. split; [exact Hr|]. split.
  - intros p c Hin. apply Hp. apply in_map_iff. now exists (p, c).
  - rewrite <- (length_map fst).
    destruct (map fst (getFileChanges a)) as [|p1 [|p2 l]]; simpl; try lia.
    exfalso. apply NoDup_cons in Hnd as [Hn _]. apply Hn.
    rewrite (Hp p1), (Hp p2) by (simpl; tauto). apply list_elem_of_here.
Qed.

(** X7.  After every run of [execute], [docsUpdated] lists only
    [docs/MCP-UPDATES.md], [docs/ACTION-PLAN.md] and [README.md]; it lists
    the action plan exactly when [actionPlanUpdated] is set and the README
    exactly when [readmeUpdated] is set, though neither file ever has a
    pending edit. *)
Theorem listed_documents_follow_flags :
  forall W mnemo_query github_getFile today (t : TeamConfig) (w : W),
    let a := agent (snd (execute W mnemo_query github_getFile today
                           (initial W t w))) in
    (forall p, In p (docsUpdated (result a)) ->
               In p [mcpPath; actionPlanPath; readmePath])
    /\ (actionPlanUpdated (result a) = true
        <-> In actionPlanPath (docsUpdated (result a)))
    /\ (readmeUpdated (result a) = true
        <-> In readmePath (docsUpdated (result a)))
    /\ ~ In actionPlanPath (map fst (getFileChanges a))
    /\ ~ In readmePath (map fst (getFileChanges a)).
Proof.
  intros W mq gf today t w a.
  destruct (execute_flags_agree W mq gf today t w) as [Hp Hr].
  destruct (execute_answers_nothing W mq gf today t w) as (_ & _ & Hk).
  fold a in Hp, Hr, Hk. rewrite <- getFileChanges_paths in Hk.
  split; [apply execute_lists_known|].
  split; [exact Hp|]. split; [exact Hr|].
  split; intros Hin; apply Hk in Hin; vm_compute in Hin; discriminate.
Qed.

(** X8.  The cost estimate of every run of [execute] is one of the sums
    that the last three phases can make, each adding its charge or nothing
    to zero, and so is at most [0.08]. *)
Theorem run_cost_is_bounded :
  forall W mnemo_query github_getFile today (t : TeamConfig) (w : W),
    let r := result (agent (snd (execute W mnemo_query github_getFile today
                                   (initial W t w)))) in
    In (costEstimate r) possible_costs
    /\ PrimFloat.leb (costEstimate r) cost_008 = true.
Proof.
  intros W mq gf today t w r.
  pose proof (execute_cost W mq gf today t w) as H. fold r in H.
  split; [exact H|]. now apply possible_costs_bounded.
Qed.



(** *** Runs in which the ledger can be read *)

Section Reachable.
Variable W : Type.
Variable mnemo_query : prompt -> W -> outcome jsstring * W.
Variable github_getFile :
  jsstring -> jsstring -> jsstring -> W -> outcome jsstring * W.
Variable today : W -> jsstring.
Hypothesis ledger_reachable :
  forall w, exists b,
    fst (github_getFile (js "CyberBrown") (js "nexus") qaPath w) = Ok b.

Lemma phases_return (s : state W) :
  exists s',
    for_each (phases W mnemo_query github_getFile today) (fun pm => snd pm) s
    = (Ok tt, s').
Proof.
  destruct (for_each _ _ s) as [[[]|e] s'] eqn:Hf; [now exists s'|].
  exfalso.
  assert (Ht : fst (for_each (phases W mnemo_query github_getFile today)
                      (fun pm => snd pm) s) = Throw e) by now rewrite Hf.
  apply for_each_throws in Ht as (before & [p m] & after & Hph & _ & Hx).
  cbn [snd] in Hx.
  apply (phase_throws W mnemo_query github_getFile today p m) in Hx
    as [_ (e0 & He0 & _)].
  - destruct (ledger_reachable
                (world (snd (for_each before (fun pm => snd pm) s))))
      as [b Hb].
    congruence.
  - rewrite Hph. apply in_elt.
Qed.

Lemma execute_succeeds (t : TeamConfig) (w : W) :
  let run := execute W mnemo_query github_getFile today (initial W t w) in
  fst run = Ok (result (agent (snd run)))
  /\ success (result (agent (snd run))) = true.
Proof.
  cbv zeta.
  pose proof (execute_run W mnemo_query github_getFile today t w) as Hrun.
  cbv zeta in Hrun. destruct Hrun as [Hok Hrest].
  split; [exact Hok|].
  destruct (phases_return
              (mkState (new_TeamAgent t) w [LogStarting (displayName t)]))
    as [s' Hs'].
  rewrite Hs' in Hrest. now destruct Hrest as [Hsucc _].
Qed.

End Reachable.

(** *** The client that reads files *)

Section Client.
Import Contents.
Variable W : Type.
Variable fetch_contents :
  jsstring -> jsstring -> jsstring -> jsstring ->
  W -> outcome (option jsstring) * W.
Variable atob : jsstring -> outcome jsstring.

Local Abbreviation getFile' := (getFile W fetch_contents atob).

Lemma getFile_returns owner rp path branch (s : client W) :
  exists text, fst (getFile' owner rp path branch s) = Ok text.
Proof.
  unfold getFile, try_catch, bind, send_request, decode, console_error, modify,
    ret.
  destruct (fetch_contents owner rp path branch (remote s))
    as [[[c|]|e] w]; cbn; try (now eexists).
  destruct (truthy c); cbn; [|now eexists].
  destruct (atob _); cbn; now eexists.
Qed.

Lemma getFile_failure owner rp path branch (s : client W) e :
  fst (fetch_contents owner rp path branch (remote s)) = Throw e ->
  fst (getFile' owner rp path branch s) = Ok []
  /\ errlog (snd (getFile' owner rp path branch s))
     = errlog s ++ [(path, e)].
Proof.
  unfold getFile, try_catch, bind, send_request, decode, console_error, modify,
    ret.
  destruct (fetch_contents owner rp path branch (remote s))
    as [[o|e'] w]; cbn; [discriminate|].
  intros [= ->]. now split.
Qed.

End Client.

(** X9.  [getFile] never throws.  When the request fails, when the answer
    has no content or an empty one, and when the content is not base64, it
    returns the empty text, which is what it returns for an empty file; a
    failure of the request is logged and nothing else tells it apart. *)
Theorem getFile_reads_failure_as_empty :
  forall W fetch_contents atob owner rp path branch (s : Contents.client W),
    let r := Contents.getFile W fetch_contents atob owner rp path branch s in
    let answer := fst (fetch_contents owner rp path branch
                         (Contents.remote s)) in
    (exists text, fst r = Ok text)
    /\ (forall e, answer = Throw e ->
                  fst r = Ok []
                  /\ Contents.errlog (snd r)
                     = Contents.errlog s ++ [(path, e)])
    /\ (answer = Ok None \/ answer = Ok (Some []) ->
        fst r = Ok [] /\ Contents.errlog (snd r) = Contents.errlog s)
    /\ (forall c e, answer = Ok (Some c) ->
                    atob (replace_all (Lit nl) 0 [] c) = Throw e ->
                    fst r = Ok []).
Proof.
  intros W fc atob owner rp path branch s r answer.
  split; [apply getFile_returns|].
  split; [intros e He; now apply getFile_failure|].
  subst r answer.
  unfold Contents.getFile, try_catch, bind, Contents.send_request,
    Contents.decode,
    Contents.console_error, modify, ret.
  destruct (fc owner rp path branch (Contents.remote s)) as [[[c|]|e] w];
    cbn [fst snd].
  - split.
    + intros [H|H]; [discriminate|]. injection H as ->. cbn. now split.
    + intros c' e [= <-] Ha. destruct (truthy c); [|reflexivity].
      now rewrite Ha.
  - split; [intros _; now split|]. discriminate.
  - split; [intros [H|H]; discriminate|]. discriminate.
Qed.

(** X10.  With the client's [getFile] behind it, every run of [execute]
    returns a result whose success flag is set, whatever the host and the
    answering service do: the ledger never fails to load, so no phase
    throws, and the coordinator has no failure to report. *)
Theorem run_with_client_always_succeeds :
  forall W fetch_contents atob mnemo_query today (t : TeamConfig)
         (s : Contents.client W),
    let getFile := Contents.getFile_main W fetch_contents atob in
    let run := execute (Contents.client W) mnemo_query getFile today
                 (initial (Contents.client W) t s) in
    fst run = Ok (result (agent (snd run)))
    /\ success (result (agent (snd run))) = true
    /\ Coordinator.needs_issue
         (fst (agent_run mnemo_query getFile today t s)) = false.
Proof.
  intros W fc atob mq today t s getFile run.
  assert (Hreach : forall w, exists b,
             fst (getFile (js "CyberBrown") (js "nexus") qaPath w) = Ok b).
  { intros w. apply getFile_returns. }
  destruct (execute_succeeds (Contents.client W) mq getFile today Hreach t s)
    as [Hok Hsucc].
  fold run in Hok, Hsucc.
  split; [exact Hok|]. split; [exact Hsucc|].
  unfold agent_run. fold run. destruct run as [o s'].
  cbn [fst snd] in *. subst o. cbn. now rewrite Hsucc.
Qed.

(** X24.  With the client's [getFile], [applyMCPUpdatesToDocumentation]
    always returns, and the pending edit of [docs/MCP-UPDATES.md] is then
    what [getFile] returned followed by the new entry.  The header that
    the handler around the read would supply is never used; when the read
    fails the pending edit holds the new entry alone. *)
Theorem mcp_log_is_rebuilt_from_what_was_read :
  forall W0 fetch_contents atob today (updates : jsstring)
         (s : state (Contents.client W0)),
    let getFile := Contents.getFile_main W0 fetch_contents atob in
    let r := applyMCPUpdatesToDocumentation (Contents.client W0) getFile today
               updates s in
    let t := agent_team (agent s) in
    exists text,
      fst (getFile (js "CyberBrown") (name t) mcpPath (world s)) = Ok text
      /\ fst r = Ok tt
      /\ map_get mcpPath (fileChanges (agent (snd r)))
         = Some (text ++ mcp_entry (today (world s)) updates)
      /\ (forall e,
             fst (fetch_contents (js "CyberBrown") (name t) mcpPath
                    (js "main") (Contents.remote (world s))) = Throw e ->
             text = []).
Proof.
  intros W0 fc atob today updates s getFile r t.
  destruct (getFile_returns W0 fc atob (js "CyberBrown") (name t) mcpPath
              (js "main") (world s)) as [text Htext].
  exists text. split; [exact Htext|].
  assert (Hfail : forall e,
             fst (fc (js "CyberBrown") (name t) mcpPath (js "main")
                    (Contents.remote (world s))) = Throw e -> text = []).
  { intros e He.
    destruct (getFile_failure W0 fc atob _ _ _ _ (world s) e He) as [H0 _].
    rewrite Htext in H0. now injection H0. }
  subst r. unfold applyMCPUpdatesToDocumentation.
  unfold bind, now, this_team, try_catch, call, fileChanges_set,
    update_result, modify, ret.
  cbn [agent world console fst snd]. fold t.
  change (getFile (js "CyberBrown") (name t) mcpPath (world s))
    with (Contents.getFile W0 fc atob (js "CyberBrown") (name t) mcpPath
            (js "main") (world s)).
  destruct (Contents.getFile W0 fc atob (js "CyberBrown") (name t) mcpPath
              (js "main") (world s)) as [[text'|e] w'] eqn:Hg;
    cbn [fst] in Htext; [|discriminate].
  injection Htext as ->. cbn.
  split; [reflexivity|]. split; [apply map_get_set|exact Hfail].
Qed.

End AgentMore.

(** ** The client of the repository host, further *)

Module GitHubMore.
Import JS Regex Eff EffFacts.
Import GitHub GitHubSpec GitHubFacts Samples.

Local Arguments js : simpl never.

Lemma fetch_GetRef owner rp branch (w : net) :
  fetch (GetRef owner rp branch) w
  = (match fault_next w, branch_head w (owner, rp) branch with
     | Some e, _ => Throw e
     | None, Some c => Ok (RefJson (Oid c))
     | None, None =>
         Throw (Error (match host w !! (owner, rp) with
                       | Some _ => js "GitHub API error: 422 Unprocessable"
                       | None => js "GitHub API error: 404 Not Found"
                       end))
     end,
     mkNet (host w) (tail (faults w)) (sent w ++ [GetRef owner rp branch])).
Proof.
  unfold fetch, fault_next, branch_head. cbn [request_repo].
  destruct (faults w) as [|[[e|e]|] later]; cbn [tail]; try reflexivity;
    (destruct (host w !! (owner, rp)) as [rp0|] eqn:Hh; [|reflexivity]);
    cbn [serve]; (destruct (refs rp0 !! branch); [|reflexivity]);
    now rewrite insert_id.
Qed.

(** X11.  [branchExists] never throws.  It sends the one request for the
    ref and changes nothing on the host; it answers [true] exactly when
    the request is answered and the branch is there, so a failure on the
    way, or an answer that is lost, is reported as a branch that does not
    exist. *)
Theorem branchExists_reports_failure_as_absent owner rp branch (w : net) :
  branchExists owner rp branch w
  = (Ok (branch_seen w owner rp branch),
     mkNet (host w) (tail (faults w)) (sent w ++ [GetRef owner rp branch])).
Proof.
  unfold branchExists, try_catch, bind, ret. rewrite fetch_GetRef.
  unfold branch_seen.
  destruct (fault_next w); [reflexivity|].
  destruct (branch_head w (owner, rp) branch); reflexivity.
Qed.

(** X12.  A run of [createBranch] that returns has found [main] at a
    commit and no ref of the new name; it returns the name of that commit
    and leaves the host as it was but for the new ref, which points to the
    commit of [main].  It has sent two requests, the second the creation
    of the ref. *)
Theorem createBranch_points_at_main owner rp branchName (w w' : net) s :
  createBranch owner rp branchName w = (Ok s, w') ->
  exists rp0 c,
    host w !! (owner, rp) = Some rp0
    /\ refs rp0 !! js "main" = Some c
    /\ refs rp0 !! branchName = None
    /\ s = Oid c
    /\ host w'
       = <[(owner, rp) :=
             mkRepo (blobs rp0) (objects rp0) (<[branchName := c]> (refs rp0))]>
           (host w)
    /\ sent w'
       = sent w ++ [GetRef owner rp (js "main");
                    PostRef owner rp branchName (Oid c)].
Proof.
  unfold createBranch. intros H.
  apply bind_ok_inv in H as (mainRef & w1 & Hf & H).
  rewrite fetch_GetRef in Hf.
  destruct (fault_next w); [discriminate|].
  unfold branch_head in Hf.
  destruct (host w !! (owner, rp)) as [rp0|] eqn:Hh; [|discriminate].
  destruct (refs rp0 !! js "main") as [c|] eqn:Hm; [|discriminate].
  injection Hf as <- <-.
  apply bind_ok_inv in H as (mainSha & w2 & Ho & H).
  cbn in Ho. injection Ho as <- <-.
  apply bind_ok_inv in H as (r & w3 & Hp & H).
  cbn in H. injection H as <- <-.
  apply fetch_ok in Hp as (rp1 & rp2 & Hh1 & Hs & Hhost & Hsent).
  cbn [request_repo host sent] in Hh1, Hhost, Hsent.
  rewrite Hh in Hh1. injection Hh1 as <-.
  cbn [serve] in Hs.
  destruct (refs rp0 !! branchName) eqn:Hb; [discriminate|].
  unfold as_commit in Hs.
  destruct (objects rp0 !! c) as [[files|t ps m]|]; try discriminate.
  injection Hs as _ <-.
  exists rp0, c. repeat split; try assumption.
  rewrite Hsent, <- app_assoc. reflexivity.
Qed.

Lemma createBranch_points_at_main_witness :
  exists rp0 c,
    host net0 !! (owner0, js "de") = Some rp0
    /\ refs rp0 !! js "main" = Some c
    /\ refs rp0 !! branch1 = None
    /\ Oid 1 = Oid c
    /\ host (snd (createBranch owner0 (js "de") branch1 net0))
       = <[(owner0, js "de") :=
             mkRepo (blobs rp0) (objects rp0) (<[branch1 := c]> (refs rp0))]>
           (host net0)
    /\ sent (snd (createBranch owner0 (js "de") branch1 net0))
       = sent net0 ++ [GetRef owner0 (js "de") (js "main");
                       PostRef owner0 (js "de") branch1 (Oid c)].
Proof.
  apply (createBranch_points_at_main owner0 (js "de") branch1 net0).
  vm_compute. reflexivity.
Defined.

(** X13.  [createBranch] on a branch that exists throws and leaves the
    host as it was. *)
Theorem createBranch_refuses_existing_branch owner rp branchName (w : net) c :
  branch_head w (owner, rp) branchName = Some c ->
  (exists e, fst (createBranch owner rp branchName w) = Throw e)
  /\ host (snd (createBranch owner rp branchName w)) = host w.
Proof.
  intros Hb. unfold createBranch, bind. rewrite fetch_GetRef.
  destruct (fault_next w) as [e|]; [split; [now exists e|reflexivity]|].
  destruct (branch_head w (owner, rp) (js "main")) as [c0|];
    [|split; [now eexists|reflexivity]].
  cbn [object_sha ret].
  set (w1 := mkNet _ _ _).
  unfold branch_head in Hb.
  destruct (fetch_cases (PostRef owner rp branchName (Oid c0)) w1)
    as [(e & He)|[(rp0 & r & rp' & e & Hh & Hs & He)
                 |(rp0 & r & rp' & Hh & Hs & He)]]; rewrite He.
  - split; [now exists e|reflexivity].
  - exfalso. cbn [request_repo] in Hh. subst w1. cbn [host] in Hh.
    rewrite Hh in Hb. cbn [serve] in Hs. now rewrite Hb in Hs.
  - exfalso. cbn [request_repo] in Hh. subst w1. cbn [host] in Hh.
    rewrite Hh in Hb. cbn [serve] in Hs. now rewrite Hb in Hs.
Qed.

Lemma createBranch_refuses_existing_branch_witness :
  (exists e, fst (createBranch owner0 (js "de") branch0 net0) = Throw e)
  /\ host (snd (createBranch owner0 (js "de") branch0 net0)) = host net0.
Proof.
  apply (createBranch_refuses_existing_branch owner0 (js "de") branch0 net0
           1%nat).
  vm_compute. reflexivity.
Defined.

(** *** Runs without faults *)

Lemma fetch_run rq (w : net) rp0 resp rp' :
  faults w = [] ->
  host w !! request_repo rq = Some rp0 ->
  serve rq rp0 = Some (resp, rp') ->
  fetch rq w
  = (Ok resp, mkNet (<[request_repo rq := rp']> (host w)) [] (sent w ++ [rq])).
Proof.
  intros Hf Hh Hs. unfold fetch. now rewrite Hf, Hh, Hs.
Qed.

Lemma create_blobs_run owner rp files tree (w : net) rp0 :
  faults w = [] ->
  host w !! (owner, rp) = Some rp0 ->
  create_blobs owner rp files tree w
  = (Ok (tree ++ map entry_of files),
     mkNet (<[(owner, rp) :=
                mkRepo (list_to_set (map content files) ∪ blobs rp0)
                  (objects rp0) (refs rp0)]> (host w))
       [] (sent w ++ map (fun f => PostBlob owner rp (content f)) files)).
Proof.
  revert tree w rp0. induction files as [|f files IH]; intros tree w rp0 Hf Hh.
  - cbn [create_blobs map]. unfold ret. rewrite !app_nil_r.
    cbn [list_to_set]. rewrite union_empty_l_L, repo_eta.
    rewrite insert_id by exact Hh. destruct w; cbn in *. now subst.
  - cbn [create_blobs]. unfold bind at 1.
    rewrite (fetch_run (PostBlob owner rp (content f)) w rp0
               (ObjectJson (Bid (content f)))
               (mkRepo ({[content f]} ∪ blobs rp0) (objects rp0) (refs rp0))
               Hf Hh eq_refl).
    cbn [sha_of]. unfold bind at 1, ret at 1. cbn [request_repo].
    rewrite (IH _ _ (mkRepo ({[content f]} ∪ blobs rp0) (objects rp0)
                       (refs rp0))); [|reflexivity|apply lookup_insert_eq].
    cbn [host sent blobs objects refs map].
    rewrite insert_insert_eq, <- !app_assoc. cbn [app].
    f_equal. f_equal. f_equal. f_equal.
    apply set_eq. intros x. cbn [list_to_set].
    rewrite !elem_of_union, elem_of_singleton. tauto.
Qed.

Lemma createCommit_run owner rp branch message files (w : net)
      rp0 base t ps m0 old :
  faults w = [] ->
  host w !! (owner, rp) = Some rp0 ->
  refs rp0 !! branch = Some base ->
  objects rp0 !! base = Some (Commit t ps m0) ->
  objects rp0 !! t = Some (Tree old) ->
  exists c, fst (createCommit owner rp branch message files w) = Ok c.
Proof.
  intros Hf Hh Hbase Hcommit Htree. unfold createCommit.
  unfold bind at 1.
  rewrite (fetch_run (GetRef owner rp branch) w rp0 (RefJson (Oid base)) rp0
             Hf Hh)
    by (cbn [serve]; now rewrite Hbase).
  cbn [request_repo object_sha]. unfold bind at 1, ret at 1.
  rewrite insert_id by exact Hh.
  unfold bind at 1.
  match goal with |- context [fetch (GetCommit owner rp (Oid base)) ?w0] =>
    rewrite (fetch_run (GetCommit owner rp (Oid base)) w0 rp0
               (CommitJson (Oid base) (Oid t)) rp0 eq_refl Hh)
  end.
  2:{ cbn [serve]. now rewrite Hcommit. }
  cbn [request_repo tree_sha host sent]. unfold bind at 1, ret at 1.
  rewrite insert_id by exact Hh.
  unfold bind at 1.
  match goal with |- context [create_blobs owner rp files [] ?w0] =>
    rewrite (create_blobs_run owner rp files [] w0 rp0 eq_refl Hh)
  end.
  cbn [app host sent].
  set (rp3 := mkRepo (list_to_set (map content files) ∪ blobs rp0)
                (objects rp0) (refs rp0)).
  unfold bind at 1.
  match goal with
  |- context [fetch (PostTree owner rp (Oid t) (map entry_of files)) ?w0] =>
  rewrite (fetch_run (PostTree owner rp (Oid t) (map entry_of files)) w0 rp3
             (ObjectJson (Oid (fresh_id rp3)))
             (mkRepo (blobs rp3)
                (<[fresh_id rp3 := Tree (overlay old files)]> (objects rp3))
                (refs rp3)) eq_refl)
  end.
  2:{ cbn [request_repo host]. apply lookup_insert_eq. }
  2:{ cbn [serve]. unfold as_tree. cbn [objects rp3]. rewrite Htree.
      rewrite layer_overlay; [reflexivity|].
      intros f Hin. cbn [blobs rp3]. apply elem_of_union. left.
      apply elem_of_list_to_set, list_elem_of_In, in_map, Hin. }
  cbn [request_repo sha_of host sent]. unfold bind at 1, ret at 1.
  rewrite insert_insert_eq.
  set (nt := fresh_id rp3).
  set (rp4 := mkRepo (blobs rp3)
                (<[nt := Tree (overlay old files)]> (objects rp3)) (refs rp3)).
  assert (Hnt : objects rp0 !! nt = None).
  { apply not_elem_of_dom. unfold nt, fresh_id. cbn [objects rp3].
    apply is_fresh. }
  assert (Hbt : base <> nt) by congruence.
  unfold bind at 1.
  match goal with
  |- context [fetch (PostCommit owner rp message (Oid nt) [Oid base]) ?w0] =>
  rewrite (fetch_run (PostCommit owner rp message (Oid nt) [Oid base]) w0 rp4
             (CommitJson (Oid (fresh_id rp4)) (Oid nt))
             (mkRepo (blobs rp4)
                (<[fresh_id rp4 := Commit nt [base] message]> (objects rp4))
                (refs rp4)) eq_refl)
  end.
  2:{ cbn [request_repo host]. apply lookup_insert_eq. }
  2:{ cbn [serve]. unfold as_tree, as_commit. cbn [objects rp4 rp3 mapM].
      rewrite lookup_insert_eq.
      rewrite lookup_insert_ne by congruence. rewrite Hcommit. reflexivity. }
  cbn [request_repo sha_of host sent]. unfold bind at 1, ret at 1.
  rewrite insert_insert_eq.
  set (nc := fresh_id rp4).
  set (rp5 := mkRepo (blobs rp4)
                (<[nc := Commit nt [base] message]> (objects rp4)) (refs rp4)).
  unfold bind at 1.
  match goal with |- context [fetch (PatchRef owner rp branch (Oid nc)) ?w0] =>
  rewrite (fetch_run (PatchRef owner rp branch (Oid nc)) w0 rp5
             (RefJson (Oid nc))
             (mkRepo (blobs rp5) (objects rp5) (<[branch := nc]> (refs rp5)))
             eq_refl)
  end.
  2:{ cbn [request_repo host]. apply lookup_insert_eq. }
  2:{ cbn [serve]. cbn [refs rp5 rp4 rp3]. rewrite Hbase.
      unfold as_commit. cbn [objects rp5]. now rewrite lookup_insert_eq. }
  exists (Oid nc). reflexivity.
Qed.

(** X14.  When no request fails on the way and the branch points to a
    commit with a tree, [createCommit] returns, whatever the files.  It has
    then sent, in this order, the request for the ref, the request for the
    base commit, one blob for each file in the order of the files, the
    tree with one entry for each file over the base tree, the commit with
    the old head as its only parent, and the update of the ref to the new
    commit, which it returns. *)
Theorem createCommit_returns_without_faults
        owner rp branch message files (w : net) rp0 base t ps m0 old :
  faults w = [] ->
  host w !! (owner, rp) = Some rp0 ->
  refs rp0 !! branch = Some base ->
  objects rp0 !! base = Some (Commit t ps m0) ->
  objects rp0 !! t = Some (Tree old) ->
  let r := createCommit owner rp branch message files w in
  exists nt nc,
    fst r = Ok (Oid nc)
    /\ sent (snd r)
       = sent w
         ++ [GetRef owner rp branch; GetCommit owner rp (Oid base)]
         ++ map (fun f => PostBlob owner rp (content f)) files
         ++ [PostTree owner rp (Oid t) (map entry_of files);
             PostCommit owner rp message (Oid nt) [Oid base];
             PatchRef owner rp branch (Oid nc)].
Proof.
  intros Hf Hh Hbase Hcommit Htree r.
  destruct (createCommit_run owner rp branch message files w rp0 base t ps m0
              old Hf Hh Hbase Hcommit Htree) as [c Hc].
  fold r in Hc. destruct r as [o w'] eqn:Hr. cbn [fst snd] in *. subst o.
  apply createCommit_ok in Hr
    as (rp0' & base' & t' & ps' & m0' & old' & Hh' & Hbase' & Hcommit'
        & Htree' & Hrest).
  rewrite Hh in Hh'. injection Hh' as <-.
  rewrite Hbase in Hbase'. injection Hbase' as <-.
  rewrite Hcommit in Hcommit'. injection Hcommit' as <- <- <-.
  cbv zeta in Hrest. destruct Hrest as (-> & _ & Hsent).
  eexists _, _. split; [reflexivity|exact Hsent].
Qed.

Lemma createCommit_returns_without_faults_witness :
  exists nt nc,
    fst run_two = Ok (Oid nc)
    /\ sent (snd run_two)
       = sent net0
         ++ [GetRef owner0 (js "de") branch0;
             GetCommit owner0 (js "de") (Oid 1)]
         ++ map (fun f => PostBlob owner0 (js "de") (content f))
              [same_readme; new_insights]
         ++ [PostTree owner0 (js "de") (Oid 0)
               (map entry_of [same_readme; new_insights]);
             PostCommit owner0 (js "de") (js "updates") (Oid nt) [Oid 1];
             PatchRef owner0 (js "de") branch0 (Oid nc)].
Proof.
  apply (createCommit_returns_without_faults owner0 (js "de") branch0
           (js "updates") [same_readme; new_insights] net0 repo0 1%nat 0%nat
           [] (js "init") {[ js "README.md" := js "hello" ]});
    vm_compute; reflexivity.
Defined.

(** X15.  [createCommit] with no file still makes a commit when it
    returns: it sends no blob and an empty tree array, and the branch
    moves to a new commit whose tree holds the files of its parent. *)
Theorem createCommit_without_files_is_empty_commit
        owner rp branch message (w w' : net) c :
  createCommit owner rp branch message [] w = (Ok c, w') ->
  exists rp0 rp1 base n old,
    host w !! (owner, rp) = Some rp0
    /\ host w' !! (owner, rp) = Some rp1
    /\ refs rp0 !! branch = Some base
    /\ c = Oid n
    /\ n <> base
    /\ refs rp1 !! branch = Some n
    /\ commit_files rp0 base = Some old
    /\ commit_files rp1 n = Some old
    /\ blobs rp1 = blobs rp0
    /\ List.filter (fun rq => match rq with PostBlob _ _ _ => true
                                        | _ => false end)
         (drop (length (sent w)) (sent w')) = [].
Proof.
  intros Hr.
  apply createCommit_ok in Hr
    as (rp0 & base & t & ps & m0 & old & Hh & Hbase & Hcommit & Htree & Hrest).
  cbv zeta in Hrest. destruct Hrest as (-> & Hhost & Hsent).
  set (nt := fresh_id rp0) in *.
  set (objs1 := <[nt := Tree (overlay old [])]> (objects rp0)) in *.
  set (nc := fresh (dom objs1)) in *.
  assert (Hnt : objects rp0 !! nt = None).
  { apply not_elem_of_dom. unfold nt, fresh_id. apply is_fresh. }
  assert (Hnc : objs1 !! nc = None).
  { apply not_elem_of_dom. apply is_fresh. }
  assert (Hne : nc <> nt).
  { intros Heq. rewrite Heq in Hnc. unfold objs1 in Hnc.
    now rewrite lookup_insert_eq in Hnc. }
  assert (Hnb : nc <> base).
  { intros Heq. rewrite Heq in Hnc. unfold objs1 in Hnc.
    rewrite lookup_insert_ne in Hnc by congruence. congruence. }
  eexists rp0, _, base, nc, old.
  split; [exact Hh|]. split; [rewrite Hhost; apply lookup_insert_eq|].
  split; [exact Hbase|]. split; [reflexivity|]. split; [exact Hnb|].
  split; [cbn [refs]; apply lookup_insert_eq|].
  split; [unfold commit_files, as_tree; now rewrite Hcommit, Htree|].
  split.
  - unfold commit_files, as_tree. cbn [objects].
    rewrite lookup_insert_eq. rewrite lookup_insert_ne by congruence.
    unfold objs1. now rewrite lookup_insert_eq.
  - split.
    + cbn [blobs map list_to_set]. now rewrite union_empty_l_L.
    + rewrite Hsent, drop_app_length. reflexivity.
Qed.

Lemma createCommit_without_files_is_empty_commit_witness :
  exists rp0 rp1 base n old,
    host net0 !! (owner0, js "de") = Some rp0
    /\ host (snd (createCommit owner0 (js "de") branch0 (js "updates") []
                    net0)) !! (owner0, js "de") = Some rp1
    /\ refs rp0 !! branch0 = Some base
    /\ Oid 3 = Oid n
    /\ n <> base
    /\ refs rp1 !! branch0 = Some n
    /\ commit_files rp0 base = Some old
    /\ commit_files rp1 n = Some old
    /\ blobs rp1 = blobs rp0
    /\ List.filter (fun rq => match rq with PostBlob _ _ _ => true
                                        | _ => false end)
         (drop (length (sent net0))
            (sent (snd (createCommit owner0 (js "de") branch0 (js "updates")
                          [] net0)))) = [].
Proof.
  apply (createCommit_without_files_is_empty_commit owner0 (js "de") branch0
           (js "updates") net0).
  vm_compute. reflexivity.
Defined.

End GitHubMore.

(** ** The coordinator *)

Module CoordinatorFacts.
Import JS Regex Eff EffFacts.
Import Agent Coordinator CoordinatorSpec.

Local Arguments js : simpl never.

Section Facts.
Variable W : Type.
Variable TEAMS : list TeamConfig.
Variable agent_execute :
  TeamConfig -> W -> outcome (AgentResult * TeamAgent) * W.
Variable mnemo_loadTeamDocs : W -> outcome unit * W.
Variable mnemo_getStats : W -> outcome (float * float) * W.
Variable github_createIssue :
  jsstring -> jsstring -> document -> document -> list jsstring ->
  W -> outcome jsstring * W.
Variable github_branchExists :
  jsstring -> jsstring -> jsstring -> W -> outcome bool * W.
Variable github_createBranch :
  jsstring -> jsstring -> jsstring -> W -> outcome jsstring * W.
Variable github_createCommit :
  jsstring -> jsstring -> jsstring -> document ->
  list (jsstring * jsstring) -> W -> outcome jsstring * W.
Variable github_createPR :
  jsstring -> jsstring -> GitHubPR -> W -> outcome jsstring * W.
Variable slack_post : jsstring -> float -> W -> outcome unit * W.
Variable now_iso : W -> jsstring.
Variable today : W -> jsstring.

Local Abbreviation rs := (run_state W).
Local Abbreviation createFailureIssue' :=
  (createFailureIssue W github_createIssue now_iso today).
Local Abbreviation process_team' :=
  (process_team W agent_execute github_createIssue now_iso today).
Local Abbreviation createPullRequest' :=
  (createPullRequest W TEAMS github_branchExists github_createBranch
     github_createCommit github_createPR now_iso today).
Local Abbreviation sendCostAlert' := (sendCostAlert W slack_post).
Local Abbreviation handleScheduled' :=
  (handleScheduled W TEAMS agent_execute mnemo_loadTeamDocs mnemo_getStats
     github_createIssue github_branchExists github_createBranch
     github_createCommit github_createPR slack_post now_iso today).

Lemma keep_call {A} P (f : W -> outcome A * W) :
  preserves (on_local W P) (call W f).
Proof.
  intros s H. unfold call. destruct (f (ext s)) as [o w]. exact H.
Qed.

Lemma keep_read {A} P (f : W -> A) : preserves (on_local W P) (read W f).
Proof. intros s H. exact H. Qed.

Lemma keep_console_log P e :
  (forall o r a i, P o r a i -> P (o ++ [e]) r a i) ->
  preserves (on_local W P) (console_log W e).
Proof. intros HP s H. apply HP, H. Qed.

Lemma keep_push_result P x :
  (forall o r a i, P o r a i -> P o (r ++ [x]) a i) ->
  preserves (on_local W P) (push_result W x).
Proof. intros HP s H. apply HP, H. Qed.

Lemma keep_push_agent P x :
  (forall o r a i, P o r a i -> P o r (a ++ [x]) i) ->
  preserves (on_local W P) (push_agent W x).
Proof. intros HP s H. apply HP, H. Qed.

Lemma keep_push_issue P x :
  (forall o r a i, P o r a i -> P o r a (i ++ [x])) ->
  preserves (on_local W P) (push_issue W x).
Proof. intros HP s H. apply HP, H. Qed.

Ltac keeps_run :=
  repeat first
    [ apply preserves_ret | apply preserves_throw | apply preserves_get
    | apply keep_call | apply keep_read
    | apply preserves_bind; [|intros ?]
    | apply preserves_try_catch; [|intros ?]
    | apply preserves_for_each; intros ?
    | match goal with
      | |- preserves _ (if ?b then _ else _) => destruct b
      | |- preserves _ (match ?o with Some _ => _ | None => _ end) =>
          destruct o
      | |- preserves _ (match ?l with [] => _ | _ :: _ => _ end) =>
          destruct l
      end ].


(** *** What never throws *)

Lemma never_throws_console_log e : never_throws (console_log W e).
Proof. apply never_throws_modify. Qed.

Lemma never_throws_read {A} (f : W -> A) : never_throws (read W f).
Proof. intros s. now eexists. Qed.

Lemma createFailureIssue_never_throws t r :
  never_throws (createFailureIssue' t r).
Proof.
  unfold createFailureIssue.
  apply never_throws_bind; [apply never_throws_read|intros date].
  apply never_throws_bind; [apply never_throws_read|intros time].
  apply never_throws_try_catch. intros e.
  apply never_throws_bind; [apply never_throws_console_log|intros _].
  apply never_throws_ret.
Qed.

Lemma process_team_never_throws t : never_throws (process_team' t).
Proof.
  unfold process_team. apply never_throws_try_catch. intros e.
  apply never_throws_bind; [apply never_throws_console_log|intros _].
  apply never_throws_modify.
Qed.

Lemma sendCostAlert_never_throws env c : never_throws (sendCostAlert' env c).
Proof.
  unfold sendCostAlert.
  apply never_throws_bind; [apply never_throws_console_log|intros _].
  destruct (SLACK_WEBHOOK_URL env) as [url|]; [|apply never_throws_ret].
  destruct (truthy url); [|apply never_throws_ret].
  apply never_throws_try_catch. intros e. apply never_throws_console_log.
Qed.

(** *** One round of the team loop *)

Lemma cost_warnings_other (l : list console_entry) (e : console_entry) :
  (forall c, e <> WarnCostThreshold c) ->
  cost_warnings (l ++ [e]) = cost_warnings l.
Proof.
  intros He. unfold cost_warnings. rewrite omap_app. cbn.
  destruct e as [c| | | | | |]; try (now rewrite app_nil_r). now elim (He c).
Qed.

Lemma process_team_run t s :
  let r := process_team' t s in
  let o := fst (agent_execute t (ext s)) in
  fst r = Ok tt
  /\ run_results (snd r) = run_results s ++ [team_entry t o]
  /\ run_agents (snd r)
     = run_agents s ++ match returned_agent o with Some a => [a] | None => [] end
  /\ cost_warnings (out (snd r)) = cost_warnings (out s)
  /\ (if needs_issue o
      then exists url, run_issues (snd r) = run_issues s ++ [url]
      else run_issues (snd r) = run_issues s).
Proof.
  cbv zeta. unfold process_team, createFailureIssue.
  unfold try_catch, bind, call, read, push_result, push_agent, push_issue,
    console_log, modify, ret.
  destruct (agent_execute t (ext s)) as [[[res ag]|e] w1];
    cbn [fst snd needs_issue team_entry returned_agent].
  - destruct (negb (success res) && Nat.ltb 0 (length (errors res))); cbn.
    + destruct (github_createIssue _ _ _ _ _ w1) as [[url|e] w2]; cbn.
      * repeat split; eauto.
      * repeat split; eauto. now apply cost_warnings_other.
    + repeat split; eauto.
  - cbn. rewrite app_nil_r. repeat split; eauto.
    now apply cost_warnings_other.
Qed.

Local Abbreviation loop_outcomes' :=
  (loop_outcomes W agent_execute github_createIssue now_iso today).

(** The whole loop. *)
Lemma team_loop_run (ts : list TeamConfig) s :
  let r := for_each ts process_team' s in
  let os := loop_outcomes' ts s in
  fst r = Ok tt
  /\ length os = length ts
  /\ run_results (snd r) = run_results s ++ zip_with team_entry ts os
  /\ run_agents (snd r) = run_agents s ++ omap returned_agent os
  /\ cost_warnings (out (snd r)) = cost_warnings (out s)
  /\ exists urls,
       run_issues (snd r) = run_issues s ++ urls
       /\ length urls = length (List.filter needs_issue os).
Proof.
  cbv zeta. revert s.
  induction ts as [|t ts IH]; intros s; cbn [for_each loop_outcomes].
  - cbn. rewrite !app_nil_r. repeat split. exists []. now rewrite app_nil_r.
  - unfold bind.
    pose proof (process_team_run t s) as Hrun. cbv zeta in Hrun.
    destruct (process_team' t s) as [[[]|e] s1]; cbn [fst snd] in Hrun |- *;
      destruct Hrun as (Hok & Hres & Hag & Hwarn & Hiss); [|discriminate].
    destruct (IH s1) as (Hok' & Hlen' & Hres' & Hag' & Hwarn' & urls & Hiss'
                         & Hlen).
    split; [exact Hok'|]. split; [cbn; now rewrite Hlen'|]. split.
    { rewrite Hres', Hres, <- app_assoc. reflexivity. }
    split.
    { rewrite Hag', Hag, <- app_assoc. f_equal. simpl.
      destruct (returned_agent _); reflexivity. }
    split; [now rewrite Hwarn'|].
    cbn [List.filter]. destruct (needs_issue _).
    + destruct Hiss as [url Hurl]. exists (url :: urls).
      rewrite Hiss', Hurl, <- app_assoc. cbn. now rewrite Hlen.
    + exists urls. now rewrite Hiss', Hiss.
Qed.

Local Abbreviation issue_of' :=
  (issue_of W agent_execute github_createIssue now_iso today).
Local Abbreviation loop_issues' :=
  (loop_issues W agent_execute github_createIssue now_iso today).

Lemma process_team_issues t s :
  run_issues (snd (process_team' t s)) = run_issues s ++ issue_of' t (ext s).
Proof.
  unfold process_team, createFailureIssue, issue_of.
  unfold try_catch, bind, call, read, push_result, push_agent, push_issue,
    console_log, modify, ret.
  destruct (agent_execute t (ext s)) as [[[res ag]|e] w1]; cbn [fst snd].
  - destruct (negb (success res) && Nat.ltb 0 (length (errors res))); cbn.
    + destruct (github_createIssue _ _ _ _ _ w1) as [[url|e] w2]; reflexivity.
    + now rewrite app_nil_r.
  - cbn. now rewrite app_nil_r.
Qed.

Lemma team_loop_issues (ts : list TeamConfig) s :
  run_issues (snd (for_each ts process_team' s))
  = run_issues s ++ loop_issues' ts s.
Proof.
  revert s. induction ts as [|t ts IH]; intros s;
    cbn [for_each loop_issues].
  - cbn. now rewrite app_nil_r.
  - unfold bind.
    pose proof (process_team_run t s) as Hrun. cbv zeta in Hrun.
    pose proof (process_team_issues t s) as Hiss.
    destruct (process_team' t s) as [[[]|e] s1]; cbn [fst snd] in *;
      destruct Hrun as (Hok & _); [|discriminate].
    now rewrite IH, Hiss, <- app_assoc.
Qed.

Lemma issue_of_length t w :
  length (issue_of' t w)
  = if needs_issue (fst (agent_execute t w)) then 1%nat else 0%nat.
Proof.
  unfold issue_of.
  destruct (agent_execute t w) as [[[res ag]|e] w1];
    cbn [fst needs_issue]; [|reflexivity].
  destruct (negb (success res) && Nat.ltb 0 (length (errors res)));
    [|reflexivity].
  now destruct (github_createIssue _ _ _ _ _ w1) as [[url|e] w2].
Qed.

(** When what a pipeline does is the same in every world, the entries are
    those of the pipelines each taken alone. *)
Lemma entries_alone (ts : list TeamConfig) s w :
  (forall t w1 w2, fst (agent_execute t w1) = fst (agent_execute t w2)) ->
  zip_with team_entry ts (loop_outcomes' ts s)
  = map (fun t => team_entry t (fst (agent_execute t w))) ts.
Proof.
  intros Hsame. revert s.
  induction ts as [|t ts IH]; intros s; cbn [loop_outcomes zip_with map].
  - reflexivity.
  - now rewrite IH, (Hsame t (ext s) w).
Qed.

(** *** The pull request *)

Local Abbreviation commit_team' :=
  (commit_team W TEAMS github_branchExists github_createBranch
     github_createCommit now_iso).

Lemma commit_team_never_throws agents branchName r :
  never_throws (commit_team' agents branchName r).
Proof.
  unfold commit_team.
  destruct (find_team TEAMS (team r)); [|apply never_throws_ret].
  destruct (List.find _ agents); [|apply never_throws_ret].
  apply never_throws_try_catch. intros e. apply never_throws_console_log.
Qed.

Lemma createPullRequest_never_throws rs0 agents :
  never_throws (createPullRequest' rs0 agents).
Proof.
  unfold createPullRequest.
  apply never_throws_bind; [apply never_throws_read|intros date].
  destruct (List.filter _ rs0) as [|first rest]; [apply never_throws_ret|].
  apply never_throws_bind.
  - apply never_throws_for_each. intros r. apply commit_team_never_throws.
  - intros _. destruct (find_team TEAMS (team first));
      [|apply never_throws_ret].
    apply never_throws_try_catch. intros e.
    apply never_throws_bind; [apply never_throws_console_log|intros _].
    apply never_throws_ret.
Qed.

Lemma keep_arrays_log rs0 ags is0 cw e :
  (forall c, e <> WarnCostThreshold c) ->
  preserves (on_local W (arrays_are rs0 ags is0 cw)) (console_log W e).
Proof.
  intros He. apply keep_console_log. intros o r a i (-> & -> & -> & <-).
  unfold arrays_are. repeat split. now apply cost_warnings_other.
Qed.

Lemma createPullRequest_keeps rs0 ags is0 cw rs1 agents :
  preserves (on_local W (arrays_are rs0 ags is0 cw))
    (createPullRequest' rs1 agents).
Proof.
  unfold createPullRequest, commit_team.
  keeps_run; apply keep_arrays_log; discriminate.
Qed.

Lemma createPullRequest_nothing rs0 agents s :
  List.filter has_changes rs0 = [] ->
  createPullRequest' rs0 agents s = (Ok None, s).
Proof.
  intros Hf. unfold createPullRequest, bind, read.
  change (List.filter (fun r => success r && Nat.ltb 0 (length (docsUpdated r)))
            rs0) with (List.filter has_changes rs0).
  now rewrite Hf.
Qed.

(** *** The cost alert *)

Lemma sendCostAlert_run env c s :
  let r := sendCostAlert' env c s in
  fst r = Ok tt
  /\ run_results (snd r) = run_results s
  /\ run_agents (snd r) = run_agents s
  /\ run_issues (snd r) = run_issues s
  /\ cost_warnings (out (snd r)) = cost_warnings (out s) ++ [c]
  /\ (match SLACK_WEBHOOK_URL env with
      | Some url => truthy url = false
      | None => True
      end -> ext (snd r) = ext s).
Proof.
  cbv zeta. unfold sendCostAlert, bind, console_log, modify, try_catch, call,
    ret.
  cbn [fst snd ext out run_results run_agents run_issues].
  assert (Hw : forall l, cost_warnings (l ++ [WarnCostThreshold c])
                         = cost_warnings l ++ [c]).
  { intros l. unfold cost_warnings. now rewrite omap_app. }
  destruct (SLACK_WEBHOOK_URL env) as [url|]; [|cbn; auto 10].
  destruct (truthy url); [|cbn; auto 10].
  cbn. destruct (slack_post url c (ext s)) as [[[]|e] w]; cbn.
  - repeat split; auto; congruence.
  - repeat split; auto; try congruence.
    rewrite cost_warnings_other by discriminate. apply Hw.
Qed.

(** *** The whole run *)

Local Abbreviation loaded :=
  (fun w : W =>
     snd (try_catch (call W mnemo_loadTeamDocs)
            (fun error => console_log W (ErrorLoadCache error)) (start W w))).

Lemma loaded_arrays (w : W) :
  run_results (loaded w) = [] /\ run_agents (loaded w) = []
  /\ run_issues (loaded w) = [] /\ cost_warnings (out (loaded w)) = [].
Proof.
  unfold try_catch, call, console_log, modify, start.
  cbn [ext out run_results run_agents run_issues].
  destruct (mnemo_loadTeamDocs w) as [[[]|e] w']; cbn; auto.
Qed.

Local Abbreviation pull_request :=
  (fun s1 : rs =>
     try_catch (createPullRequest' (run_results s1) (run_agents s1))
       (fun error => bind (console_log W (ErrorCreatePR error))
                       (fun _ => ret None)) s1).

Local Abbreviation cost_check :=
  (fun (env : Env) (s2 : rs) =>
     (if over_threshold (sum_costs (run_results s2))
      then sendCostAlert' env (sum_costs (run_results s2))
      else ret tt) s2).

(** The stages of [handleScheduled], each from the state the one before
    it leaves. *)
Lemma handleScheduled_eq (env : Env) (w : W) :
  exists s1 url s2 s3,
    for_each TEAMS process_team' (loaded w) = (Ok tt, s1)
    /\ pull_request s1 = (Ok url, s2)
    /\ cost_check env s2 = (Ok tt, s3)
    /\ handleScheduled' env (start W w)
       = match mnemo_getStats (ext s3) with
         | (Ok _, w4) =>
             (Ok (mkSummary (now_iso w4) (run_results s3)
                    (sum_costs (run_results s2)) url (run_issues s3)),
              mkRun w4 (out s3) (run_results s3) (run_agents s3)
                (run_issues s3))
         | (Throw e, w4) =>
             (Throw e,
              mkRun w4 (out s3) (run_results s3) (run_agents s3)
                (run_issues s3))
         end.
Proof.
  assert (Hl : exists u,
             try_catch (call W mnemo_loadTeamDocs)
               (fun error => console_log W (ErrorLoadCache error)) (start W w)
             = (Ok u, loaded w)).
  { unfold try_catch, call, console_log, modify.
    destruct (mnemo_loadTeamDocs (ext (start W w))) as [[[]|e] w'];
      now eexists. }
  destruct Hl as [u Hl].
  destruct (team_loop_run TEAMS (loaded w)) as (Hok & _).
  destruct (for_each TEAMS process_team' (loaded w)) as [o1 s1] eqn:H1.
  cbn [fst] in Hok. subst o1.
  assert (Hprok : exists url, fst (pull_request s1) = Ok url).
  { apply never_throws_try_catch. intros e.
    apply never_throws_bind; [apply never_throws_console_log|intros _].
    apply never_throws_ret. }
  destruct Hprok as [url Hurl].
  destruct (pull_request s1) as [o2 s2] eqn:H2. cbn [fst] in Hurl. subst o2.
  assert (Hcok : fst (cost_check env s2) = Ok tt).
  { destruct (over_threshold _); [|reflexivity].
    apply sendCostAlert_run. }
  destruct (cost_check env s2) as [o3 s3] eqn:H3. cbn [fst] in Hcok. subst o3.
  exists s1, url, s2, s3.
  split; [reflexivity|]. split; [exact H2|]. split; [exact H3|].
  unfold handleScheduled.
  unfold bind at 1. rewrite Hl.
  unfold bind at 1. rewrite H1.
  unfold bind at 1, get at 1. unfold bind at 1. rewrite H2.
  unfold bind at 1, get at 1. unfold bind at 1. rewrite H3.
  unfold bind at 1, call at 1.
  destruct (mnemo_getStats (ext s3)) as [[stats|e] w4]; reflexivity.
Qed.

Lemma handleScheduled_run (env : Env) (w : W) :
  let r := handleScheduled' env (start W w) in
  let os := loop_outcomes' TEAMS (loaded w) in
  let rs0 := zip_with team_entry TEAMS os in
  run_results (snd r) = rs0
  /\ run_agents (snd r) = omap returned_agent os
  /\ length (run_issues (snd r)) = length (List.filter needs_issue os)
  /\ cost_warnings (out (snd r))
     = (if over_threshold (sum_costs rs0) then [sum_costs rs0] else [])
  /\ match fst r with
     | Ok summary =>
         results summary = rs0
         /\ totalCost summary = sum_costs rs0
         /\ issuesCreated summary = run_issues (snd r)
     | Throw e => exists w', fst (mnemo_getStats w') = Throw e
     end.
Proof.
  cbv zeta.
  destruct (handleScheduled_eq env w) as (s1 & url & s2 & s3 & H1 & H2 & H3 & ->).
  destruct (loaded_arrays w) as (Hr0 & Ha0 & Hi0 & Hc0).
  (* the team loop *)
  destruct (team_loop_run TEAMS (loaded w))
    as (_ & Hlen & Hres & Hag & Hwarn & urls & Hiss & Hurls).
  rewrite H1 in Hres, Hag, Hwarn, Hiss. cbn [snd] in Hres, Hag, Hwarn, Hiss.
  rewrite Hr0 in Hres. rewrite Ha0 in Hag. rewrite Hi0 in Hiss.
  rewrite Hc0 in Hwarn. cbn [app] in Hres, Hag, Hiss.
  (* the pull request *)
  assert (Hpr : on_local W
                  (arrays_are (run_results s1) (run_agents s1) (run_issues s1)
                     (cost_warnings (out s1))) (snd (pull_request s1))).
  { apply preserves_try_catch.
    - apply createPullRequest_keeps.
    - intros e. apply preserves_bind; [|intros ?; apply preserves_ret].
      apply keep_arrays_log. discriminate.
    - unfold on_local, arrays_are. auto. }
  cbv beta in Hpr, H2, H3. rewrite H2 in Hpr. cbn [snd] in Hpr.
  destruct Hpr as (Hr2 & Ha2 & Hi2 & Hc2).
  (* the cost check *)
  set (rs0 := zip_with team_entry TEAMS (loop_outcomes' TEAMS (loaded w))) in *.
  assert (Hcost : run_results s3 = rs0
                  /\ run_agents s3 = run_agents s2
                  /\ run_issues s3 = run_issues s2
                  /\ cost_warnings (out s3)
                     = (if over_threshold (sum_costs rs0) then [sum_costs rs0]
                        else [])).
  { rewrite Hr2, Hres in H3.
    destruct (over_threshold (sum_costs rs0)).
    - destruct (sendCostAlert_run env (sum_costs rs0) s2)
        as (_ & Hr3 & Ha3 & Hi3 & Hc3 & _).
      rewrite H3 in Hr3, Ha3, Hi3, Hc3. cbn [snd] in Hr3, Ha3, Hi3, Hc3.
      rewrite Hr3, Hr2, Hres. split; [reflexivity|].
      split; [exact Ha3|]. split; [exact Hi3|].
      rewrite Hc3, Hc2, Hwarn. reflexivity.
    - injection H3 as <-. rewrite Hr2, Hres, Hc2, Hwarn. auto. }
  destruct Hcost as (Hr3 & Ha3 & Hi3 & Hc3).
  rewrite Hr2, Hres.
  destruct (mnemo_getStats (ext s3)) as [[stats|e] w4] eqn:Hst;
    cbn [fst snd run_results run_agents run_issues out results totalCost
         issuesCreated];
    rewrite Hr3, Ha3, Ha2, Hag, Hi3, Hi2, Hiss, Hc3, Hurls;
    repeat split; auto.
  exists (ext s3). now rewrite Hst.
Qed.

Lemma handleScheduled_issues (env : Env) (w : W) :
  run_issues (snd (handleScheduled' env (start W w)))
  = loop_issues' TEAMS (loaded w).
Proof.
  destruct (handleScheduled_eq env w) as (s1 & url & s2 & s3 & H1 & H2 & H3 & ->).
  destruct (loaded_arrays w) as (_ & _ & Hi0 & _).
  pose proof (team_loop_issues TEAMS (loaded w)) as Hiss.
  cbv beta in Hiss, H1, Hi0. rewrite H1, Hi0 in Hiss. cbn [snd app] in Hiss.
  assert (Hpr : on_local W
                  (arrays_are (run_results s1) (run_agents s1) (run_issues s1)
                     (cost_warnings (out s1))) (snd (pull_request s1))).
  { apply preserves_try_catch.
    - apply createPullRequest_keeps.
    - intros e. apply preserves_bind; [|intros ?; apply preserves_ret].
      apply keep_arrays_log. discriminate.
    - unfold on_local, arrays_are. auto. }
  cbv beta in Hpr, H2, H3. rewrite H2 in Hpr. cbn [snd] in Hpr.
  destruct Hpr as (_ & _ & Hi2 & _).
  assert (Hi3 : run_issues s3 = run_issues s2).
  { destruct (over_threshold (sum_costs (run_results s2))).
    - destruct (sendCostAlert_run env (sum_costs (run_results s2)) s2)
        as (_ & _ & _ & Hi3 & _).
      now rewrite H3 in Hi3.
    - now injection H3 as <-. }
  destruct (mnemo_getStats (ext s3)) as [[stats|e] w4];
    cbn [snd run_issues]; now rewrite Hi3, Hi2.
Qed.

End Facts.
(** *** The coordinator over the agent *)

Section Shipped.
Variable W : Type.
Variable mnemo_query : prompt -> W -> outcome jsstring * W.
Variable github_getFile :
  jsstring -> jsstring -> jsstring -> W -> outcome jsstring * W.
Variable agent_today : W -> jsstring.
Variable github_createIssue :
  jsstring -> jsstring -> document -> document -> list jsstring ->
  W -> outcome jsstring * W.
Variable now_iso : W -> jsstring.
Variable today : W -> jsstring.

Local Abbreviation run_agent := (agent_run mnemo_query github_getFile agent_today).
Local Abbreviation outcomes :=
  (loop_outcomes W run_agent github_createIssue now_iso today).

Lemma agent_run_returns (t : TeamConfig) (w : W) :
  exists r a,
    fst (run_agent t w) = Ok (r, a)
    /\ r = result a
    /\ a = agent (snd (execute W mnemo_query github_getFile agent_today
                         (initial W t w))).
Proof.
  unfold agent_run.
  destruct (AgentFacts.execute_run W mnemo_query github_getFile agent_today
              t w) as [Hok _].
  cbv zeta in Hok.
  destruct (execute W mnemo_query github_getFile agent_today (initial W t w))
    as [o s']. cbn [fst snd] in *. subst o. cbn. eauto.
Qed.

Lemma entries_of_runs (P : AgentResult -> Prop) :
  (forall t w, P (result (agent (snd (execute W mnemo_query github_getFile
                                        agent_today (initial W t w)))))) ->
  forall ts s, Forall P (zip_with team_entry ts (outcomes ts s)).
Proof.
  intros HP. induction ts as [|t ts IH]; intros s; cbn [loop_outcomes zip_with].
  - constructor.
  - constructor; [|apply IH].
    destruct (agent_run_returns t (ext s)) as (r & a & -> & -> & ->).
    cbn [team_entry]. apply HP.
Qed.

Lemma no_run_needs_issue :
  (forall t w, success (result (agent (snd (execute W mnemo_query
                                              github_getFile agent_today
                                              (initial W t w))))) = true) ->
  forall ts s, List.filter needs_issue (outcomes ts s) = [].
Proof.
  intros HP. induction ts as [|t ts IH]; intros s; cbn [loop_outcomes].
  - reflexivity.
  - cbn [List.filter].
    destruct (agent_run_returns t (ext s)) as (r & a & -> & -> & ->).
    cbn [needs_issue]. rewrite HP. cbn. apply IH.
Qed.

End Shipped.

Lemma three_costs_under (c1 c2 c3 : float) :
  In c1 AgentSpec.possible_costs -> In c2 AgentSpec.possible_costs ->
  In c3 AgentSpec.possible_costs ->
  over_threshold
    (PrimFloat.add (PrimFloat.add (PrimFloat.add 0%float c1) c2) c3) = false.
Proof.
  assert (H : forallb (fun x1 => forallb (fun x2 => forallb (fun x3 =>
                negb (over_threshold
                        (PrimFloat.add (PrimFloat.add (PrimFloat.add 0%float x1)
                                          x2) x3)))
                AgentSpec.possible_costs) AgentSpec.possible_costs)
                AgentSpec.possible_costs = true)
    by (vm_compute; reflexivity).
  intros H1 H2 H3. rewrite forallb_forall in H. specialize (H c1 H1).
  rewrite forallb_forall in H. specialize (H c2 H2).
  rewrite forallb_forall in H. specialize (H c3 H3).
  now apply negb_true_iff in H.
Qed.

(** X16.  The team loop never throws.  After it the results hold one
    entry for each team, in the order of the teams: what the pipeline of
    the team returned, or the failure literal with the message of what it
    threw.  The agents are those of the pipelines that returned.  An issue
    is added for each pipeline that returned without success and with
    errors, and for no other: a pipeline that throws gets its failure
    entry and no issue. *)
Theorem team_loop_keeps_every_team :
  forall W agent_execute github_createIssue now_iso today
         (ts : list TeamConfig) (s : run_state W),
    let r := for_each ts
               (process_team W agent_execute github_createIssue now_iso today)
               s in
    let os := loop_outcomes W agent_execute github_createIssue now_iso today
                ts s in
    fst r = Ok tt
    /\ length os = length ts
    /\ run_results (snd r) = run_results s ++ zip_with team_entry ts os
    /\ run_agents (snd r) = run_agents s ++ omap returned_agent os
    /\ exists urls,
         run_issues (snd r) = run_issues s ++ urls
         /\ length urls = length (List.filter needs_issue os).
Proof.
  intros W ae ci now_iso today ts s. cbv zeta.
  destruct (team_loop_run W ae ci now_iso today ts s)
    as (Hok & Hlen & Hres & Hag & _ & Hiss).
  auto.
Qed.

(** X17.  [createPullRequest] never throws, so the handler around its call
    in [handleScheduled] is never entered; and when no result is
    successful with a document updated, it returns [undefined] without a
    call to the host, and with no warning or error on the console.  (The
    console is kept to its warnings and errors; the line that
    [console.log] writes on this path, that there is nothing to commit, is
    not part of it.) *)
Theorem createPullRequest_never_throws_and_skips :
  forall W TEAMS branchExists createBranch createCommit createPR now_iso today
         (rs0 : list AgentResult) (agents : list TeamAgent) (s : run_state W),
    let r := createPullRequest W TEAMS branchExists createBranch createCommit
               createPR now_iso today rs0 agents s in
    (exists url, fst r = Ok url)
    /\ (List.filter has_changes rs0 = [] -> r = (Ok None, s)).
Proof.
  intros W TEAMS be cb cc cp now_iso today rs0 agents s r. split.
  - apply createPullRequest_never_throws.
  - apply createPullRequest_nothing.
Qed.

(** X18.  [sendCostAlert] never throws, whatever the webhook does.  It
    logs the warning with the cost once and leaves the arrays of the run
    as they were; without a webhook address, or with an empty one, it
    makes no call. *)
Theorem sendCostAlert_only_warns :
  forall W slack_post (env : Env) (c : float) (s : run_state W),
    let r := sendCostAlert W slack_post env c s in
    fst r = Ok tt
    /\ run_results (snd r) = run_results s
    /\ run_agents (snd r) = run_agents s
    /\ run_issues (snd r) = run_issues s
    /\ cost_warnings (out (snd r)) = cost_warnings (out s) ++ [c]
    /\ (match SLACK_WEBHOOK_URL env with
        | Some url => truthy url = false
        | None => True
        end -> ext (snd r) = ext s).
Proof. intros W sp env c s. apply sendCostAlert_run. Qed.


(** X20.  With the three configured teams and the agent behind it, no run
    of [handleScheduled] reaches the cost alert: each pipeline returns
    with an estimate of at most [0.08], the sum is not more than [50], and
    no cost warning is logged. *)
Theorem cost_alert_is_out_of_reach :
  forall W mnemo_query github_getFile agent_today loadTeamDocs getStats
         createIssue branchExists createBranch createCommit createPR
         slack_post now_iso today (env : Env) (w : W),
    let r := handleScheduled W TEAMS_config
               (agent_run mnemo_query github_getFile agent_today)
               loadTeamDocs getStats createIssue branchExists createBranch
               createCommit createPR slack_post now_iso today env
               (start W w) in
    over_threshold (sum_costs (run_results (snd r))) = false
    /\ cost_warnings (out (snd r)) = [].
Proof.
  intros W mq gf atoday ld gs ci be cb cc cp sp now_iso today env w r.
  destruct (handleScheduled_run W TEAMS_config
              (agent_run mq gf atoday) ld gs ci be cb cc cp sp now_iso today
              env w) as (Hres & _ & _ & Hwarn & _).
  fold r in Hres, Hwarn. cbv zeta in Hres, Hwarn.
  rewrite <- Hres in Hwarn.
  assert (Hcosts : Forall (fun x => In (costEstimate x) AgentSpec.possible_costs)
                     (run_results (snd r))).
  { rewrite Hres. apply entries_of_runs. intros t w0.
    apply AgentMore.execute_cost. }
  assert (Hlen : length (run_results (snd r)) = 3%nat).
  { rewrite Hres. rewrite length_zip_with.
    destruct (team_loop_run W (agent_run mq gf atoday) ci now_iso today
                TEAMS_config
                (snd (try_catch (call W ld)
                        (fun error => console_log W (ErrorLoadCache error))
                        (start W w)))) as (_ & Hl & _).
    rewrite Hl. reflexivity. }
  destruct (run_results (snd r)) as [|r1 [|r2 [|r3 [|r4 l]]]];
    try discriminate Hlen.
  inversion Hcosts as [|? ? H1 Hc1]; subst.
  inversion Hc1 as [|? ? H2 Hc2]; subst.
  inversion Hc2 as [|? ? H3 _]; subst.
  assert (Hunder : over_threshold (sum_costs [r1; r2; r3]) = false).
  { cbn [sum_costs fold_left]. now apply three_costs_under. }
  split; [exact Hunder|]. now rewrite Hunder in Hwarn.
Qed.

(** X21.  With the client's [getFile] behind the agents, every pipeline
    returns with its success flag set, so a run of [handleScheduled]
    opens no failure issue: [issuesCreated] is empty, whatever the host
    and the answering service do. *)
Theorem client_runs_open_no_issue :
  forall W0 fetch_contents atob mnemo_query agent_today TEAMS loadTeamDocs
         getStats createIssue branchExists createBranch createCommit
         createPR slack_post now_iso today (env : Env)
         (w : Contents.client W0),
    let getFile := Contents.getFile_main W0 fetch_contents atob in
    let r := handleScheduled (Contents.client W0) TEAMS
               (agent_run mnemo_query getFile agent_today)
               loadTeamDocs getStats createIssue branchExists createBranch
               createCommit createPR slack_post now_iso today env
               (start (Contents.client W0) w) in
    run_issues (snd r) = []
    /\ Forall (fun x => success x = true) (run_results (snd r))
    /\ (forall summary, fst r = Ok summary -> issuesCreated summary = []).
Proof.
  intros W0 fc atob mq atoday TEAMS ld gs ci be cb cc cp sp now_iso today env
         w getFile r.
  assert (Hsucc : forall t w0,
             success (result (agent (snd (execute (Contents.client W0) mq
                                            getFile atoday
                                            (initial (Contents.client W0)
                                               t w0))))) = true).
  { intros t w0.
    apply (AgentMore.execute_succeeds (Contents.client W0) mq getFile atoday).
    intros w1. apply AgentMore.getFile_returns. }
  destruct (handleScheduled_run (Contents.client W0) TEAMS
              (agent_run mq getFile atoday) ld gs ci be cb cc cp sp now_iso
              today env w) as (Hres & _ & Hiss & _ & Hsum).
  fold r in Hres, Hiss, Hsum. cbv zeta in Hres, Hiss, Hsum.
  rewrite (no_run_needs_issue _ mq getFile atoday ci now_iso today Hsucc)
    in Hiss.
  assert (Hnil : run_issues (snd r) = []).
  { destruct (run_issues (snd r)); [reflexivity|discriminate]. }
  split; [exact Hnil|]. split.
  - rewrite Hres. apply entries_of_runs. exact Hsucc.
  - intros summary Hs. rewrite Hs in Hsum.
    destruct Hsum as (_ & _ & ->). exact Hnil.
Qed.



(** In the same world, a pipeline of [de] that returns the result of an
    aborted run gets one issue, and the other entries are as they are
    when it returns with success. *)
Example aborted_pipeline_gets_one_issue :
  exists summary s summary' s',
    idle_run (but_de 0 (Ok de_aborted)) = (Ok summary, s)
    /\ idle_run (but_de 0 (Ok (de_returned 0))) = (Ok summary', s')
    /\ map team (results summary) = [js "nexus"; js "de"; js "mnemo"]
    /\ results summary !! 1%nat = Some de_aborted
    /\ results summary !! 0%nat = results summary' !! 0%nat
    /\ results summary !! 2%nat = results summary' !! 2%nat
    /\ issuesCreated summary
       = [js "https://github.com/CyberBrown/de/issues/1"]
    /\ issuesCreated summary' = [].
Proof. eexists _, _, _, _. vm_compute. repeat split. Qed.


(** In the sample world, pipelines with an estimate of [30] each bring the
    total to [90]: the warning is logged once with the total, and the
    summary is returned with it. *)
Example alert_does_not_stop_the_run :
  exists summary s,
    idle_run (but_de 30 (Ok (de_returned 30))) = (Ok summary, s)
    /\ totalCost summary = 90%float
    /\ cost_warnings (out s) = [90%float]
    /\ length (results summary) = 3%nat.
Proof. eexists _, _. vm_compute. repeat split. Qed.

End CoordinatorFacts.

Module WiredFacts.
Import JS Regex Eff EffFacts.
Import Agent Coordinator CoordinatorSpec GitHub GitHubFacts Wired.

Local Arguments js : simpl never.

Lemma serve_keeps_main rq rp resp rp' :
  writes_main rq = false -> serve rq rp = Some (resp, rp') ->
  refs rp' !! js "main" = refs rp !! js "main".
Proof.
  intros Hw Hs.
  destruct (no_ref_update rq) eqn:Hn.
  - now rewrite (serve_keeps_refs rq rp resp rp' Hn Hs).
  - destruct rq; try discriminate; cbn [writes_main] in Hw;
      apply bool_decide_eq_false in Hw; cbn [serve] in Hs;
      repeat match type of Hs with
             | match ?x with _ => _ end = _ => destruct x; try discriminate
             end;
      injection Hs as _ <-; cbn [refs]; now rewrite lookup_insert_ne.
Qed.

Section Main.
Variable k : jsstring * jsstring.
Variable c : option nat.

Lemma fetch_keeps_main rq :
  writes_main rq = false -> preserves (main_at k c) (fetch rq).
Proof.
  intros Hw w Hm. unfold main_at, branch_head in *.
  destruct (fetch_cases rq w)
    as [(e & He)|[(rp & r & rp' & e & Hh & Hs & He)
                 |(rp & r & rp' & Hh & Hs & He)]];
    rewrite He; cbn [snd host]; [exact Hm| |];
    (destruct (decide (k = request_repo rq)) as [->|Hne];
     [ rewrite lookup_insert_eq; rewrite Hh in Hm;
       now rewrite (serve_keeps_main rq rp r rp' Hw Hs)
     | now rewrite lookup_insert_ne by congruence ]).
Qed.

Lemma object_sha_keeps_main x : preserves (main_at k c) (object_sha x).
Proof. destruct x; intros w H; exact H. Qed.

Lemma tree_sha_keeps_main x : preserves (main_at k c) (tree_sha x).
Proof. destruct x; intros w H; exact H. Qed.

Lemma sha_of_keeps_main x : preserves (main_at k c) (sha_of x).
Proof. destruct x; intros w H; exact H. Qed.

Lemma create_blobs_keeps_main owner rp files tree :
  preserves (main_at k c) (create_blobs owner rp files tree).
Proof.
  revert tree. induction files as [|f files IH]; intros tree;
    cbn [create_blobs].
  - apply preserves_ret.
  - apply preserves_bind; [now apply fetch_keeps_main|intros blob].
    apply preserves_bind; [apply sha_of_keeps_main|intros s]. apply IH.
Qed.

Lemma branchExists_keeps_main owner rp branch :
  preserves (main_at k c) (branchExists owner rp branch).
Proof.
  unfold branchExists. apply preserves_try_catch.
  - apply preserves_bind; [now apply fetch_keeps_main|intros _].
    apply preserves_ret.
  - intros e. apply preserves_ret.
Qed.

Lemma createBranch_keeps_main owner rp branch :
  branch <> js "main" ->
  preserves (main_at k c) (createBranch owner rp branch).
Proof.
  intros Hb. unfold createBranch.
  apply preserves_bind; [now apply fetch_keeps_main|intros mainRef].
  apply preserves_bind; [apply object_sha_keeps_main|intros mainSha].
  apply preserves_bind; [|intros _; apply preserves_ret].
  apply fetch_keeps_main. cbn [writes_main].
  now apply bool_decide_eq_false.
Qed.

Lemma createCommit_keeps_main owner rp branch message files :
  branch <> js "main" ->
  preserves (main_at k c) (createCommit owner rp branch message files).
Proof.
  intros Hb. unfold createCommit.
  apply preserves_bind; [now apply fetch_keeps_main|intros branchRef].
  apply preserves_bind; [apply object_sha_keeps_main|intros baseSha].
  apply preserves_bind; [now apply fetch_keeps_main|intros baseCommit].
  apply preserves_bind; [apply tree_sha_keeps_main|intros baseTreeSha].
  apply preserves_bind; [apply create_blobs_keeps_main|intros tree].
  apply preserves_bind; [now apply fetch_keeps_main|intros newTree].
  apply preserves_bind; [apply sha_of_keeps_main|intros newTreeSha].
  apply preserves_bind; [now apply fetch_keeps_main|intros commit].
  apply preserves_bind; [apply sha_of_keeps_main|intros commitSha].
  apply preserves_bind; [|intros _; apply preserves_ret].
  apply fetch_keeps_main. cbn [writes_main].
  now apply bool_decide_eq_false.
Qed.

End Main.

Section Lifted.
Variable sha_text : sha -> jsstring.
Variable render : document -> jsstring.
Variable TEAMS : list TeamConfig.
Variable github_createPR :
  jsstring -> jsstring -> GitHubPR -> net -> outcome jsstring * net.
Variable now_iso : net -> jsstring.
Variable today : net -> jsstring.
Variable k : jsstring * jsstring.
Variable c : option nat.
Hypothesis createPR_keeps_main :
  forall owner rp pr w,
    branch_head (snd (github_createPR owner rp pr w)) k (js "main")
    = branch_head w k (js "main").

Local Abbreviation on_host := (fun s : run_state net => main_at k c (ext s)).

Lemma call_keeps_main {A} (f : net -> outcome A * net) :
  (forall w, main_at k c w -> main_at k c (snd (f w))) ->
  preserves on_host (call net f).
Proof.
  intros Hf s Hs. unfold call.
  pose proof (Hf (ext s) Hs) as H. destruct (f (ext s)) as [o w]. exact H.
Qed.

Lemma read_keeps_main {A} (f : net -> A) : preserves on_host (read net f).
Proof. intros s H. exact H. Qed.

Lemma console_log_keeps_main e : preserves on_host (console_log net e).
Proof. intros s H. exact H. Qed.

Lemma as_text_keeps_main (m : M net sha) :
  preserves (main_at k c) m ->
  forall w, main_at k c w -> main_at k c (snd (as_text sha_text (m w))).
Proof.
  intros Hm w Hw. pose proof (Hm w Hw) as H.
  destruct (m w) as [[s|e] w']; exact H.
Qed.

Lemma branch_of_the_day (date : jsstring) :
  js "autonomous-agent/" ++ date <> js "main".
Proof. intros H. vm_compute in H. discriminate. Qed.

Lemma commit_team_keeps_main agents date r :
  preserves on_host
    (commit_team net TEAMS client_branchExists
       (client_createBranch sha_text) (client_createCommit sha_text render)
       now_iso agents (js "autonomous-agent/" ++ date) r).
Proof.
  unfold commit_team.
  destruct (find_team TEAMS (team r)) as [t|]; [|apply preserves_ret].
  destruct (List.find _ agents) as [a|]; [|apply preserves_ret].
  apply preserves_try_catch; [|intros e; apply console_log_keeps_main].
  apply preserves_bind.
  { apply call_keeps_main. apply branchExists_keeps_main. }
  intros b. apply preserves_bind.
  { destruct (negb b); [|apply preserves_ret].
    apply preserves_bind; [|intros _; apply preserves_ret].
    apply call_keeps_main. apply as_text_keeps_main.
    apply createBranch_keeps_main, branch_of_the_day. }
  intros _. apply preserves_bind; [apply read_keeps_main|intros time].
  apply preserves_bind; [|intros _; apply preserves_ret].
  apply call_keeps_main. apply as_text_keeps_main.
  apply createCommit_keeps_main, branch_of_the_day.
Qed.

Lemma createPullRequest_keeps_main rs0 agents :
  preserves on_host
    (createPullRequest net TEAMS client_branchExists
       (client_createBranch sha_text) (client_createCommit sha_text render)
       github_createPR now_iso today rs0 agents).
Proof.
  unfold createPullRequest.
  apply preserves_bind; [apply read_keeps_main|intros date].
  destruct (List.filter _ rs0) as [|first rest]; [apply preserves_ret|].
  apply preserves_bind.
  { apply preserves_for_each. intros r. apply commit_team_keeps_main. }
  intros _. destruct (find_team TEAMS (team first)) as [t|];
    [|apply preserves_ret].
  apply preserves_try_catch.
  - apply preserves_bind; [apply read_keeps_main|intros time].
    apply preserves_bind; [apply read_keeps_main|intros date'].
    apply preserves_bind; [|intros url; apply preserves_ret].
    apply call_keeps_main. intros w Hw. unfold main_at in *.
    now rewrite createPR_keeps_main.
  - intros e. apply preserves_bind; [apply console_log_keeps_main|intros _].
    apply preserves_ret.
Qed.

End Lifted.

(** X26.  With the client behind it, [createPullRequest] never moves
    [main]: whatever the results, the agents and the failures on the way,
    in every repository of the host [main] points after the call to the
    commit it pointed to before, provided the pull request call itself
    moves no ref.  Branches are made and commits are put only on the
    branch of the day. *)
Theorem pull_request_never_moves_main :
  forall sha_text render TEAMS github_createPR now_iso today
         (rs0 : list AgentResult) (agents : list TeamAgent)
         (s : run_state net) (k : jsstring * jsstring),
    (forall owner rp pr w,
        branch_head (snd (github_createPR owner rp pr w)) k (js "main")
        = branch_head w k (js "main")) ->
    branch_head
      (ext (snd (createPullRequest net TEAMS client_branchExists
                   (client_createBranch sha_text)
                   (client_createCommit sha_text render)
                   github_createPR now_iso today rs0 agents s)))
      k (js "main")
    = branch_head (ext s) k (js "main").
Proof.
  intros sha_text render TEAMS cp now_iso today rs0 agents s k Hpr.
  apply (createPullRequest_keeps_main sha_text render TEAMS cp now_iso today
           k (branch_head (ext s) k (js "main")) Hpr rs0 agents s).
  reflexivity.
Qed.

Lemma pull_request_never_moves_main_witness :
  branch_head
    (ext (snd (createPullRequest net TEAMS_config client_branchExists
                 (client_createBranch (fun _ => []))
                 (client_createCommit (fun _ => []) (fun _ => []))
                 pr_refused (fun _ => Samples.date0) (fun _ => Samples.date0)
                 [changed_result] [new_TeamAgent Samples.team_de]
                 (start net Samples.net0))))
    (Samples.owner0, js "de") (js "main")
  = branch_head (ext (start net Samples.net0)) (Samples.owner0, js "de")
      (js "main").
Proof.
  apply (pull_request_never_moves_main (fun _ => []) (fun _ => [])
           TEAMS_config pr_refused (fun _ => Samples.date0)
           (fun _ => Samples.date0) [changed_result]
           [new_TeamAgent Samples.team_de] (start net Samples.net0)
           (Samples.owner0, js "de")).
  intros owner rp pr w. reflexivity.
Defined.

End WiredFacts.
